(** * Lowering of R1CS to sparse (PLONK) constraints, and witness I/O

    A shallow embedding of [frontend/cs_to_r1cs_sparse.go] and of
    [internal/backend/bw6-672/witness/witness.go].

    Go values are modelled as follows:
    - [int], [uint64] and [big.Int] values are [Z]; a [compiled.Term] is the
      64-bit word itself, read and written with [Z.land], [Z.lor],
      [Z.ldiff], [Z.shiftl] and [Z.shiftr];
    - slices are lists, indexed with [zlookup] / [zupdate], which return
      [None] exactly where Go raises an index-out-of-range panic;
    - a method of [*sparseR1CS] is a function in the monad [M]: it threads
      the converter state and stops at the first panic. *)

From Stdlib Require Import ZArith List Bool Lia String Ascii Btauto.
From coqutil Require Import Z.bitblast Byte.
Import ListNotations.
Local Open Scope Z_scope.

(** ** Outcomes of a Go call *)

Inductive panic : Type :=
| IndexOutOfRange        (* runtime error: index out of range *)
| NegativeLen            (* runtime error: makeslice: len out of range *)
| CoeffIDTooLarge        (* panic in Term.SetCoeffID *)
| VariableIDTooLarge     (* panic in Term.SetVariableID *)
| UnsetVisibilityInLogs  (* panic in the logs id offset routine *)
| NotImplemented.        (* panic in the curve switch *)

Inductive error : Type :=
| ErrInputNotSet.

Inductive outcome (A : Type) : Type :=
| Ok (a : A)
| Panic (p : panic)
| Err (e : error).
Arguments Ok {A} a.
Arguments Panic {A} p.
Arguments Err {A} e.

Definition obind {A B} (x : outcome A) (f : A -> outcome B) : outcome B :=
  match x with
  | Ok a => f a
  | Panic p => Panic p
  | Err e => Err e
  end.

(** ** Slices *)

Definition zlen {A} (l : list A) : Z := Z.of_nat (List.length l).

Definition zlookup {A} (l : list A) (i : Z) : option A :=
  if i <? 0 then None else nth_error l (Z.to_nat i).

Fixpoint update_nth {A} (l : list A) (n : nat) (x : A) : option (list A) :=
  match l, n with
  | [], _ => None
  | _ :: l', O => Some (x :: l')
  | y :: l', S n' =>
      match update_nth l' n' x with
      | Some r => Some (y :: r)
      | None => None
      end
  end.

Definition zupdate {A} (l : list A) (i : Z) (x : A) : option (list A) :=
  if i <? 0 then None else update_nth l (Z.to_nat i) x.

Definition index {A} (l : list A) (i : Z) : outcome A :=
  match zlookup l i with
  | Some a => Ok a
  | None => Panic IndexOutOfRange
  end.

Definition store {A} (l : list A) (i : Z) (x : A) : outcome (list A) :=
  match zupdate l i x with
  | Some l' => Ok l'
  | None => Panic IndexOutOfRange
  end.

(** ** Package [compiled]: terms, constraints *)

Module compiled.

Inductive Visibility : Type := Unset | Internal | Secret | Public.

Definition Visibility_eqb (a b : Visibility) : bool :=
  match a, b with
  | Unset, Unset | Internal, Internal | Secret, Secret | Public, Public => true
  | _, _ => false
  end.

Inductive SolvingMethod : Type := SingleOutput | BinaryDec.

(** Modelled from the spec: the term codec of package [compiled], which
    the converter only uses through its interface.  A term is a single
    packed word
    encoding [(coeffID, varID, visibility)]; the all-zero word is the
    sentinel; a setter fails when its argument overflows the layout.  The
    layout chosen here is: bits 0..28 variable ID, bits 29..58 coefficient
    ID, bits 59..61 reserved, bits 62..63 visibility. *)
Definition Term : Type := Z.

Definition nbBitsVariableID : Z := 29.
Definition nbBitsCoeffID : Z := 30.
Definition nbBitsFutureUse : Z := 3.
Definition nbBitsVariableVisibility : Z := 2.

Definition shiftVariableID : Z := 0.
Definition shiftCoeffID : Z := nbBitsVariableID.
Definition shiftFutureUse : Z := shiftCoeffID + nbBitsCoeffID.
Definition shiftVariableVisibility : Z := shiftFutureUse + nbBitsFutureUse.

Definition maskVariableID : Z := Z.shiftl 1 nbBitsVariableID - 1.
Definition maskCoeffID : Z :=
  Z.shiftl (Z.shiftl 1 nbBitsCoeffID - 1) shiftCoeffID.
Definition maskVariableVisibility : Z :=
  Z.shiftl (Z.shiftl 1 nbBitsVariableVisibility - 1) shiftVariableVisibility.

Definition variablePublic : Z := 1.
Definition variableSecret : Z := 3.
Definition variableInternal : Z := 2.

Definition CoeffIdZero : Z := 0.
Definition CoeffIdOne : Z := 1.
Definition CoeffIdMinusOne : Z := 2.
Definition CoeffIdTwo : Z := 3.

Definition CoeffID (t : Term) : Z :=
  Z.shiftr (Z.land t maskCoeffID) shiftCoeffID.

Definition VariableID (t : Term) : Z :=
  Z.shiftr (Z.land t maskVariableID) shiftVariableID.

Definition VariableVisibility (t : Term) : Visibility :=
  let v := Z.shiftr (Z.land t maskVariableVisibility) shiftVariableVisibility in
  if v =? variableInternal then Internal
  else if v =? variablePublic then Public
  else if v =? variableSecret then Secret
  else Unset.

Definition SetVariableVisibility (t : Term) (v : Visibility) : Term :=
  match v with
  | Internal =>
      Z.lor (Z.ldiff t maskVariableVisibility)
            (Z.shiftl variableInternal shiftVariableVisibility)
  | Public =>
      Z.lor (Z.ldiff t maskVariableVisibility)
            (Z.shiftl variablePublic shiftVariableVisibility)
  | Secret =>
      Z.lor (Z.ldiff t maskVariableVisibility)
            (Z.shiftl variableSecret shiftVariableVisibility)
  | Unset => t
  end.

Definition fitsCoeffID (cID : Z) : bool :=
  (0 <=? cID) && (cID <? Z.shiftl 1 nbBitsCoeffID).

Definition fitsVariableID (vID : Z) : bool :=
  (0 <=? vID) && (vID <? Z.shiftl 1 nbBitsVariableID).

Definition SetCoeffID (t : Term) (cID : Z) : outcome Term :=
  if fitsCoeffID cID
  then Ok (Z.lor (Z.ldiff t maskCoeffID) (Z.shiftl cID shiftCoeffID))
  else Panic CoeffIDTooLarge.

Definition SetVariableID (t : Term) (vID : Z) : outcome Term :=
  if fitsVariableID vID
  then Ok (Z.lor (Z.ldiff t maskVariableID) (Z.shiftl vID shiftVariableID))
  else Panic VariableIDTooLarge.

Definition Pack (variableID coeffID : Z) (v : Visibility) : outcome Term :=
  obind (SetVariableID 0 variableID) (fun t =>
  obind (SetCoeffID t coeffID) (fun t =>
  Ok (SetVariableVisibility t v))).

Definition Unpack (t : Term) : Z * Z * Visibility :=
  (CoeffID t, VariableID t, VariableVisibility t).

Definition isZero (t : Term) : bool := t =? 0.

(** A term given by its three fields (the sentinel if they do not fit). *)
Definition mkTerm (variableID coeffID : Z) (v : Visibility) : Term :=
  match Pack variableID coeffID v with
  | Ok t => t
  | _ => 0
  end.

(** The two visibility bits of a term, as a number. *)
Definition visBits (t : Term) : Z := (t / 2 ^ 62) mod 2 ^ 2.

Definition LinearExpression : Type := list Term.

Record R1C : Type := mkR1C {
  R1C_L : LinearExpression;
  R1C_R : LinearExpression;
  R1C_O : LinearExpression;
  R1C_Solver : SolvingMethod }.

Record SparseR1C : Type := mkSparseR1C {
  L : Term;
  R : Term;
  O : Term;
  M0 : Term;
  M1 : Term;
  K : Z;
  Solver : SolvingMethod }.

Record LogEntry : Type := mkLogEntry {
  Format : string;
  ToResolve : list Z }.

Record SparseR1CS : Type := mkSparseR1CS {
  NbInternalVariables : Z;
  NbPublicVariables : Z;
  NbSecretVariables : Z;
  Constraints : list SparseR1C;
  Assertions : list SparseR1C;
  Logs : list LogEntry }.

End compiled.

(** ** Package [frontend]: the converter state *)

Import compiled.

Record logEntry : Type := mkLogEntryCS {
  format : string;
  toResolve : list Term }.

(** The part of [ConstraintSystem] the conversion reads.  The three
    variable slices only matter through their lengths. *)
Record ConstraintSystem : Type := mkConstraintSystem {
  public_variables : nat;
  secret_variables : nat;
  internal_variables : nat;
  constraints : list R1C;
  assertions : list R1C;
  cs_coeffs : list Z;
  logs : list logEntry }.

(** [sparseR1CS]: the embedded constraint system contributes its
    coefficient pool [coeffs], the only part of it the conversion writes. *)
Record sparseR1CS : Type := mkSparse {
  coeffs : list Z;
  ccs : SparseR1CS;
  mCStoCCS : list Z;
  solvedVariables : list bool }.

Definition M (A : Type) : Type := sparseR1CS -> outcome (A * sparseR1CS).

Definition ret {A} (a : A) : M A := fun s => Ok (a, s).

Definition bind {A B} (m : M A) (f : A -> M B) : M B :=
  fun s =>
    match m s with
    | Ok (a, s') => f a s'
    | Panic p => Panic p
    | Err e => Err e
    end.

Definition lift {A} (x : outcome A) : M A :=
  fun s =>
    match x with
    | Ok a => Ok (a, s)
    | Panic p => Panic p
    | Err e => Err e
    end.

Definition get : M sparseR1CS := fun s => Ok (s, s).
Definition put (s : sparseR1CS) : M unit := fun _ => Ok (tt, s).

Declare Scope go_scope.
Delimit Scope go_scope with go.
Notation "x <- m ;; k" := (bind m (fun x => k))
  (at level 61, m at next level, right associativity) : go_scope.
Notation "' p <- m ;; k" := (bind m (fun x => match x with p => k end))
  (at level 61, p pattern, m at next level, right associativity) : go_scope.
Notation "m ;;; k" := (bind m (fun _ => k))
  (at level 61, right associativity) : go_scope.
Local Open Scope go_scope.

Definition set_coeffs (s : sparseR1CS) (c : list Z) : sparseR1CS :=
  mkSparse c (ccs s) (mCStoCCS s) (solvedVariables s).
Definition set_ccs (s : sparseR1CS) (c : SparseR1CS) : sparseR1CS :=
  mkSparse (coeffs s) c (mCStoCCS s) (solvedVariables s).
Definition set_mCStoCCS (s : sparseR1CS) (m : list Z) : sparseR1CS :=
  mkSparse (coeffs s) (ccs s) m (solvedVariables s).
Definition set_solvedVariables (s : sparseR1CS) (v : list bool) : sparseR1CS :=
  mkSparse (coeffs s) (ccs s) (mCStoCCS s) v.

Definition set_NbInternalVariables (c : SparseR1CS) (n : Z) : SparseR1CS :=
  mkSparseR1CS n (NbPublicVariables c) (NbSecretVariables c)
               (Constraints c) (Assertions c) (Logs c).
Definition set_Constraints (c : SparseR1CS) (l : list SparseR1C) : SparseR1CS :=
  mkSparseR1CS (NbInternalVariables c) (NbPublicVariables c)
               (NbSecretVariables c) l (Assertions c) (Logs c).
Definition set_Assertions (c : SparseR1CS) (l : list SparseR1C) : SparseR1CS :=
  mkSparseR1CS (NbInternalVariables c) (NbPublicVariables c)
               (NbSecretVariables c) (Constraints c) l (Logs c).
Definition set_Logs (c : SparseR1CS) (l : list LogEntry) : SparseR1CS :=
  mkSparseR1CS (NbInternalVariables c) (NbPublicVariables c)
               (NbSecretVariables c) (Constraints c) (Assertions c) l.

(** The zero value of [compiled.SparseR1C], from which composite literals
    start; [Solver] defaults to [SingleOutput]. *)
Definition gate0 : SparseR1C := mkSparseR1C 0 0 0 0 0 0 SingleOutput.

Definition withL (c : SparseR1C) (t : Term) : SparseR1C :=
  mkSparseR1C t (R c) (O c) (M0 c) (M1 c) (K c) (Solver c).
Definition withR (c : SparseR1C) (t : Term) : SparseR1C :=
  mkSparseR1C (L c) t (O c) (M0 c) (M1 c) (K c) (Solver c).
Definition withO (c : SparseR1C) (t : Term) : SparseR1C :=
  mkSparseR1C (L c) (R c) t (M0 c) (M1 c) (K c) (Solver c).
Definition withM0 (c : SparseR1C) (t : Term) : SparseR1C :=
  mkSparseR1C (L c) (R c) (O c) t (M1 c) (K c) (Solver c).
Definition withM1 (c : SparseR1C) (t : Term) : SparseR1C :=
  mkSparseR1C (L c) (R c) (O c) (M0 c) t (K c) (Solver c).

Definition bOne : Z := 1.

(** The pool every constraint system starts from: indices 0, 1, 2, 3 hold
    0, 1, -1, 2. *)
Definition pool4 : list Z := [0; 1; -1; 2].

(** Modelled from the spec: [coeffID], the interning function of the
    coefficient pool (a method of [ConstraintSystem] defined outside the
    converter's file).  It returns an existing index if the value already
    appears in the pool, else appends the value and returns its index. *)
Fixpoint findCoeff (pool : list Z) (b : Z) (i : Z) : option Z :=
  match pool with
  | [] => None
  | c :: pool' => if c =? b then Some i else findCoeff pool' b (i + 1)
  end.

Definition coeffID (b : Z) : M Z :=
  fun s =>
    match findCoeff (coeffs s) b 0 with
    | Some i => Ok (i, s)
    | None => Ok (zlen (coeffs s), set_coeffs s (coeffs s ++ [b]))
    end.

(** *** findUnsolvedVariable *)

Definition isInternal (t : Term) : bool :=
  Visibility_eqb (VariableVisibility t) Internal.

(** One of the three scanning loops: [Ok (true, id)] when the loop breaks
    on an unsolved variable, [Ok (false, id)] when it runs to its end;
    [id] is assigned on every internal term met. *)
Fixpoint scanUnsolved (le : LinearExpression) (solved : list bool) (id : Z)
  : outcome (bool * Z) :=
  match le with
  | [] => Ok (false, id)
  | t :: le' =>
      if negb (isInternal t) then scanUnsolved le' solved id
      else
        let id' := VariableID t in
        obind (index solved id') (fun b =>
        if negb b then Ok (true, id') else scanUnsolved le' solved id')
  end.

Definition findUnsolvedVariable (r1c : R1C) (solved : list bool)
  : outcome (Z * Z) :=
  obind (scanUnsolved (R1C_L r1c) solved (-1)) (fun '(found, id) =>
  if found then Ok (0, id) else
  obind (scanUnsolved (R1C_R r1c) solved id) (fun '(found, id) =>
  if found then Ok (1, id) else
  obind (scanUnsolved (R1C_O r1c) solved id) (fun '(found, id) =>
  if found then Ok (2, id) else Ok (-1, id)))).

(** What the statements about [findUnsolvedVariable] are phrased with: a
    term is settled when it is not internal or its variable is marked
    solved; [lastInternalID] is the ID of the last internal term of a list. *)
Definition settled (solved : list bool) (t : Term) : Prop :=
  isInternal t = true -> zlookup solved (VariableID t) = Some true.

Definition pending (solved : list bool) (t : Term) : Prop :=
  isInternal t = true /\ zlookup solved (VariableID t) = Some false.

Definition lastInternalID (le : LinearExpression) (id : Z) : Z :=
  fold_left (fun acc t => if isInternal t then VariableID t else acc) le id.

(** 0 for L, 1 for R, 2 for O: the expression that holds the term at
    index [n] of [L ++ R ++ O]. *)
Definition positionOf (r1c : R1C) (n : nat) : Z :=
  if (n <? List.length (R1C_L r1c))%nat then 0
  else if (n <? List.length (R1C_L r1c) + List.length (R1C_R r1c))%nat then 1
  else 2.

(** *** popInternalVariable, popConstantTerm *)

Fixpoint popInternalVariable_loop (l : LinearExpression) (id : Z)
  (_l : list Term) (c : Z) (t : Term) : outcome (LinearExpression * Term) :=
  match l with
  | [] => Ok (_l, t)
  | v :: l' =>
      if isInternal v && (VariableID v =? id)
      then popInternalVariable_loop l' id _l c v
      else obind (store _l c v) (fun _l' =>
           popInternalVariable_loop l' id _l' (c + 1) t)
  end.

Definition popInternalVariable (l : LinearExpression) (id : Z)
  : outcome (LinearExpression * Term) :=
  if zlen l - 1 <? 0 then Panic NegativeLen
  else popInternalVariable_loop l id (repeat 0 (List.length l - 1)) 0 0.

Definition idOneWire : Z := 0.

Definition isOneWire (t : Term) : bool :=
  (VariableID t =? idOneWire) && Visibility_eqb (VariableVisibility t) Public.

Fixpoint popConstantTerm_loop (pool : list Z) (l : LinearExpression)
  : outcome (LinearExpression * Z) :=
  match l with
  | [] => Ok ([], 0)
  | t :: l' =>
      if isOneWire t
      then obind (index pool (CoeffID t)) (fun c => Ok (l', c))
      else obind (popConstantTerm_loop pool l') (fun '(r, c) => Ok (t :: r, c))
  end.

Definition popConstantTerm (l : LinearExpression) : M (LinearExpression * Z) :=
  fun s => obind (popConstantTerm_loop (coeffs s) l) (fun r => Ok (r, s)).

(** *** Terms of the output system *)

Definition getCorrespondingTerm (t : Term) : M Term :=
  if isInternal t then
    s <- get ;;
    v <- lift (index (mCStoCCS s) (VariableID t)) ;;
    lift (SetVariableID t v)
  else ret t.

Definition newTerm (coeff : Z) (idCS : option Z) : M Term :=
  cID <- coeffID coeff ;;
  s <- get ;;
  let vID := NbInternalVariables (ccs s) in
  res <- lift (Pack vID cID Internal) ;;
  put (set_ccs s (set_NbInternalVariables (ccs s) (vID + 1))) ;;;
  match idCS with
  | Some id =>
      s <- get ;;
      m <- lift (store (mCStoCCS s) id vID) ;;
      put (set_mCStoCCS s m) ;;;
      ret res
  | None => ret res
  end.

Definition addConstraint_fix (c : SparseR1C) : outcome SparseR1C :=
  obind (if isZero (L c)
         then obind (SetVariableID (L c) (VariableID (M0 c))) (fun t => Ok (withL c t))
         else Ok c) (fun c =>
  obind (if isZero (R c)
         then obind (SetVariableID (R c) (VariableID (M1 c))) (fun t => Ok (withR c t))
         else Ok c) (fun c =>
  obind (if isZero (M0 c)
         then obind (SetVariableID (M0 c) (VariableID (L c))) (fun t => Ok (withM0 c t))
         else Ok c) (fun c =>
  if isZero (M1 c)
  then obind (SetVariableID (M1 c) (VariableID (R c))) (fun t => Ok (withM1 c t))
  else Ok c))).

Definition addConstraint (c : SparseR1C) : M unit :=
  c' <- lift (addConstraint_fix c) ;;
  s <- get ;;
  put (set_ccs s (set_Constraints (ccs s) (Constraints (ccs s) ++ [c']))).

Definition recordAssertion (c : SparseR1C) : M unit :=
  s <- get ;;
  put (set_ccs s (set_Assertions (ccs s) (Assertions (ccs s) ++ [c]))).

Definition negate (t : Term) : M Term :=
  if isZero t then ret t
  else
    s <- get ;;
    c <- lift (index (coeffs s) (CoeffID t)) ;;
    cID <- coeffID (- c) ;;
    lift (SetCoeffID t cID).

Definition multiply (t : Term) (c : Z) : M Term :=
  let slow :=
    s <- get ;;
    x <- lift (index (coeffs s) (CoeffID t)) ;;
    cID <- coeffID (x * c) ;;
    lift (SetCoeffID t cID) in
  if c =? 0 then lift (SetCoeffID t CoeffIdZero)
  else if c =? 1 then ret t
  else if c =? -1 then
    if CoeffID t =? CoeffIdZero then ret t
    else if CoeffID t =? CoeffIdOne then lift (SetCoeffID t CoeffIdMinusOne)
    else if CoeffID t =? CoeffIdMinusOne then lift (SetCoeffID t CoeffIdOne)
    else slow
  else slow.

Fixpoint split (le : LinearExpression) (acc : Term) : M Term :=
  match le with
  | [] => ret acc
  | t0 :: le' =>
      if isZero acc then
        t <- getCorrespondingTerm t0 ;;
        split le' t
      else
        r <- getCorrespondingTerm t0 ;;
        o <- newTerm bOne None ;;
        addConstraint (withO (withR (withL gate0 acc) r) o) ;;;
        o <- negate o ;;
        split le' o
  end.

(** *** r1cToPlonkConstraintSingleOutput

    The sixteen closures [f1] .. [f16] of the source, with the variables
    they capture ([l], [r], [o], [cL], [cR], [cO], [cS], [idCS]) made
    explicit.  Calls inside a composite literal run in source order. *)

Section SingleOutputCases.

Variables (l r o : LinearExpression) (cL cR cO cS idCS : Z).

(* cL*cR = toSolve + cO *)
Definition f1 : M unit :=
  let cK := cL * cR - cO in
  k <- coeffID cK ;;
  ot <- newTerm (- cS) (Some idCS) ;;
  addConstraint (mkSparseR1C 0 0 ot 0 0 k SingleOutput).

(* cL*(r + cR) = toSolve + cO *)
Definition f2 : M unit :=
  rt <- split r 0 ;;
  cRT <- multiply rt cL ;;
  let cK := cL * cR - cO in
  k <- coeffID cK ;;
  ot <- newTerm (- cS) (Some idCS) ;;
  addConstraint (mkSparseR1C 0 cRT ot 0 0 k SingleOutput).

(* (l + cL)*cR = toSolve + cO *)
Definition f3 : M unit :=
  lt <- split l 0 ;;
  cRLT <- multiply lt cR ;;
  let cK := cL * cR - cO in
  ot <- newTerm (- cS) (Some idCS) ;;
  k <- coeffID cK ;;
  addConstraint (mkSparseR1C cRLT 0 ot 0 0 k SingleOutput).

(* (l + cL)*(r + cR) = toSolve + cO *)
Definition f4 : M unit :=
  lt <- split l 0 ;;
  rt <- split r 0 ;;
  cRLT <- multiply lt cR ;;
  cRT <- multiply rt cL ;;
  let cK := cL * cR - cO in
  k <- coeffID cK ;;
  ot <- newTerm (- cS) (Some idCS) ;;
  addConstraint (mkSparseR1C cRLT cRT ot lt rt k SingleOutput).

(* cL*cR = toSolve + o + cO *)
Definition f5 : M unit :=
  ot <- split o 0 ;;
  let cK := - (cL * cR - cO) in
  k <- coeffID cK ;;
  st <- newTerm (- cS) (Some idCS) ;;
  addConstraint (mkSparseR1C ot 0 st 0 0 k SingleOutput).

(* cL*(r + cR) = toSolve + o + cO *)
Definition f6 : M unit :=
  rt <- split r 0 ;;
  ot <- split o 0 ;;
  cRT <- multiply rt cL ;;
  let cK := - (cL * cR - cO) in
  not <- negate ot ;;
  k <- coeffID cK ;;
  st <- newTerm (- cS) (Some idCS) ;;
  addConstraint (mkSparseR1C not cRT st 0 0 k SingleOutput).

(* (l + cL)*cR = toSolve + o + cO *)
Definition f7 : M unit :=
  lt <- split l 0 ;;
  ot <- split o 0 ;;
  cRLT <- multiply lt cR ;;
  let cK := - (cL * cR - cO) in
  not <- negate ot ;;
  k <- coeffID cK ;;
  st <- newTerm (- cS) (Some idCS) ;;
  addConstraint (mkSparseR1C cRLT not st 0 0 k SingleOutput).

(* (l + cL)*(r + cR) = toSolve + o + cO *)
Definition f8 : M unit :=
  lt <- split l 0 ;;
  rt <- split r 0 ;;
  ot <- split o 0 ;;
  cRLT <- multiply lt cR ;;
  cRT <- multiply rt cL ;;
  let cK := - (cL * cR - cO) in
  u <- newTerm bOne None ;;
  k <- coeffID cK ;;
  addConstraint (mkSparseR1C cRLT cRT u lt rt k SingleOutput) ;;;
  st <- newTerm cS (Some idCS) ;;
  addConstraint (mkSparseR1C u ot st 0 0 0 SingleOutput).

(* (toSolve + cL)*cR = cO *)
Definition f9 : M unit :=
  let cK := cL * cR - cO in
  let cS' := cS * cR in
  st <- newTerm cS' (Some idCS) ;;
  k <- coeffID cK ;;
  addConstraint (mkSparseR1C st 0 0 0 0 k SingleOutput).

(* (toSolve + cL)*(r + cR) = cO *)
Definition f10 : M unit :=
  res <- newTerm cS (Some idCS) ;;
  rt <- split r 0 ;;
  cRT <- multiply rt cL ;;
  cRes <- multiply res cR ;;
  let cK := cL * cR - cO in
  k <- coeffID cK ;;
  addConstraint (mkSparseR1C cRes cRT 0 res rt k SingleOutput).

(* (toSolve + l + cL)*cR = cO *)
Definition f11 : M unit :=
  lt <- split l 0 ;;
  lt <- multiply lt cR ;;
  let cK := cL * cR - cO in
  let cS' := cS * cR in
  st <- newTerm cS' (Some idCS) ;;
  k <- coeffID cK ;;
  addConstraint (mkSparseR1C st lt 0 0 0 k SingleOutput).

(* (toSolve + l + cL)*(r + cR) = cO *)
Definition f12 : M unit :=
  u <- newTerm bOne None ;;
  lt <- split l 0 ;;
  rt <- split r 0 ;;
  cRLT <- multiply lt cR ;;
  cRT <- multiply rt cL ;;
  let cK := cL * cR - cO in
  k <- coeffID cK ;;
  addConstraint (mkSparseR1C cRLT cRT u lt rt k SingleOutput) ;;;
  res <- newTerm cS (Some idCS) ;;
  cRes <- multiply res cR ;;
  nu <- negate u ;;
  addConstraint (mkSparseR1C 0 cRes nu res rt 0 SingleOutput).

(* (toSolve + cL)*cR = o + cO *)
Definition f13 : M unit :=
  ot <- split o 0 ;;
  let cK := cL * cR - cO in
  let cS' := cS * cR in
  st <- newTerm cS' (Some idCS) ;;
  not <- negate ot ;;
  k <- coeffID cK ;;
  addConstraint (mkSparseR1C st 0 not 0 0 k SingleOutput).

(* (toSolve + cL)*(r + cR) = o + cO *)
Definition f14 : M unit :=
  ot <- split o 0 ;;
  res <- newTerm cS (Some idCS) ;;
  rt <- split r 0 ;;
  let cK := cL * cR - cO in
  lres <- multiply res cR ;;
  rrt <- multiply rt cL ;;
  not <- negate ot ;;
  k <- coeffID cK ;;
  addConstraint (mkSparseR1C lres rrt not res rt k SingleOutput).

(* (toSolve + l + cL)*cR = o + cO *)
Definition f15 : M unit :=
  ot <- split o 0 ;;
  lt <- split l 0 ;;
  let cK := cL * cR - cO in
  let cS' := cS * cR in
  st <- newTerm cS' (Some idCS) ;;
  rlt <- multiply lt cR ;;
  not <- negate ot ;;
  k <- coeffID cK ;;
  addConstraint (mkSparseR1C st rlt not 0 0 k SingleOutput).

(* (toSolve + l + cL)*(r + cR) = o + cO *)
Definition f16 : M unit :=
  u <- newTerm bOne None ;;
  lt <- split l 0 ;;
  rt <- split r 0 ;;
  cRLT <- multiply lt cR ;;
  cRT <- multiply rt cL ;;
  let cK := cL * cR - cO in
  k <- coeffID cK ;;
  addConstraint (mkSparseR1C cRLT cRT u lt rt k SingleOutput) ;;;
  v <- newTerm bOne None ;;
  ot <- split o 0 ;;
  addConstraint (mkSparseR1C u ot v 0 0 0 SingleOutput) ;;;
  res <- newTerm cS (Some idCS) ;;
  cRes <- multiply res cR ;;
  addConstraint (mkSparseR1C 0 cRes v res rt 0 SingleOutput).

(** The case index [s] of the source is kept as its four bits. *)
Definition dispatch (inO oNonEmpty lNonEmpty rNonEmpty : bool) : M unit :=
  match inO, oNonEmpty, lNonEmpty, rNonEmpty with
  | false, false, false, false => f9
  | false, false, false, true => f10
  | false, false, true, false => f11
  | false, false, true, true => f12
  | false, true, false, false => f13
  | false, true, false, true => f14
  | false, true, true, false => f15
  | false, true, true, true => f16
  | true, false, false, false => f1
  | true, false, false, true => f2
  | true, false, true, false => f3
  | true, false, true, true => f4
  | true, true, false, false => f5
  | true, true, false, true => f6
  | true, true, true, false => f7
  | true, true, true, true => f8
  end.

End SingleOutputCases.

Definition nonEmpty {A} (l : list A) : bool := negb (zlen l =? 0).

Definition r1cToPlonkConstraintSingleOutput (r1c : R1C) : M unit :=
  s0 <- get ;;
  '(lro, idCS) <- lift (findUnsolvedVariable r1c (solvedVariables s0)) ;;
  let o := R1C_O r1c in
  let l := R1C_L r1c in
  let r := R1C_R r1c in
  let '(l, r, lro) := if lro =? 1 then (r, l, 0) else (l, r, lro) in
  '(l, cL) <- popConstantTerm l ;;
  '(r, cR) <- popConstantTerm r ;;
  '(o, cO) <- popConstantTerm o ;;
  '(l, o, toSolve) <-
     lift (if lro =? 0
           then obind (popInternalVariable l idCS) (fun '(l', t) => Ok (l', o, t))
           else obind (popInternalVariable o idCS) (fun '(o', t) => Ok (l, o', t))) ;;
  s1 <- get ;;
  cS <- lift (index (coeffs s1) (CoeffID toSolve)) ;;
  dispatch l r o cL cR cO cS idCS
           (negb (lro =? 0)) (nonEmpty o) (nonEmpty l) (nonEmpty r) ;;;
  s2 <- get ;;
  sv <- lift (store (solvedVariables s2) idCS true) ;;
  put (set_solvedVariables s2 sv).

(** *** r1cToPlonkConstraintBinary *)

(** The inner loop over [k]: the first term of [binDec] whose coefficient
    equals [acc], together with [binDec] without it. *)
Fixpoint findBit (pool : list Z) (binDec : list Term) (acc : Z)
  : outcome (option (Term * list Term)) :=
  match binDec with
  | [] => Ok None
  | t :: rest =>
      obind (index pool (CoeffID t)) (fun coef =>
      if coef =? acc then Ok (Some (t, rest))
      else obind (findBit pool rest acc) (fun x =>
           match x with
           | Some (t', rest') => Ok (Some (t', t :: rest'))
           | None => Ok None
           end))
  end.

(** The loop over the bits, [n] iterations left; [q] is [accQi[i]].
    It returns what is left of [binDec]. *)
Fixpoint binaryLoop (n : nat) (binDec : list Term) (acc : Z) (q : Term)
  : M (list Term) :=
  match n with
  | 0%nat => ret binDec
  | S n' =>
      ri <- newTerm bOne None ;;
      qn <- newTerm bOne None ;;
      s <- get ;;
      found <- lift (findBit (coeffs s) binDec acc) ;;
      binDec' <-
        match found with
        | Some (t, rest) =>
            m <- lift (store (mCStoCCS s) (VariableID t) (VariableID ri)) ;;
            put (set_mCStoCCS s m) ;;;
            s <- get ;;
            sv <- lift (store (solvedVariables s) (VariableID t) true) ;;
            put (set_solvedVariables s sv) ;;;
            ret rest
        | None => ret binDec
        end ;;
      lq <- multiply qn 2 ;;
      oq <- negate q ;;
      addConstraint (mkSparseR1C lq ri oq 0 0 0 BinaryDec) ;;;
      binaryLoop n' binDec' (acc * 2) qn
  end.

(** The reduction of [r1c.O] that precedes the loop; it returns [ot]. *)
Definition binaryReduceO (r1c : R1C) : M Term :=
  '(o, cO) <- popConstantTerm (R1C_O r1c) ;;
  cOID <- coeffID cO ;;
  if zlen o =? 0 then
    ot <- newTerm bOne None ;;
    lt <- negate ot ;;
    addConstraint (mkSparseR1C lt 0 0 0 0 cOID SingleOutput) ;;;
    ret ot
  else
    ot <- split o 0 ;;
    if negb (cOID =? 0) then
      _ot <- newTerm bOne None ;;
      no <- negate _ot ;;
      addConstraint (mkSparseR1C ot 0 no 0 0 cOID SingleOutput) ;;;
      ret _ot
    else ret ot.

Definition r1cToPlonkConstraintBinary (r1c : R1C) : M unit :=
  let binDec := R1C_L r1c in
  ot <- binaryReduceO r1c ;;
  let nbBits := List.length binDec in
  _ <- binaryLoop nbBits binDec 1 ot ;;
  ret tt.

Definition r1cToSparseR1C (r1c : R1C) : M unit :=
  match R1C_Solver r1c with
  | SingleOutput => r1cToPlonkConstraintSingleOutput r1c
  | BinaryDec => r1cToPlonkConstraintBinary r1c
  end.

(** *** splitR1C *)

Definition splitR1C (r1c : R1C) : M unit :=
  '(l, cL) <- popConstantTerm (R1C_L r1c) ;;
  '(r, cR) <- popConstantTerm (R1C_R r1c) ;;
  '(o, cO) <- popConstantTerm (R1C_O r1c) ;;
  let cK := cL * cR - cO in
  if zlen o =? 0 then
    if zlen l =? 0 then
      if zlen r =? 0 then
        (* cL*cR = cO *)
        k <- coeffID cK ;;
        recordAssertion (mkSparseR1C 0 0 0 0 0 k SingleOutput)
      else
        (* cL*(r + cR) = cO *)
        rt <- split r 0 ;;
        cosntlrt <- multiply rt cL ;;
        k <- coeffID cK ;;
        recordAssertion (mkSparseR1C 0 cosntlrt 0 0 0 k SingleOutput)
    else
      if zlen r =? 0 then
        (* (l + cL)*cR = cO *)
        lt <- split l 0 ;;
        cRLT <- multiply lt cR ;;
        k <- coeffID cK ;;
        recordAssertion (mkSparseR1C cRLT 0 0 0 0 k SingleOutput)
      else
        (* (l + cL)*(r + cR) = cO *)
        lt <- split l 0 ;;
        rt <- split r 0 ;;
        cRLT <- multiply lt cR ;;
        cRT <- multiply rt cL ;;
        k <- coeffID cK ;;
        recordAssertion (mkSparseR1C cRLT cRT 0 lt rt k SingleOutput)
  else
    if zlen l =? 0 then
      if zlen r =? 0 then
        (* cL*cR = o + cO *)
        ot <- split o 0 ;;
        k <- coeffID cK ;;
        not <- negate ot ;;
        recordAssertion (mkSparseR1C 0 0 not 0 0 k SingleOutput)
      else
        (* cL * (r + cR) = o + cO *)
        rt <- split r 0 ;;
        ot <- split o 0 ;;
        cRT <- multiply rt cL ;;
        k <- coeffID cK ;;
        not <- negate ot ;;
        recordAssertion (mkSparseR1C 0 cRT not 0 0 k SingleOutput)
    else
      if zlen r =? 0 then
        (* (l + cL) * cR = o + cO *)
        lt <- split l 0 ;;
        ot <- split o 0 ;;
        cRLT <- multiply lt cR ;;
        k <- coeffID cK ;;
        not <- negate ot ;;
        recordAssertion (mkSparseR1C cRLT 0 not 0 0 k SingleOutput)
      else
        (* (l + cL)*(r + cR) = o + cO *)
        lt <- split l 0 ;;
        rt <- split r 0 ;;
        ot <- split o 0 ;;
        cRT <- multiply rt cL ;;
        cRLT <- multiply lt cR ;;
        k <- coeffID cK ;;
        not <- negate ot ;;
        addConstraint (mkSparseR1C cRLT cRT not lt rt k SingleOutput).

(** *** toSparseR1CS *)

Fixpoint forEach {A} (f : A -> M unit) (l : list A) : M unit :=
  match l with
  | [] => ret tt
  | a :: l' => f a ;;; forEach f l'
  end.

Fixpoint mapOutcome {A B} (f : A -> outcome B) (l : list A) : outcome (list B) :=
  match l with
  | [] => Ok []
  | a :: l' => obind (f a) (fun b => obind (mapOutcome f l') (fun r => Ok (b :: r)))
  end.

Section Offsets.

Variables (nbPublic nbSecret : Z) (mapCStoCCS : list Z).

Definition offsetIDTerm (t : Term) : outcome Term :=
  if negb (isZero t) then
    let '(_, vID, visibility) := Unpack t in
    match visibility with
    | Public => SetVariableID t (vID - 1)
    | Secret => SetVariableID t (vID + nbPublic)
    | Internal => SetVariableID t (vID + nbPublic + nbSecret)
    | Unset => Err ErrInputNotSet
    end
  else Ok t.

Definition offsetIDs (exp : SparseR1C) : outcome SparseR1C :=
  (* ensure that L=M[0] and R=M[1] (up to scalar mul) *)
  obind (if CoeffID (L exp) =? 0 then
           if negb (isZero (M0 exp))
           then obind (SetCoeffID (M0 exp) 0) (fun t => Ok (withL exp t))
           else Ok exp
         else
           if CoeffID (M0 exp) =? 0
           then obind (SetCoeffID (L exp) 0) (fun t => Ok (withM0 exp t))
           else Ok exp) (fun exp =>
  obind (if CoeffID (R exp) =? 0 then
           if negb (isZero (M1 exp))
           then obind (SetCoeffID (M1 exp) 0) (fun t => Ok (withR exp t))
           else Ok exp
         else
           if CoeffID (M1 exp) =? 0
           then obind (SetCoeffID (R exp) 0) (fun t => Ok (withM1 exp t))
           else Ok exp) (fun exp =>
  (* offset each term in the constraint *)
  obind (offsetIDTerm (L exp)) (fun t => let exp := withL exp t in
  obind (offsetIDTerm (R exp)) (fun t => let exp := withR exp t in
  obind (offsetIDTerm (O exp)) (fun t => let exp := withO exp t in
  obind (offsetIDTerm (M0 exp)) (fun t => let exp := withM0 exp t in
  obind (offsetIDTerm (M1 exp)) (fun t => Ok (withM1 exp t)))))))).

(** One iteration of the inner loop over [cs.logs[i].toResolve]. *)
Definition offsetLogTerm (t : Term) : outcome Z :=
  let '(_, cID, cVisibility) := Unpack t in
  match cVisibility with
  | Public => Ok (0 + (cID - 1))
  | Secret => Ok (0 + (cID + nbPublic))
  | Internal =>
      obind (index mapCStoCCS cID) (fun v => Ok (v + nbSecret + nbPublic))
  | Unset => Panic UnsetVisibilityInLogs
  end.

Definition offsetLog (e : logEntry) : outcome LogEntry :=
  obind (mapOutcome offsetLogTerm (toResolve e)) (fun r =>
  Ok (mkLogEntry (format e) r)).

End Offsets.

Definition newSparseR1CS (cs : ConstraintSystem) : sparseR1CS :=
  mkSparse (cs_coeffs cs)
    (mkSparseR1CS 0
       (Z.of_nat (public_variables cs) - 1)
       (Z.of_nat (secret_variables cs))
       [] []
       (repeat (mkLogEntry EmptyString []) (List.length (logs cs))))
    (repeat 0 (internal_variables cs))
    (repeat false (internal_variables cs)).

(** The two conversion loops of [toSparseR1CS]: the value of [res] before
    the IDs are offset. *)
Definition lowerAll (cs : ConstraintSystem) : outcome sparseR1CS :=
  match (forEach r1cToSparseR1C (constraints cs) ;;;
         forEach splitR1C (assertions cs)) (newSparseR1CS cs) with
  | Ok (_, res) => Ok res
  | Panic p => Panic p
  | Err e => Err e
  end.

(** The three offset loops of [toSparseR1CS], over the constraints, the
    assertions and the logs. *)
Definition renumber (cs : ConstraintSystem) (res : sparseR1CS)
  : outcome sparseR1CS :=
  let nbPub := NbPublicVariables (ccs res) in
  let nbSec := NbSecretVariables (ccs res) in
  obind (mapOutcome (offsetIDs nbPub nbSec) (Constraints (ccs res))) (fun cs' =>
  obind (mapOutcome (offsetIDs nbPub nbSec) (Assertions (ccs res))) (fun as' =>
  obind (mapOutcome (offsetLog nbPub nbSec (mCStoCCS res)) (logs cs)) (fun ls' =>
  Ok (set_ccs res
        (set_Logs (set_Assertions (set_Constraints (ccs res) cs') as') ls'))))).

(** The body of [toSparseR1CS] up to the curve switch: the value of [res]
    when the switch is reached. *)
Definition convert (cs : ConstraintSystem) : outcome sparseR1CS :=
  obind (lowerAll cs) (renumber cs).

Inductive curveID : Type :=
| BN254 | BLS12_377 | BLS12_381 | BW6_761 | BLS24_315 | BW6_633
| UNKNOWN | otherCurve.

(** What the curve switch hands to the backend constructor: the compiled
    system and the coefficient pool. *)
Definition toSparseR1CS (cs : ConstraintSystem) (curve : curveID)
  : outcome (SparseR1CS * list Z) :=
  obind (convert cs) (fun res =>
  match curve with
  | otherCurve => Panic NotImplemented
  | _ => Ok (ccs res, coeffs res)
  end).

(** ** Meaning of constraints *)

Record assignment : Type := mkAssignment {
  aPublic : list Z;     (* index 0 is the ONE_WIRE *)
  aSecret : list Z;
  aInternal : list Z }.

Definition zget (l : list Z) (i : Z) : Z :=
  match zlookup l i with
  | Some v => v
  | None => 0
  end.

Definition inputValue (a : assignment) (t : Term) : Z :=
  match VariableVisibility t with
  | Public => zget (aPublic a) (VariableID t)
  | Secret => zget (aSecret a) (VariableID t)
  | Internal => zget (aInternal a) (VariableID t)
  | Unset => 0
  end.

Definition evalLinExp (pool : list Z) (a : assignment) (le : LinearExpression) : Z :=
  fold_right (fun t acc => zget pool (CoeffID t) * inputValue a t + acc) 0 le.

(** [<L,w> * <R,w> = <O,w>], up to the modulus [q] of the scalar field. *)
Definition r1cHolds (q : Z) (pool : list Z) (a : assignment) (c : R1C) : Prop :=
  (evalLinExp pool a (R1C_L c) * evalLinExp pool a (R1C_R c)
   - evalLinExp pool a (R1C_O c)) mod q = 0.

Definition satisfiesInput (q : Z) (cs : ConstraintSystem) (a : assignment) : Prop :=
  zget (aPublic a) 0 = 1 /\
  Forall (r1cHolds q (cs_coeffs cs) a) (constraints cs) /\
  Forall (r1cHolds q (cs_coeffs cs) a) (assertions cs).

(** [qL.a + qR.b + qM.a.b + qO.c + qK] on the wire vector [x]. *)
Definition gateValue (pool : list Z) (x : list Z) (g : SparseR1C) : Z :=
  zget pool (CoeffID (L g)) * zget x (VariableID (L g))
  + zget pool (CoeffID (R g)) * zget x (VariableID (R g))
  + zget pool (CoeffID (M0 g)) * zget pool (CoeffID (M1 g))
    * zget x (VariableID (M0 g)) * zget x (VariableID (M1 g))
  + zget pool (CoeffID (O g)) * zget x (VariableID (O g))
  + zget pool (K g).

Definition gateHolds (q : Z) (pool : list Z) (x : list Z) (g : SparseR1C) : Prop :=
  gateValue pool x g mod q = 0.

(** The wire vector [x] of the output system, laid out as
    [public | secret | internal], carries the input assignment [a]: the
    public inputs without the ONE_WIRE, the secret inputs, and every
    original internal variable at the wire [mCStoCCS] gives it.  The other
    internal wires of [x] are the freshly allocated ones. *)
Definition extends (res : sparseR1CS) (a : assignment) (x : list Z) : Prop :=
  let nbPub := NbPublicVariables (ccs res) in
  let nbSec := NbSecretVariables (ccs res) in
  (forall i, 0 <= i < nbPub -> zget x i = zget (aPublic a) (i + 1)) /\
  (forall i, 0 <= i < nbSec -> zget x (nbPub + i) = zget (aSecret a) i) /\
  (forall i, 0 <= i < zlen (mCStoCCS res) ->
     zget x (nbPub + nbSec + zget (mCStoCCS res) i) = zget (aInternal a) i).

(** ** Meaning of terms and gates before the renumbering

    While the conversion runs, a term names a public or secret input by its
    index in the input system and an internal wire by its index among the
    internal variables of the output.  [wire] reads a term on an
    assignment [a] of the inputs and a vector [xi] of the internal wires,
    [preGateValue] is [qL.a + qR.b + qM.a.b + qO.c + qK] read that way, and
    [cong q] is equality modulo [q].  The pool only grows ([poolExt]), so
    statements are made for every later pool; [reserved] says that the
    first three coefficients are 0, 1 and -1, which the shortcuts of
    [multiply] rely on.  A wire vector [carries] a term of the input system
    when, if the term is internal and mapped, the wire it is mapped to has
    the value of the variable. *)

Definition poolExt (p p' : list Z) : Prop := exists e, p' = p ++ e.

Definition reserved (p : list Z) : Prop :=
  zlookup p 0 = Some 0 /\ zlookup p 1 = Some 1 /\ zlookup p 2 = Some (-1).

Definition coeffOf (P : list Z) (t : Term) : Z := zget P (CoeffID t).

Definition wire (a : assignment) (xi : list Z) (t : Term) : Z :=
  match VariableVisibility t with
  | Public => zget (aPublic a) (VariableID t)
  | Secret => zget (aSecret a) (VariableID t)
  | Internal => zget xi (VariableID t)
  | Unset => 0
  end.

Definition termValue (P : list Z) (a : assignment) (xi : list Z) (t : Term) : Z :=
  coeffOf P t * wire a xi t.

Definition preGateValue (P : list Z) (a : assignment) (xi : list Z)
  (g : SparseR1C) : Z :=
  termValue P a xi (L g) + termValue P a xi (R g)
  + coeffOf P (M0 g) * coeffOf P (M1 g) * wire a xi (M0 g) * wire a xi (M1 g)
  + termValue P a xi (O g) + zget P (K g).

Definition cong (q a b : Z) : Prop := (q | a - b).

Definition carries (m : list Z) (a : assignment) (xi : list Z) (t : Term) : Prop :=
  isInternal t = true ->
  forall v, zlookup m (VariableID t) = Some v ->
            zget xi v = zget (aInternal a) (VariableID t).

Definition gatesHold (q : Z) (P : list Z) (a : assignment) (xi : list Z)
  (gs : list SparseR1C) : Prop :=
  Forall (fun g => cong q (preGateValue P a xi g) 0) gs.

(** ** Vocabulary for statements about emitted gates

    [unchanged s s']: the two gate lists are the same in [s] and [s'];
    [appended s s' nc na]: [s'] has the gates [nc] appended to Constraints
    and [na] appended to Assertions; a computation is [quiet] when it
    appends nothing, and [emits PC PA] when whatever it appends to
    Constraints satisfies [PC] and whatever it appends to Assertions
    satisfies [PA]. *)

Definition unchanged (s s' : sparseR1CS) : Prop :=
  Constraints (ccs s') = Constraints (ccs s) /\
  Assertions (ccs s') = Assertions (ccs s).

Definition quiet {A} (m : M A) : Prop :=
  forall s a s', m s = Ok (a, s') -> unchanged s s'.

Definition appended (s s' : sparseR1CS) (nc na : list SparseR1C) : Prop :=
  Constraints (ccs s') = Constraints (ccs s) ++ nc /\
  Assertions (ccs s') = Assertions (ccs s) ++ na.

Definition emits {A} (PC PA : SparseR1C -> Prop) (m : M A) : Prop :=
  forall s a s', m s = Ok (a, s') ->
    exists nc na, appended s s' nc na /\ Forall PC nc /\ Forall PA na.

Definition tagged (m : SolvingMethod) (g : SparseR1C) : Prop := Solver g = m.
Definition never (g : SparseR1C) : Prop := False.

(** ** Vocabulary for statements about completion

    [step k j s s']: from [s] to [s'] the pool was extended by at most [k]
    coefficients, at most [j] internal variables were allocated, and the
    map [mCStoCCS] and the solved bitset are the same.  A term is
    [validCoeff] in a state when its coefficient ID is in the pool, and
    [mapped] when, if internal, [mCStoCCS] maps it to an ID that fits the
    layout.  [bitOk] is what the bits loop needs of a term of L, and
    [wfBinary] what [r1cToPlonkConstraintBinary] needs of its input: valid
    coefficient IDs, variables within the tables, and counters within the
    capacity of the term layout.  Nothing is asked of the coefficient
    values of L. *)

Definition NbInt (s : sparseR1CS) : Z := NbInternalVariables (ccs s).

Definition step (k j : Z) (s s' : sparseR1CS) : Prop :=
  (exists e, coeffs s' = coeffs s ++ e /\ zlen e <= k) /\
  NbInt s <= NbInt s' <= NbInt s + j /\
  mCStoCCS s' = mCStoCCS s /\ solvedVariables s' = solvedVariables s.

Definition validCoeff (s : sparseR1CS) (t : Term) : Prop :=
  CoeffID t < zlen (coeffs s).

Definition mapped (s : sparseR1CS) (t : Term) : Prop :=
  isInternal t = true ->
  exists v, zlookup (mCStoCCS s) (VariableID t) = Some v /\ 0 <= v < 2 ^ 29.





(** ** Vocabulary for statements about a constraint with nothing to solve *)

(** A call surfaces no error value: it returns normally or panics. *)
Definition noError {A} (x : outcome A) : Prop := forall e, x <> Err e.
Definition noErr {A} (m : M A) : Prop := forall s, noError (m s).

(** What the statements about [popInternalVariable] are phrased with: the
    test of its loop, the terms the loop copies, and the last term it
    skips. *)
Definition matchesVar (id : Z) (v : Term) : bool :=
  isInternal v && (VariableID v =? id).

Definition keptTerms (id : Z) (l : LinearExpression) : LinearExpression :=
  filter (fun v => negb (matchesVar id v)) l.

Definition lastMatch (id : Z) (l : LinearExpression) (t : Term) : Term :=
  fold_left (fun acc v => if matchesVar id v then v else acc) l t.

(** [relowered id s s']: from [s] to [s'] the entry of [mCStoCCS] for the
    variable [id] was given an internal variable allocated in between, and
    the solved bitset is the same.  [wfSingle] is what
    [r1cToPlonkConstraintSingleOutput] needs of its input to run to its
    end: valid coefficient IDs, internal variables within the map, the
    three reserved coefficients, and counters within the capacity of the
    term layout. *)
Definition relowered (id : Z) (s s' : sparseR1CS) : Prop :=
  solvedVariables s' = solvedVariables s /\
  exists v, zlookup (mCStoCCS s') id = Some v /\ NbInt s <= v < NbInt s'.

Definition wfSingle (s : sparseR1CS) (r1c : R1C) : Prop :=
  let all := R1C_L r1c ++ R1C_R r1c ++ R1C_O r1c in
  Forall (validCoeff s) all /\ Forall (mapped s) all /\
  3 <= zlen (coeffs s) /\
  zlen (coeffs s) + 2 * zlen all + 5 <= 2 ^ 30 /\
  0 <= NbInt s /\ NbInt s + zlen all + 2 <= 2 ^ 29.

(** The constraint [(1) * (1) = (t0)], and a system that holds it twice:
    when the second copy is lowered, [t0] is already solved. *)
Definition r1cSolved : R1C :=
  mkR1C [mkTerm 0 1 Public] [mkTerm 0 1 Public] [mkTerm 0 1 Internal] SingleOutput.
Definition csTwice : ConstraintSystem :=
  mkConstraintSystem 1 0 1 [r1cSolved; r1cSolved] [] pool4 [].

(** ** Package [witness] (bw6-672): binary serialization *)

Module witness.

Inductive ioerror : Type :=
| EOF
| ErrUnexpectedEOF
| ErrShortWrite
| errorsNew (msg : string).

(** [binary.BigEndian]: the [n] low-order bytes of [v], most significant
    first, and the value of a byte string read the same way. *)
Fixpoint bigEndianPut (n : nat) (v : Z) : list byte :=
  match n with
  | 0%nat => []
  | S n' => byte.of_Z (Z.shiftr v (8 * Z.of_nat n')) :: bigEndianPut n' v
  end.

Definition bigEndianValue (bs : list byte) : Z :=
  fold_left (fun acc b => Z.lor (Z.shiftl acc 8) (byte.unsigned b)) bs 0.

(** An [io.Writer] that accepts [room] more bytes and then reports a short
    write; [sink] is what it has accepted so far. *)
Record writer : Type := mkWriter {
  sink : list byte;
  room : nat }.

Definition Write (w : writer) (p : list byte) : writer * (Z * option ioerror) :=
  if (List.length p <=? room w)%nat
  then (mkWriter (sink w ++ p) (room w - List.length p), (zlen p, None))
  else (mkWriter (sink w ++ firstn (room w) p) 0,
        (Z.of_nat (room w), Some ErrShortWrite)).

(** An [io.Reader] over the bytes still to be read. *)
Definition reader : Type := list byte.

(** [io.ReadFull(r, buf[:n])]: the bytes read, what is left of the reader,
    and the error when fewer than [n] bytes were there. *)
Definition ReadFull (r : reader) (n : nat)
  : list byte * reader * option ioerror :=
  if (n <=? List.length r)%nat then (firstn n r, skipn n r, None)
  else (r, [], Some (match r with [] => EOF | _ => ErrUnexpectedEOF end)).

Section Field.

(** [fr.Limbs] and the modulus of [fr]; an [fr.Element] is modelled by its
    canonical value in [0, q). *)
Variables (Limbs : nat) (q : Z).

Definition Element : Type := Z.
Definition Witness : Type := list Element.

Definition frBytes : nat := (Limbs * 8)%nat.

(** Modelled from the spec: the curve's canonical encoding of a field
    element, done by the encoder and decoder of the curve package, an
    external collaborator: [fr.Limbs * 8] bytes, big-endian; decoding
    reduces modulo [q]. *)
Definition elementBytes (e : Element) : list byte := bigEndianPut frBytes e.

Definition elementSetBytes (bs : list byte) : Element := bigEndianValue bs mod q.

(** An element is canonical when it is reduced modulo [q]; the encoding of
    a witness is the concatenation of the encodings of its elements. *)
Definition canonical (e : Element) : Prop := 0 <= e < q.

Definition encoding (w : Witness) : list byte := flat_map elementBytes w.

(** The loop of [WriteTo]; [n] is [enc.BytesWritten()]. *)
Fixpoint encodeAll (w : writer) (n : Z) (els : list Element)
  : writer * (Z * option ioerror) :=
  match els with
  | [] => (w, (n + 4, None))
  | e :: els' =>
      let '(w', (written, err)) := Write w (elementBytes e) in
      match err with
      | Some er => (w', (n + written + 4, Some er))
      | None => encodeAll w' (n + written) els'
      end
  end.

Definition WriteTo (wit : Witness) (w : writer) : writer * (Z * option ioerror) :=
  let '(w1, (_, err)) := Write w (bigEndianPut 4 (zlen wit mod 2 ^ 32)) in
  match err with
  | Some er => (w1, (0, Some er))
  | None => encodeAll w1 0 wit
  end.

(** The loop of [LimitReadFrom] from index [i] on: [lim] is what the
    [io.LimitReader] still allows, [n] is [dec.BytesRead()], [done] the
    elements decoded so far and [old] the slots not yet overwritten. *)
Fixpoint decodeAll (r : reader) (lim : Z) (n : Z) (done old : list Element)
  : Witness * reader * (Z * option ioerror) :=
  match old with
  | [] => (done, r, (n + 4, None))
  | e :: old' =>
      let allowed := firstn (Z.to_nat lim) r in
      let '(buf, _, err) := ReadFull allowed frBytes in
      let r' := skipn (List.length buf) r in
      let n' := n + zlen buf in
      match err with
      | Some er => (done ++ e :: old', r', (n' + 4, Some er))
      | None =>
          decodeAll r' (lim - zlen buf) n' (done ++ [elementSetBytes buf]) old'
      end
  end.

Definition LimitReadFrom (wit : Witness) (r : reader) (expectedSize : Z)
  : Witness * reader * (Z * option ioerror) :=
  let '(buf, r1, err) := ReadFull r 4 in
  match err with
  | Some er => (wit, r1, (zlen buf, Some er))
  | None =>
      let sliceLen := bigEndianValue buf in
      if negb (sliceLen =? expectedSize)
      then (wit, r1, (4, Some (errorsNew "invalid witness size")))
      else
        let wit1 := if negb (zlen wit =? sliceLen)
                    then repeat 0 (Z.to_nat sliceLen) else wit in
        decodeAll r1 (expectedSize * Z.of_nat Limbs * 8) 0 [] wit1
  end.

End Field.

End witness.

(** * Properties *)

#[global] Arguments CoeffID : simpl never.
#[global] Arguments VariableID : simpl never.
#[global] Arguments VariableVisibility : simpl never.
#[global] Arguments SetCoeffID : simpl never.
#[global] Arguments SetVariableID : simpl never.
#[global] Arguments SetVariableVisibility : simpl never.
#[global] Arguments Pack : simpl never.
#[global] Arguments isZero : simpl never.
#[global] Arguments isInternal : simpl never.
#[global] Arguments isOneWire : simpl never.

(** ** The term codec *)

Lemma maskVariableID_ones : maskVariableID = Z.ones 29.
Proof. reflexivity. Qed.

Lemma maskCoeffID_ones : maskCoeffID = Z.shiftl (Z.ones 30) 29.
Proof. reflexivity. Qed.

Lemma maskVariableVisibility_ones :
  maskVariableVisibility = Z.shiftl (Z.ones 2) 62.
Proof. reflexivity. Qed.

Lemma VariableID_mod t : VariableID t = t mod 2 ^ 29.
Proof.
  unfold VariableID, shiftVariableID.
  rewrite Z.shiftr_0_r, maskVariableID_ones.
  apply Z.land_ones. lia.
Qed.

Lemma CoeffID_mod t : CoeffID t = (t / 2 ^ 29) mod 2 ^ 30.
Proof.
  unfold CoeffID, shiftCoeffID, nbBitsVariableID. rewrite maskCoeffID_ones.
  rewrite <- Z.land_ones by lia. rewrite <- Z.shiftr_div_pow2 by lia.
  Z.bitblast.
Qed.

Lemma visBits_eq t :
  Z.shiftr (Z.land t maskVariableVisibility) shiftVariableVisibility = visBits t.
Proof.
  unfold visBits. rewrite maskVariableVisibility_ones.
  change shiftVariableVisibility with 62.
  rewrite <- Z.land_ones by lia. rewrite <- Z.shiftr_div_pow2 by lia.
  Z.bitblast.
Qed.

Lemma VariableVisibility_visBits t u :
  visBits t = visBits u -> VariableVisibility t = VariableVisibility u.
Proof. intros H. unfold VariableVisibility. rewrite !visBits_eq, H. reflexivity. Qed.

Lemma VariableID_range t : 0 <= VariableID t < 2 ^ 29.
Proof. rewrite VariableID_mod. apply Z.mod_pos_bound. lia. Qed.

Lemma CoeffID_range t : 0 <= CoeffID t < 2 ^ 30.
Proof. rewrite CoeffID_mod. apply Z.mod_pos_bound. lia. Qed.

Lemma fitsVariableID_iff v : fitsVariableID v = true <-> 0 <= v < 2 ^ 29.
Proof.
  unfold fitsVariableID. change (Z.shiftl 1 nbBitsVariableID) with (2 ^ 29).
  rewrite andb_true_iff, Z.leb_le, Z.ltb_lt. tauto.
Qed.

Lemma fitsCoeffID_iff c : fitsCoeffID c = true <-> 0 <= c < 2 ^ 30.
Proof.
  unfold fitsCoeffID. change (Z.shiftl 1 nbBitsCoeffID) with (2 ^ 30).
  rewrite andb_true_iff, Z.leb_le, Z.ltb_lt. tauto.
Qed.

Lemma fitsVariableID_VariableID t : fitsVariableID (VariableID t) = true.
Proof. apply fitsVariableID_iff, VariableID_range. Qed.

Lemma setVar_VariableID t v :
  0 <= v < 2 ^ 29 ->
  VariableID (Z.lor (Z.ldiff t maskVariableID) (Z.shiftl v shiftVariableID)) = v.
Proof.
  intros Hv. rewrite VariableID_mod. unfold shiftVariableID.
  rewrite Z.shiftl_0_r, maskVariableID_ones.
  rewrite <- (Z.mod_small v (2 ^ 29)) at 2 by lia.
  Z.bitblast.
Qed.

Lemma setVar_CoeffID t v :
  0 <= v < 2 ^ 29 ->
  CoeffID (Z.lor (Z.ldiff t maskVariableID) (Z.shiftl v shiftVariableID)) = CoeffID t.
Proof.
  intros Hv. rewrite !CoeffID_mod. unfold shiftVariableID.
  rewrite Z.shiftl_0_r, maskVariableID_ones.
  rewrite <- (Z.mod_small v (2 ^ 29)) by lia.
  Z.bitblast.
Qed.

Lemma setVar_visBits t v :
  0 <= v < 2 ^ 29 ->
  visBits (Z.lor (Z.ldiff t maskVariableID) (Z.shiftl v shiftVariableID)) = visBits t.
Proof.
  intros Hv. unfold visBits, shiftVariableID.
  rewrite Z.shiftl_0_r, maskVariableID_ones.
  rewrite <- (Z.mod_small v (2 ^ 29)) by lia.
  Z.bitblast.
Qed.

Lemma setCoeff_CoeffID t c :
  0 <= c < 2 ^ 30 ->
  CoeffID (Z.lor (Z.ldiff t maskCoeffID) (Z.shiftl c shiftCoeffID)) = c.
Proof.
  intros Hv. rewrite CoeffID_mod. change shiftCoeffID with 29.
  rewrite maskCoeffID_ones.
  rewrite <- (Z.mod_small c (2 ^ 30)) at 2 by lia.
  Z.bitblast.
Qed.

Lemma setCoeff_VariableID t c :
  0 <= c < 2 ^ 30 ->
  VariableID (Z.lor (Z.ldiff t maskCoeffID) (Z.shiftl c shiftCoeffID)) = VariableID t.
Proof.
  intros Hv. rewrite !VariableID_mod. change shiftCoeffID with 29.
  rewrite maskCoeffID_ones.
  Z.bitblast. rewrite (Z.testbit_neg_r c l) by lia. simpl. btauto.
Qed.

Lemma setCoeff_visBits t c :
  0 <= c < 2 ^ 30 ->
  visBits (Z.lor (Z.ldiff t maskCoeffID) (Z.shiftl c shiftCoeffID)) = visBits t.
Proof.
  intros Hv. unfold visBits. change shiftCoeffID with 29.
  rewrite maskCoeffID_ones.
  rewrite <- (Z.mod_small c (2 ^ 30)) by lia.
  Z.bitblast.
Qed.

(** What a successful setter leaves in the three fields. *)
Lemma SetVariableID_Ok t v t' :
  SetVariableID t v = Ok t' ->
  VariableID t' = v /\ CoeffID t' = CoeffID t /\
  VariableVisibility t' = VariableVisibility t.
Proof.
  unfold SetVariableID. destruct (fitsVariableID v) eqn:E; [|discriminate].
  apply fitsVariableID_iff in E. intros H. injection H as <-.
  split; [|split].
  - now apply setVar_VariableID.
  - now apply setVar_CoeffID.
  - apply VariableVisibility_visBits. now apply setVar_visBits.
Qed.

Lemma SetCoeffID_Ok t c t' :
  SetCoeffID t c = Ok t' ->
  CoeffID t' = c /\ VariableID t' = VariableID t /\
  VariableVisibility t' = VariableVisibility t.
Proof.
  unfold SetCoeffID. destruct (fitsCoeffID c) eqn:E; [|discriminate].
  apply fitsCoeffID_iff in E. intros H. injection H as <-.
  split; [|split].
  - now apply setCoeff_CoeffID.
  - now apply setCoeff_VariableID.
  - apply VariableVisibility_visBits. now apply setCoeff_visBits.
Qed.

Lemma SetVariableID_fits t v :
  0 <= v < 2 ^ 29 -> exists t', SetVariableID t v = Ok t'.
Proof.
  intros H. unfold SetVariableID.
  rewrite (proj2 (fitsVariableID_iff v) H). eauto.
Qed.

Lemma SetCoeffID_fits t c :
  0 <= c < 2 ^ 30 -> exists t', SetCoeffID t c = Ok t'.
Proof.
  intros H. unfold SetCoeffID.
  rewrite (proj2 (fitsCoeffID_iff c) H). eauto.
Qed.

Lemma isZero_true t : isZero t = true <-> t = 0.
Proof. unfold isZero. apply Z.eqb_eq. Qed.

Lemma isZero_false t : isZero t = false <-> t <> 0.
Proof. unfold isZero. apply Z.eqb_neq. Qed.

(** ** findUnsolvedVariable *)

Lemma lastInternalID_app l1 l2 id :
  lastInternalID (l1 ++ l2) id = lastInternalID l2 (lastInternalID l1 id).
Proof. unfold lastInternalID. apply fold_left_app. Qed.

(** A loop over settled terms runs to its end and leaves in [id] the last
    internal ID it met. *)
Lemma scanUnsolved_settled solved le :
  Forall (settled solved) le ->
  forall id, scanUnsolved le solved id = Ok (false, lastInternalID le id).
Proof.
  induction 1 as [|t le Ht _ IH]; intros id.
  - reflexivity.
  - cbn [scanUnsolved]. unfold lastInternalID. cbn [fold_left].
    unfold settled in Ht. destruct (isInternal t) eqn:Ei; cbn [negb].
    + unfold index. rewrite (Ht eq_refl). cbn [obind negb]. apply IH.
    + apply IH.
Qed.

(** A loop breaks on the first pending term. *)
Lemma scanUnsolved_pending solved pre t post :
  Forall (settled solved) pre -> pending solved t ->
  forall id, scanUnsolved (pre ++ t :: post) solved id = Ok (true, VariableID t).
Proof.
  intros Hpre [Hi Hs].
  induction Hpre as [|u pre Hu _ IH]; intros id; cbn [app scanUnsolved].
  - rewrite Hi. cbn [negb]. unfold index. rewrite Hs. reflexivity.
  - unfold settled in Hu. destruct (isInternal u) eqn:Ei; cbn [negb].
    + unfold index. rewrite (Hu eq_refl). cbn [obind negb]. apply IH.
    + apply IH.
Qed.

Lemma settled_not_pending solved t : settled solved t -> ~ pending solved t.
Proof. intros Hs [Hi Hp]. rewrite (Hs Hi) in Hp. discriminate. Qed.

(** Where the first pending term of [l1 ++ l2] lies. *)
Lemma first_pending_app solved (l1 l2 pre : list Term) t post :
  l1 ++ l2 = pre ++ t :: post ->
  Forall (settled solved) pre -> pending solved t ->
  (exists post1, l1 = pre ++ t :: post1 /\ (List.length pre < List.length l1)%nat) \/
  (exists pre2, pre = l1 ++ pre2 /\ l2 = pre2 ++ t :: post /\
                Forall (settled solved) l1 /\ Forall (settled solved) pre2).
Proof.
  revert pre. induction l1 as [|a l1 IH]; intros pre Heq Hpre Ht; cbn [app] in *.
  - right. exists pre. repeat split; auto.
  - destruct pre as [|b pre]; cbn [app] in *.
    + injection Heq as -> Heq. left. exists l1.
      split; [reflexivity|cbn [List.length]; lia].
    + injection Heq as -> Heq. inversion Hpre as [|? ? Hb Hpre']; subst.
      destruct (IH pre Heq Hpre' Ht) as [[post1 [-> Hl]]|[pre2 [-> [-> [H1 H2]]]]].
      * left. exists post1. split; [reflexivity|cbn [List.length]; lia].
      * right. exists pre2. repeat split; auto.
Qed.

Lemma findUnsolvedVariable_settled r1c solved :
  Forall (settled solved) (R1C_L r1c ++ R1C_R r1c ++ R1C_O r1c) ->
  findUnsolvedVariable r1c solved
  = Ok (-1, lastInternalID (R1C_L r1c ++ R1C_R r1c ++ R1C_O r1c) (-1)).
Proof.
  intros H. unfold findUnsolvedVariable.
  apply Forall_app in H as [Hl H]. apply Forall_app in H as [Hr Ho].
  rewrite (scanUnsolved_settled _ _ Hl). cbn [obind].
  rewrite (scanUnsolved_settled _ _ Hr). cbn [obind].
  rewrite (scanUnsolved_settled _ _ Ho). cbn [obind].
  now rewrite !lastInternalID_app.
Qed.

Lemma lastInternalID_cases l : forall id,
  (lastInternalID l id = id /\ forall t, In t l -> isInternal t = false) \/
  (exists t, In t l /\ isInternal t = true /\ VariableID t = lastInternalID l id).
Proof.
  induction l as [|u l IH]; intros id.
  - left. split; [reflexivity|intros t []].
  - unfold lastInternalID. cbn [fold_left].
    destruct (isInternal u) eqn:Eu.
    + right. fold (lastInternalID l (VariableID u)).
      destruct (IH (VariableID u)) as [[E _]|(t & Ht & Hi & Hv)].
      * exists u. rewrite E. split; [now left|auto].
      * exists t. split; [now right|auto].
    + fold (lastInternalID l id).
      destruct (IH id) as [[E Hn]|(t & Ht & Hi & Hv)].
      * left. split; [exact E|]. intros t [<-|Ht]; auto.
      * right. exists t. split; [now right|auto].
Qed.

(** X1.  [findUnsolvedVariable] scans L, then R, then O.  When a first pending
    term exists (an internal term whose variable is not marked solved, all
    terms before it being settled), it returns the position of the
    expression holding it (0 for L, 1 for R, 2 for O) and its variable ID.
    When every term is settled it returns position -1 together with the
    variable ID of the last internal term scanned, which is -1 when the R1C
    has no internal term at all. *)
Theorem findUnsolvedVariable_scan (r1c : R1C) (solved : list bool) :
  (forall pre t post,
      R1C_L r1c ++ R1C_R r1c ++ R1C_O r1c = pre ++ t :: post /\
      Forall (settled solved) pre /\ pending solved t ->
      findUnsolvedVariable r1c solved
      = Ok (positionOf r1c (List.length pre), VariableID t)) /\
  (Forall (settled solved) (R1C_L r1c ++ R1C_R r1c ++ R1C_O r1c) ->
   findUnsolvedVariable r1c solved
   = Ok (-1, lastInternalID (R1C_L r1c ++ R1C_R r1c ++ R1C_O r1c) (-1))) /\
  ((forall t, In t (R1C_L r1c ++ R1C_R r1c ++ R1C_O r1c) -> isInternal t = false) ->
   findUnsolvedVariable r1c solved = Ok (-1, -1)).
Proof.
  destruct r1c as [l r o sv]. unfold positionOf, findUnsolvedVariable.
  cbn [R1C_L R1C_R R1C_O].
  assert (Hall : Forall (settled solved) (l ++ r ++ o) ->
                 obind (scanUnsolved l solved (-1)) (fun '(found, id) =>
                 if found then Ok (0, id) else
                 obind (scanUnsolved r solved id) (fun '(found0, id0) =>
                 if found0 then Ok (1, id0) else
                 obind (scanUnsolved o solved id0) (fun '(found1, id1) =>
                 if found1 then Ok (2, id1) else Ok (-1, id1))))
                 = Ok (-1, lastInternalID (l ++ r ++ o) (-1))).
  { intros H. apply Forall_app in H as [Hl H]. apply Forall_app in H as [Hr Ho].
    rewrite (scanUnsolved_settled _ _ Hl). cbn [obind].
    rewrite (scanUnsolved_settled _ _ Hr). cbn [obind].
    rewrite (scanUnsolved_settled _ _ Ho). cbn [obind].
    now rewrite !lastInternalID_app. }
  split; [|split].
  - intros pre t post (Heq & Hpre & Ht).
    destruct (first_pending_app _ _ _ _ _ _ Heq Hpre Ht)
      as [[post1 [-> Hl]]|[pre2 [-> [Heq2 [Hl Hpre2]]]]].
    + rewrite (scanUnsolved_pending _ _ _ _ Hpre Ht). cbn [obind].
      apply Nat.ltb_lt in Hl. now rewrite Hl.
    + rewrite (scanUnsolved_settled _ _ Hl). cbn [obind].
      rewrite length_app.
      replace (List.length l + List.length pre2 <? List.length l)%nat
        with false by (symmetry; apply Nat.ltb_ge; lia).
      destruct (first_pending_app _ _ _ _ _ _ Heq2 Hpre2 Ht)
        as [[post1 [-> Hr]]|[pre3 [-> [-> [Hr Hpre3]]]]].
      * rewrite (scanUnsolved_pending _ _ _ _ Hpre2 Ht). cbn [obind].
        replace (List.length l + List.length pre2
                 <? List.length l + List.length (pre2 ++ t :: post1))%nat
          with true by (symmetry; apply Nat.ltb_lt; lia).
        reflexivity.
      * rewrite (scanUnsolved_settled _ _ Hr). cbn [obind].
        rewrite (scanUnsolved_pending _ _ _ _ Hpre3 Ht). cbn [obind].
        rewrite length_app.
        replace (List.length l + (List.length r + List.length pre3)
                 <? List.length l + List.length r)%nat
          with false by (symmetry; apply Nat.ltb_ge; lia).
        reflexivity.
  - exact Hall.
  - intros Hno.
    assert (Hs : Forall (settled solved) (l ++ r ++ o)).
    { apply Forall_forall. intros t Hin Hi. rewrite (Hno t Hin) in Hi. discriminate. }
    rewrite (Hall Hs). f_equal. f_equal.
    unfold lastInternalID. revert Hno. generalize (l ++ r ++ o) (-1).
    intros le. induction le as [|t le IH]; intros id Hno; cbn [fold_left].
    + reflexivity.
    + rewrite (Hno t (or_introl eq_refl)). apply IH.
      intros u Hu. apply Hno. now right.
Qed.

(** C7.  [findUnsolvedVariable] sets [pos = -1] and [id = -1] as its
    not-found result, but uses [id] as the scratch variable of its loops:
    on [(1) * (1) = (t0)] with [t0] marked solved it returns (-1, 0), where
    the claim has (-1, -1).  In general, when every term is settled and
    there is an internal term, the ID returned with position -1 is the ID of
    an internal term of the constraint, never -1.  The caller then lowers
    the constraint a second time: on the system that holds the constraint
    twice the conversion returns normally with two gates and two internal
    variables for the one variable of the input. *)
Theorem findUnsolvedVariable_stale_id :
  findUnsolvedVariable r1cSolved [false] = Ok (2, 0) /\
  findUnsolvedVariable r1cSolved [true] = Ok (-1, 0) /\
  (forall (r1c : R1C) (solved : list bool),
      Forall (settled solved) (R1C_L r1c ++ R1C_R r1c ++ R1C_O r1c) ->
      (exists t, In t (R1C_L r1c ++ R1C_R r1c ++ R1C_O r1c) /\ isInternal t = true) ->
      exists t, In t (R1C_L r1c ++ R1C_R r1c ++ R1C_O r1c) /\ isInternal t = true /\
                findUnsolvedVariable r1c solved = Ok (-1, VariableID t) /\
                findUnsolvedVariable r1c solved <> Ok (-1, -1)) /\
  (exists res, convert csTwice = Ok res /\
               zlen (Constraints (ccs res)) = 2 /\
               NbInternalVariables (ccs res) = 2 /\ mCStoCCS res = [1]).
Proof.
  split; [vm_compute; reflexivity|]. split; [vm_compute; reflexivity|]. split.
  - intros r1c solved Hs (u & Hu & Hi).
    rewrite (findUnsolvedVariable_settled _ _ Hs).
    destruct (lastInternalID_cases (R1C_L r1c ++ R1C_R r1c ++ R1C_O r1c) (-1))
      as [[_ Hn]|(t & Ht & Hti & Htv)].
    + rewrite (Hn u Hu) in Hi. discriminate.
    + exists t. rewrite <- Htv. repeat split; auto.
      intros H. injection H as H. pose proof (VariableID_range t). lia.
  - eexists. split; [vm_compute; reflexivity|]. vm_compute. auto.
Qed.

(** ** addConstraint, recordAssertion *)

Lemma SetVariableID_of_VariableID t u :
  exists t', SetVariableID t (VariableID u) = Ok t' /\
             VariableID t' = VariableID u /\ CoeffID t' = CoeffID t /\
             VariableVisibility t' = VariableVisibility t.
Proof.
  destruct (SetVariableID_fits t (VariableID u) (VariableID_range u)) as [t' Ht'].
  exists t'. split; [exact Ht'|]. now apply SetVariableID_Ok.
Qed.

Lemma VariableID_0 : VariableID 0 = 0.
Proof. reflexivity. Qed.

(** The gate [addConstraint] appends, slot by slot. *)
Lemma addConstraint_fix_spec (c : SparseR1C) :
  exists c', addConstraint_fix c = Ok c' /\
    (L c = 0 -> VariableID (L c') = VariableID (M0 c)) /\
    (R c = 0 -> VariableID (R c') = VariableID (M1 c)) /\
    (M0 c = 0 -> VariableID (M0 c') = VariableID (L c)) /\
    (M1 c = 0 -> VariableID (M1 c') = VariableID (R c)) /\
    (L c <> 0 -> L c' = L c) /\ (R c <> 0 -> R c' = R c) /\
    (M0 c <> 0 -> M0 c' = M0 c) /\ (M1 c <> 0 -> M1 c' = M1 c) /\
    CoeffID (L c') = CoeffID (L c) /\ CoeffID (R c') = CoeffID (R c) /\
    CoeffID (M0 c') = CoeffID (M0 c) /\ CoeffID (M1 c') = CoeffID (M1 c) /\
    O c' = O c /\ K c' = K c /\ Solver c' = Solver c.
Proof.
  destruct c as [l r o m0 m1 k sv]. unfold addConstraint_fix.
  cbn [L R O M0 M1 K Solver withL withR withM0 withM1].
  destruct (SetVariableID_of_VariableID l m0) as (l' & El & Hl1 & Hl2 & Hl3).
  destruct (SetVariableID_of_VariableID r m1) as (r' & Er & Hr1 & Hr2 & Hr3).
  destruct (isZero l) eqn:Zl; [rewrite El|];
    cbn [obind L R O M0 M1 K Solver withL withR withM0 withM1];
    (destruct (isZero r) eqn:Zr; [rewrite Er|]);
    cbn [obind L R O M0 M1 K Solver withL withR withM0 withM1];
    match goal with
    | |- context [SetVariableID m0 (VariableID ?x)] =>
        destruct (SetVariableID_of_VariableID m0 x) as (m0' & Em0 & Hm01 & Hm02 & Hm03)
    end;
    (destruct (isZero m0) eqn:Zm0; [rewrite Em0|]);
    cbn [obind L R O M0 M1 K Solver withL withR withM0 withM1];
    match goal with
    | |- context [SetVariableID m1 (VariableID ?x)] =>
        destruct (SetVariableID_of_VariableID m1 x) as (m1' & Em1 & Hm11 & Hm12 & Hm13)
    end;
    (destruct (isZero m1) eqn:Zm1; [rewrite Em1|]);
    cbn [obind L R O M0 M1 K Solver withL withR withM0 withM1];
    eexists; (split; [reflexivity|]);
    cbn [L R O M0 M1 K Solver withL withR withM0 withM1];
    repeat match goal with
           | H : isZero _ = true |- _ => apply isZero_true in H
           | H : isZero _ = false |- _ => apply isZero_false in H
           end;
    subst; rewrite ?VariableID_0 in *;
    repeat split; intros; try congruence.
Qed.

(** C8 (as amended).  The gate that [addConstraint] appends to
    [Constraints] has its variable IDs set even where a slot is the
    sentinel: a sentinel L takes the variable ID of M[0], a sentinel R that
    of M[1], a sentinel M[0] that of L and a sentinel M[1] that of R; the
    other slots, the coefficient IDs, O, K and the solver tag are those of
    the argument.  [recordAssertion] appends its argument to [Assertions]
    as it is. *)
Theorem addConstraint_sets_variable_IDs (c : SparseR1C) (s : sparseR1CS) :
  (exists c',
      addConstraint c s
      = Ok (tt, set_ccs s (set_Constraints (ccs s) (Constraints (ccs s) ++ [c']))) /\
      (L c = 0 -> VariableID (L c') = VariableID (M0 c)) /\
      (R c = 0 -> VariableID (R c') = VariableID (M1 c)) /\
      (M0 c = 0 -> VariableID (M0 c') = VariableID (L c)) /\
      (M1 c = 0 -> VariableID (M1 c') = VariableID (R c)) /\
      (L c <> 0 -> L c' = L c) /\ (R c <> 0 -> R c' = R c) /\
      (M0 c <> 0 -> M0 c' = M0 c) /\ (M1 c <> 0 -> M1 c' = M1 c) /\
      CoeffID (L c') = CoeffID (L c) /\ CoeffID (R c') = CoeffID (R c) /\
      CoeffID (M0 c') = CoeffID (M0 c) /\ CoeffID (M1 c') = CoeffID (M1 c) /\
      O c' = O c /\ K c' = K c /\ Solver c' = Solver c) /\
  recordAssertion c s
  = Ok (tt, set_ccs s (set_Assertions (ccs s) (Assertions (ccs s) ++ [c]))).
Proof.
  split; [|reflexivity].
  destruct (addConstraint_fix_spec c) as (c' & E & H).
  exists c'. split; [|exact H].
  unfold addConstraint, bind, lift, get, put. now rewrite E.
Qed.

(** C8 (the claim as stated fails).  The assertion [(s1) * (1) = 0] is
    recorded by [recordAssertion] as one gate whose L carries variable 1
    while its M[0] is left the sentinel, variable ID 0: the sentinel did not
    take the variable ID of L. *)
Lemma recordAssertion_leaves_sentinel :
  let r1c := mkR1C [mkTerm 1 1 Secret] [mkTerm 0 1 Public] [] SingleOutput in
  let s := newSparseR1CS (mkConstraintSystem 1 2 0 [] [r1c] pool4 []) in
  exists g s',
    splitR1C r1c s = Ok (tt, s') /\
    Assertions (ccs s') = [g] /\
    M0 g = 0 /\ VariableID (M0 g) = 0 /\ VariableID (L g) = 1.
Proof.
  cbv zeta. eexists. eexists.
  split; [vm_compute; reflexivity|].
  split; [reflexivity|].
  vm_compute. repeat split.
Qed.

(** ** The coefficient pool *)

Lemma zlookup_Some {A} (l : list A) i x :
  zlookup l i = Some x -> 0 <= i < zlen l.
Proof.
  unfold zlookup, zlen. destruct (Z.ltb_spec i 0); [discriminate|].
  intros H0. assert (Hn : nth_error l (Z.to_nat i) <> None) by congruence.
  apply nth_error_Some in Hn. lia.
Qed.

Lemma zlookup_in_range {A} (l : list A) i :
  0 <= i < zlen l -> exists x, zlookup l i = Some x.
Proof.
  unfold zlookup, zlen. intros H.
  destruct (Z.ltb_spec i 0); [lia|].
  destruct (nth_error l (Z.to_nat i)) eqn:E; [eauto|].
  apply nth_error_None in E. lia.
Qed.

Lemma zlookup_app_l {A} (l l' : list A) i x :
  zlookup l i = Some x -> zlookup (l ++ l') i = Some x.
Proof.
  intros H. pose proof (zlookup_Some _ _ _ H) as Hr. revert H.
  unfold zlookup, zlen in *. destruct (Z.ltb_spec i 0); [discriminate|].
  intros H0. rewrite nth_error_app1 by lia. exact H0.
Qed.

Lemma zlookup_app_last {A} (l : list A) x :
  zlookup (l ++ [x]) (zlen l) = Some x.
Proof.
  unfold zlookup, zlen. destruct (Z.ltb_spec (Z.of_nat (List.length l)) 0); [lia|].
  rewrite Nat2Z.id, nth_error_app2 by lia. now rewrite Nat.sub_diag.
Qed.

Lemma zlen_app {A} (l l' : list A) : zlen (l ++ l') = zlen l + zlen l'.
Proof. unfold zlen. rewrite length_app. lia. Qed.

Lemma zlen_nonneg {A} (l : list A) : 0 <= zlen l.
Proof. unfold zlen. lia. Qed.

Lemma findCoeff_Some pool b : forall i j,
  findCoeff pool b i = Some j ->
  i <= j < i + zlen pool /\ zlookup pool (j - i) = Some b.
Proof.
  induction pool as [|c pool IH]; intros i j; cbn [findCoeff]; [discriminate|].
  destruct (Z.eqb_spec c b) as [->|Hne].
  - intros H. injection H as <-. unfold zlen. cbn [List.length].
    split; [lia|]. now rewrite Z.sub_diag.
  - intros H. apply IH in H as [Hr Hl]. unfold zlen in *. cbn [List.length].
    split; [lia|].
    unfold zlookup in *. destruct (Z.ltb_spec (j - i) 0); [lia|].
    destruct (Z.ltb_spec (j - (i + 1)) 0); [lia|].
    replace (Z.to_nat (j - i)) with (S (Z.to_nat (j - (i + 1)))) by lia.
    exact Hl.
Qed.

(** [coeffID] never fails; the index it returns holds the value in the
    pool it leaves, which is the old pool or the old pool with the value
    appended; nothing else of the state changes. *)
Lemma coeffID_spec b s :
  exists j s', coeffID b s = Ok (j, s') /\
    0 <= j <= zlen (coeffs s) /\
    zlookup (coeffs s') j = Some b /\
    (coeffs s' = coeffs s \/ coeffs s' = coeffs s ++ [b]) /\
    ccs s' = ccs s /\ mCStoCCS s' = mCStoCCS s /\
    solvedVariables s' = solvedVariables s.
Proof.
  unfold coeffID. destruct (findCoeff (coeffs s) b 0) as [j|] eqn:E.
  - exists j, s. apply findCoeff_Some in E as [Hr Hl].
    rewrite Z.sub_0_r in Hl. repeat split; auto; lia.
  - eexists. eexists. split; [reflexivity|].
    cbn [set_coeffs coeffs ccs mCStoCCS solvedVariables].
    pose proof (zlen_nonneg (coeffs s)).
    repeat split; auto; try lia. apply zlookup_app_last.
Qed.

(** ** negate *)

(** C10.  [negate] returns the zero sentinel unchanged.  For a term that
    is not the sentinel and whose coefficient [c] is in the pool (the pool
    being within the capacity of the term layout), it returns a term with
    the same variable ID and visibility whose coefficient ID is the index
    [coeffID] gives the negation [- c]; that index holds [- c] in the
    pool. *)
Theorem negate_spec (t : Term) (s : sparseR1CS) :
  negate 0 s = Ok (0, s) /\
  (forall c,
      t <> 0 /\ zlookup (coeffs s) (CoeffID t) = Some c /\
      zlen (coeffs s) < 2 ^ 30 ->
      exists t' cID s',
        coeffID (- c) s = Ok (cID, s') /\
        negate t s = Ok (t', s') /\
        CoeffID t' = cID /\
        zlookup (coeffs s') cID = Some (- c) /\
        VariableID t' = VariableID t /\
        VariableVisibility t' = VariableVisibility t).
Proof.
  split; [reflexivity|].
  intros c (Hnz & Hc & Hcap).
  destruct (coeffID_spec (- c) s) as (j & s' & Ej & Hj & Hl & _).
  destruct (SetCoeffID_fits t j) as [t' Et']; [lia|].
  exists t', j, s'. split; [exact Ej|].
  destruct (SetCoeffID_Ok _ _ _ Et') as (H1 & H2 & H3).
  split; [|auto].
  unfold negate. apply isZero_false in Hnz. rewrite Hnz.
  unfold bind, get, lift, index. rewrite Hc, Ej, Et'. reflexivity.
Qed.

Lemma negate_spec_witness :
  let t := mkTerm 7 3 Secret in
  let s := mkSparse pool4 (mkSparseR1CS 0 0 8 [] [] []) [] [] in
  exists t' cID s',
    coeffID (- 2) s = Ok (cID, s') /\
    negate t s = Ok (t', s') /\
    CoeffID t' = cID /\
    zlookup (coeffs s') cID = Some (- 2) /\
    VariableID t' = VariableID t /\
    VariableVisibility t' = VariableVisibility t.
Proof.
  cbv zeta.
  apply (proj2 (negate_spec (mkTerm 7 3 Secret)
                  (mkSparse pool4 (mkSparseR1CS 0 0 8 [] [] []) [] [])) 2).
  split; [vm_compute; discriminate|].
  split; [vm_compute; reflexivity|vm_compute; reflexivity].
Defined.

(** ** Final renumbering *)

Lemma VariableVisibility_cases t :
  VariableVisibility t = Public \/ VariableVisibility t = Secret \/
  VariableVisibility t = Internal \/ VariableVisibility t = Unset.
Proof. destruct (VariableVisibility t); auto. Qed.




(** ** Stores into slices, [popConstantTerm] *)

Lemma store_length {A} (l l' : list A) i x :
  store l i x = Ok l' -> zlen l' = zlen l /\ 0 <= i < zlen l.
Proof.
  unfold store, zupdate, zlen. destruct (Z.ltb_spec i 0); [discriminate|].
  destruct (update_nth l (Z.to_nat i) x) as [r|] eqn:E; [|discriminate].
  intros H0. injection H0 as <-.
  assert (Hn : forall (l r : list A) n, update_nth l n x = Some r ->
               List.length r = List.length l /\ (n < List.length l)%nat).
  { clear. induction l as [|y l IH]; intros r n; [discriminate|].
    destruct n as [|n]; cbn [update_nth].
    - intros H. injection H as <-. cbn [List.length]. lia.
    - destruct (update_nth l n x) as [r'|] eqn:E; [|discriminate].
      intros H. injection H as <-. apply IH in E. cbn [List.length]. lia. }
  apply Hn in E. lia.
Qed.

Lemma store_out_of_range {A} (l : list A) i x :
  zlen l <= i -> store l i x = Panic IndexOutOfRange.
Proof.
  intros H. destruct (store l i x) as [l'|p|e] eqn:E.
  - apply store_length in E. lia.
  - unfold store in E. destruct (zupdate l i x); [discriminate|now symmetry].
  - unfold store in E. destruct (zupdate l i x); discriminate.
Qed.

Lemma popConstantTerm_cases l s :
  (exists r, popConstantTerm l s = Ok (r, s)) \/
  (exists p, popConstantTerm l s = Panic p).
Proof.
  unfold popConstantTerm.
  assert (H : forall pool, (exists r, popConstantTerm_loop pool l = Ok r) \/
                           (exists p, popConstantTerm_loop pool l = Panic p)).
  { intros pool. induction l as [|t l IH]; cbn [popConstantTerm_loop].
    - left. eauto.
    - destruct (isOneWire t).
      + unfold index. destruct (zlookup pool (CoeffID t)); cbn [obind]; eauto.
      + destruct IH as [[[r c] ->]|[p ->]]; cbn [obind]; eauto. }
  destruct (H (coeffs s)) as [[r ->]|[p ->]]; cbn [obind]; eauto.
Qed.

(** ** Solver tags of the emitted gates *)

Lemma quiet_emits {A} PC PA (m : M A) : quiet m -> emits PC PA m.
Proof.
  intros Hq s a s' H. destruct (Hq s a s' H) as [Hc Ha].
  exists [], []. unfold appended. rewrite !app_nil_r. auto.
Qed.

Lemma emits_bind {A B} PC PA (m : M A) (f : A -> M B) :
  emits PC PA m -> (forall a, emits PC PA (f a)) -> emits PC PA (bind m f).
Proof.
  intros Hm Hf s b s' H. unfold bind in H.
  destruct (m s) as [[a s1]|p|e] eqn:E; try discriminate.
  destruct (Hm _ _ _ E) as (nc1 & na1 & [Hc1 Ha1] & Fc1 & Fa1).
  destruct (Hf a _ _ _ H) as (nc2 & na2 & [Hc2 Ha2] & Fc2 & Fa2).
  exists (nc1 ++ nc2), (na1 ++ na2). unfold appended.
  rewrite Hc2, Hc1, Ha2, Ha1, <- !app_assoc.
  repeat split; auto; apply Forall_app; auto.
Qed.

Lemma quiet_bind {A B} (m : M A) (f : A -> M B) :
  quiet m -> (forall a, quiet (f a)) -> quiet (bind m f).
Proof.
  intros Hm Hf s b s' H. unfold bind in H.
  destruct (m s) as [[a s1]|p|e] eqn:E; try discriminate.
  destruct (Hm _ _ _ E) as [Hc1 Ha1].
  destruct (Hf a _ _ _ H) as [Hc2 Ha2].
  unfold unchanged. now rewrite Hc2, Ha2.
Qed.

Lemma quiet_ret {A} (a : A) : quiet (ret a).
Proof. intros s b s' H. injection H as _ <-. split; reflexivity. Qed.

Lemma quiet_get : quiet get.
Proof. intros s b s' H. injection H as _ <-. split; reflexivity. Qed.

Lemma quiet_lift {A} (x : outcome A) : quiet (lift x).
Proof.
  intros s b s' H. unfold lift in H. destruct x; try discriminate.
  injection H as _ <-. split; reflexivity.
Qed.

Lemma quiet_coeffID b : quiet (coeffID b).
Proof.
  intros s j s' H. destruct (coeffID_spec b s) as (j' & s1 & E & _ & _ & _ & Hccs & _).
  rewrite E in H. injection H as _ <-. unfold unchanged. now rewrite Hccs.
Qed.

Lemma quiet_newTerm c idCS : quiet (newTerm c idCS).
Proof.
  intros s t s' H. unfold newTerm in H.
  unfold bind at 1 in H.
  destruct (coeffID_spec c s) as (j & s1 & E & _ & _ & _ & Hccs & _).
  rewrite E in H. unfold bind, get, lift, put in H.
  destruct (Pack _ j Internal); try discriminate.
  destruct idCS as [id|].
  - cbn [set_ccs mCStoCCS] in H.
    destruct (store (mCStoCCS s1) id _); try discriminate.
    injection H as _ <-. unfold unchanged. cbn. now rewrite Hccs.
  - injection H as _ <-. unfold unchanged. cbn. now rewrite Hccs.
Qed.

Ltac quiet_step :=
  first [ apply quiet_ret | apply quiet_get | apply quiet_lift
        | apply quiet_coeffID | apply quiet_newTerm
        | apply quiet_bind; [|intros ?] ].

Lemma quiet_negate t : quiet (negate t).
Proof. unfold negate. destruct (isZero t); repeat quiet_step. Qed.

Lemma quiet_multiply t c : quiet (multiply t c).
Proof.
  unfold multiply.
  repeat match goal with
         | |- quiet (if ?b then _ else _) => destruct b
         end; repeat quiet_step.
Qed.

Lemma quiet_getCorrespondingTerm t : quiet (getCorrespondingTerm t).
Proof. unfold getCorrespondingTerm. destruct (isInternal t); repeat quiet_step. Qed.

Lemma quiet_popConstantTerm l : quiet (popConstantTerm l).
Proof.
  intros s r s' H. unfold popConstantTerm in H.
  destruct (popConstantTerm_loop (coeffs s) l); try discriminate.
  injection H as _ <-. split; reflexivity.
Qed.

Lemma addConstraint_Ok c s u s' :
  addConstraint c s = Ok (u, s') ->
  exists c', Solver c' = Solver c /\
    s' = set_ccs s (set_Constraints (ccs s) (Constraints (ccs s) ++ [c'])).
Proof.
  destruct (addConstraint_fix_spec c) as (c' & E & H).
  unfold addConstraint, bind, lift, get, put. rewrite E.
  intros H0. injection H0 as _ <-. exists c'. split; [tauto|reflexivity].
Qed.

Lemma emits_addConstraint PC PA c :
  (forall c', Solver c' = Solver c -> PC c') -> emits PC PA (addConstraint c).
Proof.
  intros HP s u s' H. apply addConstraint_Ok in H as (c' & Hs & ->).
  exists [c'], []. unfold appended. cbn [set_ccs ccs set_Constraints Constraints Assertions].
  rewrite app_nil_r. repeat split; auto.
Qed.

Lemma emits_recordAssertion PC PA c :
  PA c -> emits PC PA (recordAssertion c).
Proof.
  intros HP s u s' H. unfold recordAssertion, bind, get, put in H.
  injection H as _ <-.
  exists [], [c]. unfold appended. cbn [set_ccs ccs set_Assertions Constraints Assertions].
  rewrite app_nil_r. repeat split; auto.
Qed.

Ltac emits_step :=
  first [ apply quiet_emits;
          first [ apply quiet_ret | apply quiet_get | apply quiet_lift
                | apply quiet_coeffID | apply quiet_newTerm | apply quiet_negate
                | apply quiet_multiply | apply quiet_getCorrespondingTerm
                | apply quiet_popConstantTerm ]
        | apply emits_addConstraint; intros ? ?; assumption
        | apply emits_recordAssertion; reflexivity
        | apply emits_bind; [|intros ?] ].

Lemma emits_split PA le : forall acc, emits (tagged SingleOutput) PA (split le acc).
Proof.
  induction le as [|t0 le IH]; intros acc; cbn [split].
  - emits_step.
  - destruct (isZero acc); repeat emits_step; apply IH.
Qed.

Ltac emits_tac :=
  repeat first [ apply emits_split | emits_step
               | match goal with
                 | |- emits _ _ (match ?x with pair _ _ => _ end) => destruct x
                 | |- emits _ _ (if ?b then _ else _) => destruct b
                 end ].

Lemma emits_dispatch PA l r o cL cR cO cS idCS b1 b2 b3 b4 :
  emits (tagged SingleOutput) PA (dispatch l r o cL cR cO cS idCS b1 b2 b3 b4).
Proof.
  destruct b1, b2, b3, b4; cbn [dispatch];
    unfold f1, f2, f3, f4, f5, f6, f7, f8, f9, f10, f11, f12, f13, f14, f15, f16;
    emits_tac.
Qed.

Lemma emits_splitR1C r1c :
  emits (tagged SingleOutput) (tagged SingleOutput) (splitR1C r1c).
Proof. unfold splitR1C. emits_tac. Qed.

Lemma quiet_get_put {A} (f : sparseR1CS -> outcome A)
      (g : sparseR1CS -> A -> sparseR1CS) :
  (forall s a, unchanged s (g s a)) ->
  quiet (bind get (fun s => bind (lift (f s)) (fun a => put (g s a)))).
Proof.
  intros Hg s u s' H. unfold bind, get, lift, put in H.
  destruct (f s) as [a|p|e]; try discriminate.
  injection H as _ <-. apply Hg.
Qed.

Lemma emits_singleOutput PA r1c :
  emits (tagged SingleOutput) PA (r1cToPlonkConstraintSingleOutput r1c).
Proof.
  unfold r1cToPlonkConstraintSingleOutput.
  apply emits_bind; [emits_step|intros s0].
  apply emits_bind; [emits_step|intros [lro idCS]].
  destruct (lro =? 1).
  all: repeat first
         [ apply emits_dispatch
         | apply quiet_emits, (quiet_get_put (fun s => store (solvedVariables s) idCS true)
                                 (fun s sv => set_solvedVariables s sv));
           intros ? ?; split; reflexivity
         | emits_step
         | match goal with
           | |- emits _ _ (match ?x with pair _ _ => _ end) => destruct x
           end ].
Qed.

Lemma emits_binaryReduceO r1c :
  emits (tagged SingleOutput) never (binaryReduceO r1c).
Proof. unfold binaryReduceO. emits_tac. Qed.

Lemma never_nil (l : list SparseR1C) : Forall never l -> l = [].
Proof. destruct 1 as [|g l Hg _]; [reflexivity|destruct Hg]. Qed.

(** The bits loop appends exactly [n] gates, all tagged [BinaryDec]. *)
Lemma binaryLoop_gates n : forall binDec acc q s rest s',
  binaryLoop n binDec acc q s = Ok (rest, s') ->
  exists bits, appended s s' bits [] /\
               Forall (tagged BinaryDec) bits /\ List.length bits = n.
Proof.
  induction n as [|n IH]; intros binDec acc q s rest s' H; cbn [binaryLoop] in H.
  - injection H as _ <-. exists []. unfold appended. rewrite !app_nil_r. auto.
  - unfold bind at 1 in H.
    destruct (newTerm bOne None s) as [[ri s1]|p|e] eqn:E1; try discriminate.
    apply quiet_newTerm in E1 as [Hc1 Ha1].
    unfold bind at 1 in H.
    destruct (newTerm bOne None s1) as [[qn s2]|p|e] eqn:E2; try discriminate.
    apply quiet_newTerm in E2 as [Hc2 Ha2].
    unfold bind at 1 in H. unfold get at 1 in H. cbv beta iota in H.
    unfold bind at 1 in H. unfold lift at 1 in H.
    destruct (findBit (coeffs s2) binDec acc) as [found|p|e]; try discriminate.
    cbv beta iota in H.
    unfold bind at 1 in H.
    match type of H with
    | match ?m s2 with _ => _ end = _ =>
        destruct (m s2) as [[binDec' s3]|p|e] eqn:E3; try discriminate;
        assert (H3 : unchanged s2 s3)
    end.
    { destruct found as [[t rest']|].
      - unfold bind, lift, put, get in E3.
        destruct (store (mCStoCCS s2) _ _); try discriminate.
        cbn [set_mCStoCCS solvedVariables] in E3.
        destruct (store (solvedVariables s2) _ _); try discriminate.
        injection E3 as _ <-. split; reflexivity.
      - injection E3 as _ <-. split; reflexivity. }
    destruct H3 as [Hc3 Ha3].
    unfold bind at 1 in H.
    destruct (multiply qn 2 s3) as [[lq s4]|p|e] eqn:E4; try discriminate.
    apply quiet_multiply in E4 as [Hc4 Ha4].
    unfold bind at 1 in H.
    destruct (negate q s4) as [[oq s5]|p|e] eqn:E5; try discriminate.
    apply quiet_negate in E5 as [Hc5 Ha5].
    unfold bind at 1 in H.
    destruct (addConstraint _ s5) as [[u s6]|p|e] eqn:E6; try discriminate.
    apply addConstraint_Ok in E6 as (c' & Hs & ->).
    apply IH in H as (bits & [Hc Ha] & Fb & Hl).
    exists (c' :: bits). unfold appended.
    cbn [set_ccs ccs set_Constraints Constraints Assertions] in Hc, Ha.
    rewrite Hc, Ha, Hc5, Ha5, Hc4, Ha4, Hc3, Ha3, Hc2, Ha2, Hc1, Ha1.
    rewrite <- app_assoc. cbn [app List.length].
    repeat split; auto.
Qed.

(** C5 (as amended).  Of the gates [r1cToPlonkConstraintBinary] appends to
    Constraints, the last [len(L)], those of the bits loop, carry the
    [BinaryDec] tag; the gates before them, which reduce the O side to a
    single term and fold its constant, carry the default [SingleOutput]
    tag.  Every gate appended by the single-output lowering and by
    [splitR1C] (to Constraints or to Assertions) carries [SingleOutput]. *)
Theorem solver_tags (r1c : R1C) (s s' : sparseR1CS) :
  (r1cToPlonkConstraintBinary r1c s = Ok (tt, s') ->
   exists pre bits,
     appended s s' (pre ++ bits) [] /\
     Forall (tagged SingleOutput) pre /\
     Forall (tagged BinaryDec) bits /\
     List.length bits = List.length (R1C_L r1c)) /\
  (r1cToPlonkConstraintSingleOutput r1c s = Ok (tt, s') ->
   exists nc, appended s s' nc [] /\ Forall (tagged SingleOutput) nc) /\
  (splitR1C r1c s = Ok (tt, s') ->
   exists nc na,
     appended s s' nc na /\
     Forall (tagged SingleOutput) nc /\ Forall (tagged SingleOutput) na).
Proof.
  split; [|split].
  - unfold r1cToPlonkConstraintBinary. intros H.
    unfold bind at 1 in H.
    destruct (binaryReduceO r1c s) as [[ot s1]|p|e] eqn:E1; try discriminate.
    apply emits_binaryReduceO in E1 as (pre & na & [Hc1 Ha1] & Fpre & Fna).
    apply never_nil in Fna. subst na. rewrite app_nil_r in Ha1.
    unfold bind at 1 in H.
    destruct (binaryLoop _ _ 1 ot s1) as [[rest s2]|p|e] eqn:E2; try discriminate.
    injection H as <-.
    apply binaryLoop_gates in E2 as (bits & [Hc2 Ha2] & Fb & Hl).
    rewrite app_nil_r in Ha2.
    exists pre, bits. unfold appended.
    rewrite Hc2, Hc1, Ha2, Ha1, app_nil_r, <- app_assoc. auto.
  - intros H. apply (emits_singleOutput never) in H as (nc & na & Ha & Fc & Fa).
    apply never_nil in Fa. subst na. eauto.
  - intros H. now apply emits_splitR1C in H.
Qed.

Lemma solver_tags_witness :
  let r1c := mkR1C [mkTerm 0 1 Internal; mkTerm 1 3 Internal] []
                   [mkTerm 1 1 Public] BinaryDec in
  let s := newSparseR1CS (mkConstraintSystem 2 0 2 [r1c] [] pool4 []) in
  exists s' pre bits,
    r1cToPlonkConstraintBinary r1c s = Ok (tt, s') /\
    appended s s' (pre ++ bits) [] /\
    Forall (tagged SingleOutput) pre /\
    Forall (tagged BinaryDec) bits /\
    List.length bits = 2%nat.
Proof.
  cbv zeta.
  set (r1c := mkR1C [mkTerm 0 1 Internal; mkTerm 1 3 Internal] []
                    [mkTerm 1 1 Public] BinaryDec).
  set (s := newSparseR1CS (mkConstraintSystem 2 0 2 [r1c] [] pool4 [])).
  destruct (r1cToPlonkConstraintBinary r1c s) as [[[] s']|p|e] eqn:E;
    [|vm_compute in E; discriminate|vm_compute in E; discriminate].
  destruct (proj1 (solver_tags r1c s s') E) as (pre & bits & H).
  exists s', pre, bits. split; [reflexivity|exact H].
Defined.

(** C5 (the claim as stated fails).  Lowering the binary decomposition
    [b0 = x + 2] emits two gates: the one that folds the constant 2 of the O
    side into a fresh wire, tagged [SingleOutput], and the gate of the one
    bit, tagged [BinaryDec]. *)
Lemma binary_reduction_gate_is_SingleOutput :
  let r1c := mkR1C [mkTerm 0 1 Internal] []
                   [mkTerm 1 1 Public; mkTerm 0 3 Public] BinaryDec in
  let s := newSparseR1CS (mkConstraintSystem 2 0 1 [r1c] [] pool4 []) in
  exists s',
    r1cToPlonkConstraintBinary r1c s = Ok (tt, s') /\
    map Solver (Constraints (ccs s')) = [SingleOutput; BinaryDec].
Proof.
  cbv zeta. eexists. split; vm_compute; reflexivity.
Qed.

(** ** The gate identity on a constraint of shape [cL*cR = toSolve + o + cO] *)

Ltac eval_closed :=
  repeat match goal with
         | |- context [CoeffID (Zpos ?p)] =>
             let v := eval vm_compute in (CoeffID (Zpos p)) in
             change (CoeffID (Zpos p)) with v
         | |- context [VariableID (Zpos ?p)] =>
             let v := eval vm_compute in (VariableID (Zpos p)) in
             change (VariableID (Zpos p)) with v
         | |- context [CoeffID 0] => change (CoeffID 0) with 0
         | |- context [VariableID 0] => change (VariableID 0) with 0
         end.

(** C1 (fails on the code).  The constraint system with the single
    constraint [(1) * (1) = t + s] (case 1100, closure [f5]) is satisfied
    by [s = 0], [t = 1].  The pass lowers it to the one gate
    [s - t - 1 = 0]: the constant is negated while the term of [toSolve]
    keeps the sign it has in the other cases.  On every wire vector that
    carries the assignment the gate evaluates to -2, which is not 0 modulo
    any [q > 2]. *)
Theorem f5_gate_identity_fails :
  let one := mkTerm 0 1 Public in
  let cs := mkConstraintSystem 1 1 1
              [mkR1C [one] [one] [mkTerm 0 1 Internal; mkTerm 0 1 Secret]
                     SingleOutput]
              [] pool4 [] in
  let a := mkAssignment [1] [0] [1] in
  (forall q, satisfiesInput q cs a) /\
  exists res,
    convert cs = Ok res /\
    forall q x, 2 < q -> extends res a x ->
      ~ Forall (gateHolds q (coeffs res) x)
               (Constraints (ccs res) ++ Assertions (ccs res)).
Proof.
  cbv zeta. split.
  - intros q. unfold satisfiesInput, r1cHolds.
    split; [reflexivity|]. split; [|constructor].
    constructor; [|constructor].
    match goal with
    | |- ?v mod q = 0 => replace v with 0 by (vm_compute; reflexivity)
    end.
    apply Zmod_0_l.
  - eexists. split; [vm_compute; reflexivity|].
    intros q x Hq (_ & Hs & Hi) HF.
    cbn [coeffs ccs Constraints Assertions NbPublicVariables NbSecretVariables
         mCStoCCS app] in *.
    specialize (Hs 0 ltac:(lia)).
    specialize (Hi 0 ltac:(vm_compute; split; [discriminate|reflexivity])).
    change (zget (aSecret _) 0) with 0 in Hs.
    change (zget (aInternal _) 0) with 1 in Hi.
    change (zget [0] 0) with 0 in Hi.
    cbn [Z.add] in Hs, Hi.
    inversion HF as [|g gs Hg _]; subst.
    unfold gateHolds, gateValue in Hg. cbn [L R O M0 M1 K] in Hg.
    revert Hg. eval_closed.
    change (zget [0; 1; -1; 2] 0) with 0.
    change (zget [0; 1; -1; 2] 1) with 1.
    change (zget [0; 1; -1; 2] 2) with (-1).
    rewrite Hs, Hi.
    change (1 * 0 + 0 * 0 + 0 * 0 * 0 * 0 + -1 * 1 + -1) with (-2).
    intros Hg.
    apply Z.mod_divide in Hg; [|lia].
    apply Z.divide_opp_r in Hg. apply Z.divide_pos_le in Hg; lia.
Qed.

(** ** Where [splitR1C] records its gate *)

(** C6 (fails on the code).  The assertion [(s0) * (s1) = (s2)] has L, R
    and O all non-empty.  [splitR1C] hands its gate to [addConstraint]: the
    output has one gate in Constraints and none in Assertions, although the
    input has no constraint and one assertion.  An assertion with an empty
    O, [(s0) * (s1) = 0], is recorded in Assertions. *)
Theorem splitR1C_nonempty_case_lands_in_Constraints :
  let r1c := mkR1C [mkTerm 0 1 Secret] [mkTerm 1 1 Secret] [mkTerm 2 1 Secret]
                   SingleOutput in
  let r1c' := mkR1C [mkTerm 0 1 Secret] [mkTerm 1 1 Secret] [] SingleOutput in
  (exists res,
      convert (mkConstraintSystem 1 3 0 [] [r1c] pool4 []) = Ok res /\
      List.length (Constraints (ccs res)) = 1%nat /\
      Assertions (ccs res) = []) /\
  (exists res,
      convert (mkConstraintSystem 1 3 0 [] [r1c'] pool4 []) = Ok res /\
      Constraints (ccs res) = [] /\
      List.length (Assertions (ccs res)) = 1%nat).
Proof.
  cbv zeta. split; eexists; (split; [vm_compute; reflexivity|]);
    split; reflexivity.
Qed.

(** ** Completion of the binary-decomposition lowering *)

Lemma setVis_CoeffID t b :
  0 <= b < 2 ^ 2 ->
  CoeffID (Z.lor (Z.ldiff t maskVariableVisibility)
                 (Z.shiftl b shiftVariableVisibility)) = CoeffID t.
Proof.
  intros Hb. rewrite !CoeffID_mod. change shiftVariableVisibility with 62.
  rewrite maskVariableVisibility_ones.
  rewrite <- (Z.mod_small b (2 ^ 2)) by lia.
  Z.bitblast. rewrite (Z.testbit_neg_r b l0) by lia. simpl. btauto.
Qed.

Lemma setVis_VariableID t b :
  0 <= b < 2 ^ 2 ->
  VariableID (Z.lor (Z.ldiff t maskVariableVisibility)
                    (Z.shiftl b shiftVariableVisibility)) = VariableID t.
Proof.
  intros Hb. rewrite !VariableID_mod. change shiftVariableVisibility with 62.
  rewrite maskVariableVisibility_ones.
  Z.bitblast. rewrite (Z.testbit_neg_r b l) by lia. simpl. btauto.
Qed.

Lemma SetVariableVisibility_fields t v :
  CoeffID (SetVariableVisibility t v) = CoeffID t /\
  VariableID (SetVariableVisibility t v) = VariableID t.
Proof.
  destruct v; unfold SetVariableVisibility.
  - split; reflexivity.
  - split; [exact (setVis_CoeffID t variableInternal ltac:(cbv; intuition discriminate))
           |exact (setVis_VariableID t variableInternal ltac:(cbv; intuition discriminate))].
  - split; [exact (setVis_CoeffID t variableSecret ltac:(cbv; intuition discriminate))
           |exact (setVis_VariableID t variableSecret ltac:(cbv; intuition discriminate))].
  - split; [exact (setVis_CoeffID t variablePublic ltac:(cbv; intuition discriminate))
           |exact (setVis_VariableID t variablePublic ltac:(cbv; intuition discriminate))].
Qed.

Lemma Pack_fits v c vis :
  0 <= v < 2 ^ 29 -> 0 <= c < 2 ^ 30 ->
  exists t, Pack v c vis = Ok t /\ CoeffID t = c /\ VariableID t = v.
Proof.
  intros Hv Hc. unfold Pack.
  destruct (SetVariableID_fits 0 v Hv) as [t1 E1]. rewrite E1. cbn [obind].
  destruct (SetCoeffID_fits t1 c Hc) as [t2 E2]. rewrite E2. cbn [obind].
  eexists. split; [reflexivity|].
  destruct (SetVariableVisibility_fields t2 vis) as [-> ->].
  apply SetVariableID_Ok in E1 as (H1 & _). apply SetCoeffID_Ok in E2 as (H2 & H3 & _).
  split; congruence.
Qed.

Lemma step_refl s : step 0 0 s s.
Proof.
  unfold step. repeat split; try lia.
  exists []. split; [now rewrite app_nil_r|unfold zlen; cbn [List.length]; lia].
Qed.

Lemma step_trans k1 j1 k2 j2 s s1 s2 :
  step k1 j1 s s1 -> step k2 j2 s1 s2 -> step (k1 + k2) (j1 + j2) s s2.
Proof.
  intros ((e1 & E1 & L1) & N1 & M1 & S1) ((e2 & E2 & L2) & N2 & M2 & S2).
  unfold step. repeat split; try lia; try congruence.
  exists (e1 ++ e2). rewrite E2, E1, app_assoc, zlen_app. split; [reflexivity|lia].
Qed.

Lemma step_weaken k j k' j' s s' :
  step k j s s' -> k <= k' -> j <= j' -> step k' j' s s'.
Proof.
  intros ((e & E & L) & N & M & S) Hk Hj.
  unfold step. repeat split; try lia; try congruence.
  exists e. split; [exact E|lia].
Qed.

Lemma step_pool k j s s' :
  step k j s s' -> zlen (coeffs s) <= zlen (coeffs s') <= zlen (coeffs s) + k.
Proof.
  intros ((e & E & L) & _). rewrite E, zlen_app.
  pose proof (zlen_nonneg e). lia.
Qed.

Lemma validCoeff_step k j s s' t :
  step k j s s' -> validCoeff s t -> validCoeff s' t.
Proof. intros H. apply step_pool in H. unfold validCoeff. lia. Qed.

Lemma mapped_step k j s s' t : step k j s s' -> mapped s t -> mapped s' t.
Proof. intros (_ & _ & M & _) H Hi. rewrite M. auto. Qed.

Lemma coeffID_total b s :
  exists j s', coeffID b s = Ok (j, s') /\ step 1 0 s s' /\
               0 <= j <= zlen (coeffs s) /\ j < zlen (coeffs s').
Proof.
  destruct (coeffID_spec b s) as (j & s' & E & Hj & Hl & Hp & Hc & Hm & Hs).
  exists j, s'. split; [exact E|]. split; [|split; [exact Hj|]].
  - unfold step, NbInt. rewrite Hc, Hm, Hs. repeat split; try lia.
    destruct Hp as [->| ->].
    + exists []. split; [now rewrite app_nil_r|unfold zlen; cbn [List.length]; lia].
    + exists [b]. split; [reflexivity|unfold zlen; cbn [List.length]; lia].
  - apply zlookup_Some in Hl. lia.
Qed.

Lemma newTerm_total c s :
  zlen (coeffs s) < 2 ^ 30 -> 0 <= NbInt s < 2 ^ 29 ->
  exists t s', newTerm c None s = Ok (t, s') /\ step 1 1 s s' /\
               validCoeff s' t /\ VariableID t = NbInt s.
Proof.
  intros Hcap Hnb.
  destruct (coeffID_total c s) as (j & s1 & E & ((e & Ee & Le) & N1 & M1 & S1) & Hj & Hj').
  unfold NbInt in *.
  destruct (Pack_fits (NbInternalVariables (ccs s1)) j Internal) as (t & Et & Hc & Hv);
    [lia|lia|].
  unfold newTerm. unfold bind at 1. rewrite E.
  unfold bind, get, lift, put, ret. rewrite Et.
  eexists. eexists. split; [reflexivity|].
  unfold step, validCoeff, NbInt.
  cbn [set_ccs coeffs ccs mCStoCCS solvedVariables set_NbInternalVariables
       NbInternalVariables].
  repeat split; try lia; try congruence.
  exists e. auto.
Qed.

Lemma SetCoeffID_total t j s :
  0 <= j < zlen (coeffs s) -> zlen (coeffs s) <= 2 ^ 30 ->
  exists t', SetCoeffID t j = Ok t' /\ validCoeff s t'.
Proof.
  intros Hj Hcap. destruct (SetCoeffID_fits t j) as [t' Et']; [lia|].
  exists t'. split; [exact Et'|]. apply SetCoeffID_Ok in Et' as (H & _).
  unfold validCoeff. lia.
Qed.

Lemma negate_total t s :
  validCoeff s t -> zlen (coeffs s) < 2 ^ 30 ->
  exists t' s', negate t s = Ok (t', s') /\ step 1 0 s s' /\ validCoeff s' t'.
Proof.
  intros Hv Hcap. unfold negate. destruct (isZero t).
  - exists t, s. split; [reflexivity|]. split; [|exact Hv].
    apply (step_weaken 0 0); [apply step_refl|lia|lia].
  - unfold validCoeff in Hv.
    destruct (zlookup_in_range (coeffs s) (CoeffID t)) as [c Hc];
      [pose proof (CoeffID_range t); lia|].
    destruct (coeffID_total (- c) s) as (j & s1 & E & Hst & Hj & Hj').
    destruct (SetCoeffID_total t j s1) as (t' & Et' & Hv');
      [lia|apply step_pool in Hst; lia|].
    exists t', s1. unfold bind, get, lift, index. rewrite Hc, E, Et'. auto.
Qed.

Lemma multiply_total t c s :
  validCoeff s t -> zlen (coeffs s) < 2 ^ 30 ->
  (c = -1 -> 3 <= zlen (coeffs s)) ->
  exists t' s', multiply t c s = Ok (t', s') /\ step 1 0 s s' /\ validCoeff s' t'.
Proof.
  intros Hv Hcap Hm1.
  assert (Hsame : forall t', validCoeff s t' ->
            exists t'' s', ret t' s = Ok (t'', s') /\ step 1 0 s s' /\ validCoeff s' t'').
  { intros t' Ht'. exists t', s. split; [reflexivity|]. split; [|exact Ht'].
    apply (step_weaken 0 0); [apply step_refl|lia|lia]. }
  assert (Hset : forall j, 0 <= j < 3 -> 3 <= zlen (coeffs s) ->
            exists t'' s', lift (SetCoeffID t j) s = Ok (t'', s') /\
                           step 1 0 s s' /\ validCoeff s' t'').
  { intros j Hj Hp. destruct (SetCoeffID_total t j s) as (t' & Et' & Hv'); [lia|lia|].
    exists t', s. unfold lift. rewrite Et'. split; [reflexivity|]. split; [|exact Hv'].
    apply (step_weaken 0 0); [apply step_refl|lia|lia]. }
  assert (Hslow : exists t' s',
            (bind get (fun s0 => bind (lift (index (coeffs s0) (CoeffID t))) (fun x =>
             bind (coeffID (x * c)) (fun cID => lift (SetCoeffID t cID))))) s
            = Ok (t', s') /\ step 1 0 s s' /\ validCoeff s' t').
  { unfold validCoeff in Hv.
    destruct (zlookup_in_range (coeffs s) (CoeffID t)) as [x Hx];
      [pose proof (CoeffID_range t); lia|].
    destruct (coeffID_total (x * c) s) as (j & s1 & E & Hst & Hj & Hj').
    destruct (SetCoeffID_total t j s1) as (t' & Et' & Hv');
      [lia|apply step_pool in Hst; lia|].
    exists t', s1. unfold bind, get, lift, index. rewrite Hx, E, Et'. auto. }
  unfold multiply. unfold validCoeff in Hv. pose proof (CoeffID_range t) as Hr.
  destruct (c =? 0).
  { destruct (SetCoeffID_total t CoeffIdZero s) as (t' & Et' & Hv');
      [unfold CoeffIdZero; lia|lia|].
    exists t', s. unfold lift. rewrite Et'. split; [reflexivity|]. split; [|exact Hv'].
    apply (step_weaken 0 0); [apply step_refl|lia|lia]. }
  destruct (c =? 1); [now apply Hsame|].
  destruct (Z.eqb_spec c (-1)) as [Ec|]; [|exact Hslow].
  specialize (Hm1 Ec).
  destruct (Z.eqb_spec (CoeffID t) CoeffIdZero); [now apply Hsame|].
  destruct (Z.eqb_spec (CoeffID t) CoeffIdOne) as [E1|].
  { apply Hset; unfold CoeffIdMinusOne, CoeffIdOne in *; lia. }
  destruct (Z.eqb_spec (CoeffID t) CoeffIdMinusOne) as [E2|]; [|exact Hslow].
  apply Hset; unfold CoeffIdMinusOne, CoeffIdOne in *; lia.
Qed.

Lemma getCorrespondingTerm_total t s :
  mapped s t ->
  exists t', getCorrespondingTerm t s = Ok (t', s) /\ CoeffID t' = CoeffID t.
Proof.
  intros Hm. unfold getCorrespondingTerm. destruct (isInternal t) eqn:Ei.
  - destruct (Hm Ei) as (v & Hv & Hr).
    destruct (SetVariableID_fits t v Hr) as [t' Et'].
    exists t'. unfold bind, get, lift, index. rewrite Hv, Et'.
    split; [reflexivity|]. now apply SetVariableID_Ok in Et'.
  - exists t. split; reflexivity.
Qed.

Lemma addConstraint_total c s :
  exists s', addConstraint c s = Ok (tt, s') /\ step 0 0 s s'.
Proof.
  destruct (addConstraint_fix_spec c) as (c' & E & _).
  unfold addConstraint, bind, lift, get, put. rewrite E.
  eexists. split; [reflexivity|].
  unfold step, NbInt. cbn [set_ccs coeffs ccs mCStoCCS solvedVariables
                           set_Constraints NbInternalVariables].
  repeat split; try lia.
  exists []. split; [now rewrite app_nil_r|unfold zlen; cbn [List.length]; lia].
Qed.

Lemma popConstantTerm_total l s :
  Forall (validCoeff s) l ->
  exists r c, popConstantTerm l s = Ok ((r, c), s) /\
              incl r l /\ zlen r <= zlen l.
Proof.
  intros Hl. unfold popConstantTerm.
  assert (H : exists r c, popConstantTerm_loop (coeffs s) l = Ok (r, c) /\
                          incl r l /\ zlen r <= zlen l).
  { induction Hl as [|t l Ht _ IH]; cbn [popConstantTerm_loop].
    - exists [], 0. split; [reflexivity|]. split; [apply incl_refl|lia].
    - destruct (isOneWire t).
      + unfold validCoeff in Ht.
        destruct (zlookup_in_range (coeffs s) (CoeffID t)) as [c Hc];
          [pose proof (CoeffID_range t); lia|].
        unfold index. rewrite Hc. cbn [obind]. exists l, c.
        split; [reflexivity|]. split; [apply incl_tl, incl_refl|].
        unfold zlen. cbn [List.length]. lia.
      + destruct IH as (r & c & -> & Hi & Hz). cbn [obind]. exists (t :: r), c.
        split; [reflexivity|]. split.
        * intros x [->|Hx]; [now left|right; now apply Hi].
        * unfold zlen in *. cbn [List.length]. lia. }
  destruct H as (r & c & -> & Hi & Hz). cbn [obind]. eauto.
Qed.

Lemma split_total le : forall acc s,
  Forall (validCoeff s) le -> Forall (mapped s) le -> validCoeff s acc ->
  zlen (coeffs s) + 2 * zlen le <= 2 ^ 30 ->
  0 <= NbInt s -> NbInt s + zlen le <= 2 ^ 29 ->
  exists t s', split le acc s = Ok (t, s') /\
               step (2 * zlen le) (zlen le) s s' /\ validCoeff s' t.
Proof.
  induction le as [|t0 le IH]; intros acc s Hv Hm Ha Hcap Hn0 Hn.
  - exists acc, s. split; [reflexivity|]. split; [apply step_refl|exact Ha].
  - inversion Hv as [|? ? Hv0 Hv']; subst. inversion Hm as [|? ? Hm0 Hm']; subst.
    assert (Hz : zlen (t0 :: le) = zlen le + 1)
      by (unfold zlen; cbn [List.length]; lia).
    rewrite Hz in *. pose proof (zlen_nonneg le) as Hle.
    destruct (getCorrespondingTerm_total t0 s Hm0) as (t & Et & Hc).
    assert (Hvt : validCoeff s t) by (unfold validCoeff in *; lia).
    cbn [split]. destruct (isZero acc).
    + unfold bind at 1. rewrite Et.
      destruct (IH t s Hv' Hm' Hvt) as (r & s' & Er & Hst & Hr); try lia.
      exists r, s'. split; [exact Er|]. split; [|exact Hr].
      apply (step_weaken _ _ _ _ _ _ Hst); lia.
    + unfold bind at 1. rewrite Et.
      destruct (newTerm_total bOne s) as (o & s1 & Eo & Hst1 & Hvo & _); [lia|lia|].
      unfold bind at 1. rewrite Eo.
      destruct (addConstraint_total (withO (withR (withL gate0 acc) t) o) s1)
        as (s2 & Ea & Hst2).
      unfold bind at 1. rewrite Ea.
      pose proof (step_trans _ _ _ _ _ _ _ Hst1 Hst2) as Hst12.
      destruct (negate_total o s2) as (no & s3 & En & Hst3 & Hvn).
      { exact (validCoeff_step _ _ _ _ _ Hst2 Hvo). }
      { apply step_pool in Hst12. lia. }
      unfold bind at 1. rewrite En.
      pose proof (step_trans _ _ _ _ _ _ _ Hst12 Hst3) as Hst123.
      pose proof (step_pool _ _ _ _ Hst123) as Hp.
      assert (Hst0 := Hst123).
      destruct Hst123 as (He & Hnb & HM & HS).
      destruct (IH no s3) as (r & s' & Er & Hst & Hr); try lia.
      { eapply Forall_impl; [|exact Hv']. intros a. unfold validCoeff. lia. }
      { eapply Forall_impl; [|exact Hm']. intros a Hma Hi. rewrite HM. auto. }
      { exact Hvn. }
      exists r, s'. split; [exact Er|]. split; [|exact Hr].
      pose proof (step_trans _ _ _ _ _ _ _ Hst0 Hst) as Hfin.
      apply (step_weaken _ _ _ _ _ _ Hfin); lia.
Qed.

Lemma store_total {A} (l : list A) i x :
  0 <= i < zlen l -> exists l', store l i x = Ok l' /\ zlen l' = zlen l.
Proof.
  intros Hi. destruct (store l i x) as [l'|p|e] eqn:E.
  - exists l'. split; [reflexivity|]. now apply store_length in E.
  - exfalso. unfold store, zupdate in E.
    destruct (Z.ltb_spec i 0); [lia|].
    assert (Hn : forall (l : list A) n, (n < List.length l)%nat ->
                 update_nth l n x <> None).
    { clear. induction l as [|y l IH]; intros n Hn; [cbn [List.length] in Hn; lia|].
      destruct n as [|n]; cbn [update_nth]; [discriminate|].
      specialize (IH n ltac:(cbn [List.length] in Hn; lia)).
      destruct (update_nth l n x); [discriminate|congruence]. }
    specialize (Hn l (Z.to_nat i) ltac:(unfold zlen in Hi; lia)).
    destruct (update_nth l (Z.to_nat i) x); [discriminate|congruence].
  - unfold store in E. destruct (zupdate l i x); discriminate.
Qed.







(** ** A SingleOutput constraint with nothing to solve *)

Lemma popConstantTerm_loop_none pool l :
  Forall (fun t => isOneWire t = false) l ->
  popConstantTerm_loop pool l = Ok (l, 0).
Proof.
  induction 1 as [|t l Ht _ IH]; cbn [popConstantTerm_loop]; [reflexivity|].
  rewrite Ht, IH. reflexivity.
Qed.

Lemma popConstantTerm_loop_first pool pre t post :
  Forall (fun t => isOneWire t = false) pre -> isOneWire t = true ->
  popConstantTerm_loop pool (pre ++ t :: post)
  = obind (index pool (CoeffID t)) (fun c => Ok (pre ++ post, c)).
Proof.
  intros Hpre Ht. induction Hpre as [|u pre Hu _ IH]; cbn [app popConstantTerm_loop].
  - rewrite Ht. reflexivity.
  - rewrite Hu, IH. destruct (index pool (CoeffID t)); reflexivity.
Qed.

Lemma split_first_oneWire (l : LinearExpression) :
  Forall (fun t => isOneWire t = false) l \/
  exists pre t post, l = pre ++ t :: post /\
                     Forall (fun t => isOneWire t = false) pre /\ isOneWire t = true.
Proof.
  induction l as [|u l IH]; [left; constructor|].
  destruct (isOneWire u) eqn:E.
  - right. exists [], u, l. repeat split; auto.
  - destruct IH as [H|(pre & t & post & -> & Hpre & Ht)].
    + left. constructor; auto.
    + right. exists (u :: pre), t, post. repeat split; auto.
Qed.

Lemma isOneWire_not_internal t : isOneWire t = true -> isInternal t = false.
Proof.
  unfold isOneWire, isInternal. intros H. apply andb_true_iff in H as [_ H].
  destruct (VariableVisibility t); cbn in *; congruence.
Qed.

(** [popConstantTerm] removes at most the first ONE_WIRE term: what it
    returns is part of its argument and holds all its internal terms. *)
Lemma popConstantTerm_keeps l s r c s' :
  popConstantTerm l s = Ok ((r, c), s') ->
  s' = s /\ incl r l /\ (forall t, In t l -> isInternal t = true -> In t r).
Proof.
  unfold popConstantTerm. intros E.
  destruct (split_first_oneWire l) as [Hn|(pre & t & post & -> & Hpre & Ht)].
  - rewrite popConstantTerm_loop_none in E by assumption. cbn [obind] in E.
    injection E as <- _ <-. split; [reflexivity|]. split; [apply incl_refl|auto].
  - rewrite popConstantTerm_loop_first in E by assumption.
    destruct (index (coeffs s) (CoeffID t)); cbn [obind] in E; try discriminate.
    injection E as <- _ <-. split; [reflexivity|]. split.
    + intros x Hx. apply in_app_or in Hx as [Hx|Hx]; apply in_or_app;
        [now left|right; now right].
    + intros x Hx Hi. apply in_app_or in Hx as [Hx|[<-|Hx]]; apply in_or_app.
      * now left.
      * rewrite (isOneWire_not_internal _ Ht) in Hi. discriminate.
      * now right.
Qed.

Lemma update_nth_app {A} (done : list A) x pad v :
  update_nth (done ++ x :: pad) (List.length done) v = Some (done ++ v :: pad).
Proof.
  induction done as [|d done IH]; cbn [app List.length update_nth]; [reflexivity|].
  now rewrite IH.
Qed.

Lemma store_app {A} (done : list A) x pad v :
  store (done ++ x :: pad) (zlen done) v = Ok (done ++ v :: pad).
Proof.
  unfold store, zupdate, zlen.
  destruct (Z.ltb_spec (Z.of_nat (List.length done)) 0); [lia|].
  now rewrite Nat2Z.id, update_nth_app.
Qed.

(** The copying loop of [popInternalVariable], started on a slice with [k]
    free places: it copies the terms that are not the variable looked for
    and overruns the slice when they are more than [k]. *)
Lemma popInternalVariable_loop_spec id : forall l (done : list Term) k t,
  popInternalVariable_loop l id (done ++ repeat (0 : Term) k) (zlen done) t
  = if (List.length (keptTerms id l) <=? k)%nat
    then Ok (done ++ keptTerms id l ++ repeat 0 (k - List.length (keptTerms id l)),
             lastMatch id l t)
    else Panic IndexOutOfRange.
Proof.
  induction l as [|v l IH]; intros done k t.
  - cbn [popInternalVariable_loop keptTerms filter List.length app lastMatch fold_left].
    cbn [Nat.leb]. now rewrite Nat.sub_0_r.
  - cbn [popInternalVariable_loop]. unfold keptTerms, lastMatch.
    cbn [filter fold_left]. fold (matchesVar id v).
    destruct (matchesVar id v) eqn:Em; cbn [negb].
    + apply IH.
    + fold (keptTerms id l). cbn [List.length].
      destruct k as [|k].
      * cbn [repeat]. rewrite (app_nil_r done).
        rewrite (store_out_of_range done (zlen done) v) by apply Z.le_refl.
        reflexivity.
      * cbn [repeat]. rewrite store_app. cbn [obind].
        specialize (IH (done ++ [v]) k t).
        rewrite zlen_app, <- app_assoc in IH. cbn [app] in IH.
        change (zlen [v]) with 1 in IH. rewrite IH.
        fold (lastMatch id l t). cbn [Nat.leb Nat.sub].
        destruct (List.length (keptTerms id l) <=? k)%nat; [|reflexivity].
        now rewrite <- app_assoc.
Qed.

Lemma keptTerms_length id l :
  (List.length (keptTerms id l) <= List.length l)%nat.
Proof. unfold keptTerms. apply filter_length_le. Qed.

Lemma keptTerms_all id l :
  (forall v, In v l -> matchesVar id v = false) -> keptTerms id l = l.
Proof.
  induction l as [|v l IH]; intros H; [reflexivity|].
  unfold keptTerms. cbn [filter]. rewrite (H v (or_introl eq_refl)). cbn [negb].
  f_equal. apply IH. intros u Hu. apply H. now right.
Qed.

Lemma keptTerms_some id l v :
  In v l -> matchesVar id v = true ->
  (List.length (keptTerms id l) < List.length l)%nat.
Proof.
  induction l as [|u l IH]; intros Hin Hm; [destruct Hin|].
  unfold keptTerms. cbn [filter List.length].
  pose proof (keptTerms_length id l) as Hle. unfold keptTerms in Hle.
  destruct Hin as [->|Hin].
  - rewrite Hm. cbn [negb]. lia.
  - specialize (IH Hin Hm). unfold keptTerms in IH.
    destruct (negb (matchesVar id u)); cbn [List.length]; lia.
Qed.

Lemma keptTerms_incl id l : incl (keptTerms id l) l.
Proof. intros v Hv. unfold keptTerms in Hv. apply filter_In in Hv. exact (proj1 Hv). Qed.

Lemma lastMatch_in id l : forall t v,
  In v l -> matchesVar id v = true ->
  In (lastMatch id l t) l /\ matchesVar id (lastMatch id l t) = true.
Proof.
  induction l as [|u l IH]; intros t v Hin Hm; [destruct Hin|].
  unfold lastMatch. cbn [fold_left].
  assert (Hkeep : forall w, (forall x, In x l -> matchesVar id x = false) ->
                            lastMatch id l w = w).
  { clear. induction l as [|x l IH]; intros w H; [reflexivity|].
    unfold lastMatch. cbn [fold_left]. rewrite (H x (or_introl eq_refl)).
    apply IH. intros y Hy. apply H. now right. }
  assert (Hdec : (forall x, In x l -> matchesVar id x = false) \/
                 exists x, In x l /\ matchesVar id x = true).
  { clear. induction l as [|x l IH]; [left; intros ? []|].
    destruct (matchesVar id x) eqn:E; [right; exists x; split; [now left|auto]|].
    destruct IH as [H|(y & Hy & Hm)].
    - left. intros z [<-|Hz]; auto.
    - right. exists y. split; [now right|auto]. }
  destruct Hdec as [Hnone|(x & Hx & Hxm)].
  - destruct Hin as [->|Hin]; [|rewrite (Hnone v Hin) in Hm; discriminate].
    rewrite Hm. fold (lastMatch id l v). rewrite (Hkeep v Hnone).
    split; [now left|exact Hm].
  - match goal with |- In (fold_left _ l ?w) _ /\ _ =>
      fold (lastMatch id l w); destruct (IH w x Hx Hxm) as [H1 H2] end.
    split; [now right|exact H2].
Qed.

Lemma popInternalVariable_none id l :
  (forall v, In v l -> matchesVar id v = false) ->
  exists p, popInternalVariable l id = Panic p.
Proof.
  intros Hno. unfold popInternalVariable.
  destruct (Z.ltb_spec (zlen l - 1) 0) as [H|H]; [eauto|].
  pose proof (popInternalVariable_loop_spec id l [] (List.length l - 1) 0) as Hs.
  cbn [app] in Hs. change (zlen (@nil Term)) with 0 in Hs.
  exists IndexOutOfRange. refine (eq_trans Hs _).
  rewrite (keptTerms_all id l Hno).
  replace (List.length l <=? List.length l - 1)%nat with false; [reflexivity|].
  symmetry. apply Nat.leb_gt. unfold zlen in H. lia.
Qed.

Lemma popInternalVariable_some id l v :
  In v l -> matchesVar id v = true ->
  exists m, (S m + List.length (keptTerms id l))%nat = List.length l /\
            popInternalVariable l id
            = Ok (keptTerms id l ++ repeat 0 m, lastMatch id l 0).
Proof.
  intros Hin Hm. pose proof (keptTerms_some id l v Hin Hm) as Hlt.
  exists (List.length l - 1 - List.length (keptTerms id l))%nat.
  split; [lia|]. unfold popInternalVariable.
  destruct (Z.ltb_spec (zlen l - 1) 0) as [H|_]; [unfold zlen in H; lia|].
  pose proof (popInternalVariable_loop_spec id l [] (List.length l - 1) 0) as Hs.
  cbn [app] in Hs. change (zlen (@nil Term)) with 0 in Hs.
  refine (eq_trans Hs _).
  replace (List.length (keptTerms id l) <=? List.length l - 1)%nat with true
    by (symmetry; apply Nat.leb_le; lia).
  reflexivity.
Qed.

(** *** No error value *)

Lemma noError_Ok {A} (a : A) : noError (Ok a).
Proof. intros e. discriminate. Qed.

Lemma noError_Panic {A} p : noError (@Panic A p).
Proof. intros e. discriminate. Qed.

Lemma noError_obind {A B} (x : outcome A) (f : A -> outcome B) :
  noError x -> (forall a, noError (f a)) -> noError (obind x f).
Proof.
  intros Hx Hf. destruct x as [a|p|e]; cbn [obind].
  - apply Hf.
  - apply noError_Panic.
  - destruct (Hx e eq_refl).
Qed.

Lemma noError_index {A} (l : list A) i : noError (index l i).
Proof. unfold index. destruct (zlookup l i); intros e; discriminate. Qed.

Lemma noError_store {A} (l : list A) i x : noError (store l i x).
Proof. unfold store. destruct (zupdate l i x); intros e; discriminate. Qed.

Lemma noError_SetVariableID t v : noError (SetVariableID t v).
Proof. unfold SetVariableID. destruct (fitsVariableID v); intros e; discriminate. Qed.

Lemma noError_SetCoeffID t c : noError (SetCoeffID t c).
Proof. unfold SetCoeffID. destruct (fitsCoeffID c); intros e; discriminate. Qed.

Lemma noError_Pack v c vis : noError (Pack v c vis).
Proof.
  unfold Pack. apply noError_obind; [apply noError_SetVariableID|intros t].
  apply noError_obind; [apply noError_SetCoeffID|intros t']. apply noError_Ok.
Qed.

Lemma noError_scanUnsolved le solved : forall id, noError (scanUnsolved le solved id).
Proof.
  induction le as [|t le IH]; intros id; cbn [scanUnsolved]; [apply noError_Ok|].
  destruct (negb (isInternal t)); [apply IH|].
  apply noError_obind; [apply noError_index|intros b].
  destruct (negb b); [apply noError_Ok|apply IH].
Qed.

Lemma noError_findUnsolvedVariable r1c solved :
  noError (findUnsolvedVariable r1c solved).
Proof.
  unfold findUnsolvedVariable.
  repeat first [ apply noError_scanUnsolved | apply noError_Ok
               | apply noError_obind; [|intros [[] ?]] ].
Qed.

Lemma noError_popInternalVariable_loop id l : forall _l c t,
  noError (popInternalVariable_loop l id _l c t).
Proof.
  induction l as [|v l IH]; intros _l c t; cbn [popInternalVariable_loop];
    [apply noError_Ok|].
  destruct (isInternal v && (VariableID v =? id)); [apply IH|].
  apply noError_obind; [apply noError_store|intros _l']. apply IH.
Qed.

Lemma noError_popInternalVariable l id : noError (popInternalVariable l id).
Proof.
  unfold popInternalVariable. destruct (zlen l - 1 <? 0);
    [apply noError_Panic|apply noError_popInternalVariable_loop].
Qed.

Lemma noErr_ret {A} (a : A) : noErr (ret a).
Proof. intros s e. discriminate. Qed.

Lemma noErr_get : noErr get.
Proof. intros s e. discriminate. Qed.

Lemma noErr_put s0 : noErr (put s0).
Proof. intros s e. discriminate. Qed.

Lemma noErr_lift {A} (x : outcome A) : noError x -> noErr (lift x).
Proof.
  intros Hx s e. unfold lift. destruct x as [a|p|e']; try discriminate.
  destruct (Hx e' eq_refl).
Qed.

Lemma noErr_bind {A B} (m : M A) (f : A -> M B) :
  noErr m -> (forall a, noErr (f a)) -> noErr (bind m f).
Proof.
  intros Hm Hf s e. unfold bind. destruct (m s) as [[a s1]|p|e'] eqn:E.
  - apply Hf.
  - discriminate.
  - destruct (Hm s e' E).
Qed.

Lemma noErr_coeffID b : noErr (coeffID b).
Proof. intros s e. unfold coeffID. destruct (findCoeff (coeffs s) b 0); discriminate. Qed.

Lemma noErr_popConstantTerm l : noErr (popConstantTerm l).
Proof.
  intros s e. destruct (popConstantTerm_cases l s) as [[r ->]|[p ->]]; discriminate.
Qed.

Lemma noErr_addConstraint c : noErr (addConstraint c).
Proof.
  intros s e. destruct (addConstraint_total c s) as (s' & -> & _). discriminate.
Qed.

Ltac noErr_prim :=
  first [ apply noErr_ret | apply noErr_get | apply noErr_put
        | apply noErr_coeffID | apply noErr_popConstantTerm
        | apply noErr_addConstraint
        | apply noErr_lift;
          first [ apply noError_index | apply noError_store
                | apply noError_SetVariableID | apply noError_SetCoeffID
                | apply noError_Pack | apply noError_findUnsolvedVariable ] ].

Ltac noErr_tac :=
  repeat first [ noErr_prim
               | apply noErr_bind; [|intros ?]
               | match goal with
                 | |- noErr (match ?x with pair _ _ => _ end) => destruct x
                 | |- noErr (match ?x with Some _ => _ | None => _ end) => destruct x
                 | |- noErr (if ?b then _ else _) => destruct b
                 end ].

Lemma noErr_newTerm c idCS : noErr (newTerm c idCS).
Proof. unfold newTerm. noErr_tac. Qed.

Lemma noErr_negate t : noErr (negate t).
Proof. unfold negate. noErr_tac. Qed.

Lemma noErr_multiply t c : noErr (multiply t c).
Proof. unfold multiply. noErr_tac. Qed.

Lemma noErr_getCorrespondingTerm t : noErr (getCorrespondingTerm t).
Proof. unfold getCorrespondingTerm. noErr_tac. Qed.

Lemma noErr_split le : forall acc, noErr (split le acc).
Proof.
  induction le as [|t0 le IH]; intros acc; cbn [split]; [apply noErr_ret|].
  destruct (isZero acc);
    repeat first [ apply IH | apply noErr_getCorrespondingTerm | apply noErr_newTerm
                 | apply noErr_negate | noErr_prim | apply noErr_bind; [|intros ?] ].
Qed.

Ltac noErr_ops :=
  repeat first [ apply noErr_split | apply noErr_newTerm | apply noErr_negate
               | apply noErr_multiply | noErr_prim
               | apply noErr_bind; [|intros ?] ].

Lemma noErr_dispatch l r o cL cR cO cS idCS b1 b2 b3 b4 :
  noErr (dispatch l r o cL cR cO cS idCS b1 b2 b3 b4).
Proof.
  destruct b1, b2, b3, b4; cbn [dispatch];
    unfold f1, f2, f3, f4, f5, f6, f7, f8, f9, f10, f11, f12, f13, f14, f15, f16;
    noErr_ops.
Qed.

Lemma noErr_singleOutput r1c : noErr (r1cToPlonkConstraintSingleOutput r1c).
Proof.
  unfold r1cToPlonkConstraintSingleOutput.
  apply noErr_bind; [apply noErr_get|intros s0].
  apply noErr_bind; [noErr_prim|intros [lro idCS]].
  destruct (lro =? 1).
  all: repeat first
         [ apply noErr_dispatch
         | noErr_prim
         | apply noErr_lift;
           match goal with
           | |- noError (if ?b then _ else _) => destruct b
           end;
           (apply noError_obind;
            [apply noError_popInternalVariable|intros [? ?]; apply noError_Ok])
         | apply noErr_bind; [|intros ?]
         | match goal with
           | |- noErr (match ?x with pair _ _ => _ end) => destruct x
           end ].
Qed.

(** *** The cases for an unknown in O run to their end *)

Lemma zlookup_store {A} (l l' : list A) i x :
  store l i x = Ok l' -> zlookup l' i = Some x.
Proof.
  unfold store, zupdate, zlookup. destruct (i <? 0); [discriminate|].
  generalize (Z.to_nat i). clear i. intros n. revert l l'.
  induction n as [|n IH]; intros l l' H; destruct l as [|y l]; cbn [update_nth] in H;
    try discriminate.
  - injection H as <-. reflexivity.
  - destruct (update_nth l n x) as [r|] eqn:E; [|discriminate].
    injection H as <-. cbn [nth_error]. apply (IH l r). now rewrite E.
Qed.

Lemma newTerm_Some_total c id s :
  zlen (coeffs s) < 2 ^ 30 -> 0 <= NbInt s < 2 ^ 29 ->
  0 <= id < zlen (mCStoCCS s) ->
  exists t s', newTerm c (Some id) s = Ok (t, s') /\ relowered id s s'.
Proof.
  intros Hcap Hnb Hid.
  destruct (coeffID_total c s) as (j & s1 & E & ((e & Ee & Le) & N1 & M1 & S1) & Hj & Hj').
  unfold NbInt in *.
  destruct (Pack_fits (NbInternalVariables (ccs s1)) j Internal) as (t & Et & Hc & Hv);
    [lia|lia|].
  destruct (store_total (mCStoCCS s1) id (NbInternalVariables (ccs s1)))
    as (m & Em & Hm); [rewrite M1; lia|].
  unfold newTerm. unfold bind at 1. rewrite E.
  unfold bind, get, lift, put, ret. rewrite Et.
  cbn [set_ccs mCStoCCS]. rewrite Em.
  eexists. eexists. split; [reflexivity|].
  unfold relowered, NbInt.
  cbn [set_ccs set_mCStoCCS coeffs ccs mCStoCCS solvedVariables
       set_NbInternalVariables NbInternalVariables].
  split; [exact S1|]. exists (NbInternalVariables (ccs s1)).
  split; [exact (zlookup_store _ _ _ _ Em)|lia].
Qed.

Lemma relowered_after k j id s0 s s1 :
  step k j s0 s -> relowered id s s1 -> relowered id s0 s1.
Proof.
  intros (_ & N & _ & S) (S1 & v & Hv & Hr). unfold relowered.
  split; [congruence|]. exists v. split; [exact Hv|lia].
Qed.

Lemma relowered_step k j id s0 s1 s2 :
  relowered id s0 s1 -> step k j s1 s2 -> relowered id s0 s2.
Proof.
  intros (S1 & v & Hv & Hr) (_ & N & M & S). unfold relowered.
  split; [congruence|]. exists v. rewrite M. split; [exact Hv|lia].
Qed.

Lemma Forall_validCoeff_step k j s s' (l : list Term) :
  step k j s s' -> Forall (validCoeff s) l -> Forall (validCoeff s') l.
Proof.
  intros H. apply Forall_impl. intros t. exact (validCoeff_step _ _ _ _ _ H).
Qed.

Lemma Forall_mapped_step k j s s' (l : list Term) :
  step k j s s' -> Forall (mapped s) l -> Forall (mapped s') l.
Proof.
  intros H. apply Forall_impl. intros t. exact (mapped_step _ _ _ _ _ H).
Qed.

Lemma validCoeff_0 s : 1 <= zlen (coeffs s) -> validCoeff s 0.
Proof. unfold validCoeff. change (CoeffID 0) with 0. lia. Qed.

Lemma mapped_0 s : mapped s 0.
Proof. intros H. discriminate H. Qed.

Section SingleOutputTotal.

Variables (l r o : LinearExpression) (cL cR cO cS idCS : Z) (s0 : sparseR1CS).
Hypothesis HvL : Forall (validCoeff s0) l.
Hypothesis HvR : Forall (validCoeff s0) r.
Hypothesis HvO : Forall (validCoeff s0) o.
Hypothesis HmL : Forall (mapped s0) l.
Hypothesis HmR : Forall (mapped s0) r.
Hypothesis HmO : Forall (mapped s0) o.
Hypothesis Hres : 3 <= zlen (coeffs s0).
Hypothesis Hcap :
  zlen (coeffs s0) + 2 * (zlen l + zlen r + zlen o) + 5 <= 2 ^ 30.
Hypothesis Hnb0 : 0 <= NbInt s0.
Hypothesis Hnb : NbInt s0 + (zlen l + zlen r + zlen o) + 2 <= 2 ^ 29.
Hypothesis Hid : 0 <= idCS < zlen (mCStoCCS s0).

Ltac numeric Hcum :=
  let Hp := fresh in
  pose proof (step_pool _ _ _ _ Hcum) as Hp;
  let Hn := fresh in let HM := fresh in
  destruct Hcum as (_ & Hn & HM & _);
  pose proof (zlen_nonneg l); pose proof (zlen_nonneg r); pose proof (zlen_nonneg o);
  try rewrite HM; intros; lia.

Ltac side Hcum :=
  first [ assumption
        | exact (Forall_validCoeff_step _ _ _ _ _ Hcum HvL)
        | exact (Forall_validCoeff_step _ _ _ _ _ Hcum HvR)
        | exact (Forall_validCoeff_step _ _ _ _ _ Hcum HvO)
        | exact (Forall_mapped_step _ _ _ _ _ Hcum HmL)
        | exact (Forall_mapped_step _ _ _ _ _ Hcum HmR)
        | exact (Forall_mapped_step _ _ _ _ _ Hcum HmO)
        | apply validCoeff_0; numeric Hcum
        | numeric Hcum ].

Ltac advance Hcum Hst :=
  lazymatch type of Hst with
  | step _ _ ?s ?s1 =>
      repeat match goal with
             | H : validCoeff s _ |- _ => apply (validCoeff_step _ _ _ _ _ Hst) in H
             end;
      let H' := fresh "Hc" in
      pose proof (step_trans _ _ _ _ _ _ _ Hcum Hst) as H';
      clear Hcum Hst; rename H' into Hcum
  end.

Ltac op Hcum :=
  let t := fresh "t" in
  let s1 := fresh "s" in
  let E := fresh "E" in
  let Hst := fresh "Hst" in
  let Hv := fresh "Hv" in
  lazymatch goal with
  | |- exists s', bind (split ?le ?acc) _ ?s = _ /\ _ =>
      destruct (split_total le acc s) as (t & s1 & E & Hst & Hv);
      [side Hcum ..|]
  | |- exists s', bind (multiply ?u ?c) _ ?s = _ /\ _ =>
      destruct (multiply_total u c s) as (t & s1 & E & Hst & Hv);
      [side Hcum ..|]
  | |- exists s', bind (negate ?u) _ ?s = _ /\ _ =>
      destruct (negate_total u s) as (t & s1 & E & Hst & Hv);
      [side Hcum ..|]
  | |- exists s', bind (coeffID ?b) _ ?s = _ /\ _ =>
      destruct (coeffID_total b s) as (t & s1 & E & Hst & Hv)
  | |- exists s', bind (newTerm ?c None) _ ?s = _ /\ _ =>
      destruct (newTerm_total c s) as (t & s1 & E & Hst & Hv & _);
      [side Hcum ..|]
  | |- exists s', bind (addConstraint ?c) _ ?s = _ /\ _ =>
      destruct (addConstraint_total c s) as (s1 & E & Hst)
  end;
  unfold bind at 1; rewrite E; cbv beta iota; advance Hcum Hst.

(** The end of each case: the new term for the variable to solve, then a
    coefficient and the gate. *)
Ltac close Hcum :=
  lazymatch goal with
  | |- exists s', bind (newTerm ?c (Some ?id)) _ ?s = _ /\ _ =>
      let t := fresh "t" in
      let s1 := fresh "s" in
      let E := fresh "E" in
      let Hre := fresh "Hre" in
      destruct (newTerm_Some_total c id s) as (t & s1 & E & Hre);
      [numeric Hcum ..|];
      apply (relowered_after _ _ _ _ _ _ Hcum) in Hre;
      unfold bind at 1; rewrite E; cbv beta iota;
      repeat lazymatch goal with
        | |- exists s', bind (coeffID ?b) _ ?s = _ /\ _ =>
            let j := fresh "j" in
            let s2 := fresh "s" in
            let E2 := fresh "E" in
            let Hst := fresh "Hst" in
            destruct (coeffID_total b s) as (j & s2 & E2 & Hst & _);
            unfold bind at 1; rewrite E2; cbv beta iota;
            apply (fun H => relowered_step _ _ _ _ _ _ H Hst) in Hre
        end;
      lazymatch goal with
      | |- exists s', addConstraint ?g ?s = _ /\ _ =>
          let s2 := fresh "s" in
          let E2 := fresh "E" in
          let Hst := fresh "Hst" in
          destruct (addConstraint_total g s) as (s2 & E2 & Hst);
          exists s2; split; [exact E2|exact (relowered_step _ _ _ _ _ _ Hre Hst)]
      end
  end.

Ltac start :=
  pose proof (step_refl s0) as Hcum.

Lemma f1_total :
  exists s', f1 cL cR cO cS idCS s0 = Ok (tt, s') /\ relowered idCS s0 s'.
Proof. start. unfold f1. op Hcum. close Hcum. Qed.

Lemma f2_total :
  exists s', f2 r cL cR cO cS idCS s0 = Ok (tt, s') /\ relowered idCS s0 s'.
Proof. start. unfold f2. do 3 op Hcum. close Hcum. Qed.

Lemma f3_total :
  exists s', f3 l cL cR cO cS idCS s0 = Ok (tt, s') /\ relowered idCS s0 s'.
Proof. start. unfold f3. do 2 op Hcum. close Hcum. Qed.

Lemma f4_total :
  exists s', f4 l r cL cR cO cS idCS s0 = Ok (tt, s') /\ relowered idCS s0 s'.
Proof. start. unfold f4. do 5 op Hcum. close Hcum. Qed.

Lemma f5_total :
  exists s', f5 o cL cR cO cS idCS s0 = Ok (tt, s') /\ relowered idCS s0 s'.
Proof. start. unfold f5. do 2 op Hcum. close Hcum. Qed.

Lemma f6_total :
  exists s', f6 r o cL cR cO cS idCS s0 = Ok (tt, s') /\ relowered idCS s0 s'.
Proof. start. unfold f6. do 5 op Hcum. close Hcum. Qed.

Lemma f7_total :
  exists s', f7 l o cL cR cO cS idCS s0 = Ok (tt, s') /\ relowered idCS s0 s'.
Proof. start. unfold f7. do 5 op Hcum. close Hcum. Qed.

Lemma f8_total :
  exists s', f8 l r o cL cR cO cS idCS s0 = Ok (tt, s') /\ relowered idCS s0 s'.
Proof. start. unfold f8. do 8 op Hcum. close Hcum. Qed.

Lemma dispatch_inO_total b2 b3 b4 :
  exists s', dispatch l r o cL cR cO cS idCS true b2 b3 b4 s0 = Ok (tt, s') /\
             relowered idCS s0 s'.
Proof.
  destruct b2, b3, b4; cbn [dispatch].
  - apply f8_total.
  - apply f7_total.
  - apply f6_total.
  - apply f5_total.
  - apply f4_total.
  - apply f3_total.
  - apply f2_total.
  - apply f1_total.
Qed.

End SingleOutputTotal.

(** *** The call on a constraint whose terms are all settled *)

Lemma store_same {A} (l : list A) i x :
  zlookup l i = Some x -> store l i x = Ok l.
Proof.
  unfold store, zupdate, zlookup. destruct (i <? 0); [discriminate|].
  generalize (Z.to_nat i). clear i. intros n. revert l.
  induction n as [|n IH]; intros l H; destruct l as [|y l]; cbn [nth_error] in H;
    try discriminate; cbn [update_nth].
  - injection H as ->. reflexivity.
  - specialize (IH l H). destruct (update_nth l n x); [|discriminate].
    injection IH as ->. reflexivity.
Qed.

Lemma matchesVar_true id t :
  matchesVar id t = true <-> isInternal t = true /\ VariableID t = id.
Proof.
  unfold matchesVar. rewrite andb_true_iff, Z.eqb_eq. reflexivity.
Qed.

Lemma matchesVar_false id t :
  (isInternal t = true -> VariableID t <> id) -> matchesVar id t = false.
Proof.
  intros H. unfold matchesVar. destruct (isInternal t); [|reflexivity].
  cbn [andb]. apply Z.eqb_neq. auto.
Qed.

Lemma zlen_repeat {A} (x : A) n : zlen (repeat x n) = Z.of_nat n.
Proof. unfold zlen. now rewrite repeat_length. Qed.

(** The call on a constraint whose terms are all settled, up to the case
    switch: the branch for an unknown in O is taken with the ID left by
    [findUnsolvedVariable]. *)
Lemma singleOutput_settled_run r1c s :
  Forall (settled (solvedVariables s)) (R1C_L r1c ++ R1C_R r1c ++ R1C_O r1c) ->
  r1cToPlonkConstraintSingleOutput r1c s
  = ('(l, cL) <- popConstantTerm (R1C_L r1c) ;;
     '(r, cR) <- popConstantTerm (R1C_R r1c) ;;
     '(o, cO) <- popConstantTerm (R1C_O r1c) ;;
     '(l, o, toSolve) <-
        lift (obind (popInternalVariable o
                       (lastInternalID (R1C_L r1c ++ R1C_R r1c ++ R1C_O r1c) (-1)))
                    (fun '(o', t) => Ok (l, o', t))) ;;
     s1 <- get ;;
     cS <- lift (index (coeffs s1) (CoeffID toSolve)) ;;
     dispatch l r o cL cR cO cS
              (lastInternalID (R1C_L r1c ++ R1C_R r1c ++ R1C_O r1c) (-1))
              true (nonEmpty o) (nonEmpty l) (nonEmpty r) ;;;
     s2 <- get ;;
     sv <- lift (store (solvedVariables s2)
                   (lastInternalID (R1C_L r1c ++ R1C_R r1c ++ R1C_O r1c) (-1)) true) ;;
     put (set_solvedVariables s2 sv)) s.
Proof.
  intros H. unfold r1cToPlonkConstraintSingleOutput.
  unfold bind at 1. unfold get at 1. cbv beta iota.
  unfold bind at 1. unfold lift at 1.
  rewrite (findUnsolvedVariable_settled _ _ H). cbv beta iota.
  change (-1 =? 1) with false. change (-1 =? 0) with false. cbv beta iota.
  reflexivity.
Qed.

Lemma singleOutput_settled_panics r1c s :
  Forall (settled (solvedVariables s)) (R1C_L r1c ++ R1C_R r1c ++ R1C_O r1c) ->
  (forall t, In t (R1C_O r1c) -> isInternal t = true ->
             VariableID t <> lastInternalID (R1C_L r1c ++ R1C_R r1c ++ R1C_O r1c) (-1)) ->
  exists p, r1cToPlonkConstraintSingleOutput r1c s = Panic p.
Proof.
  intros Hs Hno. rewrite (singleOutput_settled_run _ _ Hs).
  unfold bind at 1.
  destruct (popConstantTerm_cases (R1C_L r1c) s) as [[[l cL] ->]|[p ->]]; [|eauto].
  cbv beta iota. unfold bind at 1.
  destruct (popConstantTerm_cases (R1C_R r1c) s) as [[[r cR] ->]|[p ->]]; [|eauto].
  cbv beta iota. unfold bind at 1.
  destruct (popConstantTerm_cases (R1C_O r1c) s) as [[[o cO] Eo]|[p ->]]; [|eauto].
  rewrite Eo. cbv beta iota. unfold bind at 1. unfold lift at 1.
  apply popConstantTerm_keeps in Eo as (_ & Hincl & _).
  destruct (popInternalVariable_none
              (lastInternalID (R1C_L r1c ++ R1C_R r1c ++ R1C_O r1c) (-1)) o) as [p ->].
  { intros v Hv. apply matchesVar_false. apply Hno, Hincl, Hv. }
  cbn [obind]. eauto.
Qed.

Lemma singleOutput_settled_returns r1c s :
  Forall (settled (solvedVariables s)) (R1C_L r1c ++ R1C_R r1c ++ R1C_O r1c) ->
  wfSingle s r1c ->
  (exists t, In t (R1C_O r1c) /\ isInternal t = true /\
             VariableID t = lastInternalID (R1C_L r1c ++ R1C_R r1c ++ R1C_O r1c) (-1)) ->
  exists s', r1cToPlonkConstraintSingleOutput r1c s = Ok (tt, s') /\
             relowered (lastInternalID (R1C_L r1c ++ R1C_R r1c ++ R1C_O r1c) (-1)) s s'.
Proof.
  intros Hs (Hv & Hm & Hres & Hcap & Hnb0 & Hnb) (t & Ht & Hti & Htv).
  rewrite (singleOutput_settled_run _ _ Hs).
  set (id := lastInternalID (R1C_L r1c ++ R1C_R r1c ++ R1C_O r1c) (-1)) in *.
  cbv zeta in Hv, Hm, Hcap, Hnb.
  rewrite !zlen_app in Hcap, Hnb.
  apply Forall_app in Hv as [HvL Hv]. apply Forall_app in Hv as [HvR HvO].
  apply Forall_app in Hm as [HmL Hm]. apply Forall_app in Hm as [HmR HmO].
  destruct (popConstantTerm_total _ s HvL) as (l & cL & El & Hil & Hzl).
  destruct (popConstantTerm_total _ s HvR) as (r & cR & Er & Hir & Hzr).
  destruct (popConstantTerm_total _ s HvO) as (o & cO & Eo & Hio & Hzo).
  unfold bind at 1. rewrite El. cbv beta iota.
  unfold bind at 1. rewrite Er. cbv beta iota.
  unfold bind at 1. rewrite Eo. cbv beta iota.
  pose proof (popConstantTerm_keeps _ _ _ _ _ Eo) as (_ & _ & Hkeep).
  assert (Hto : In t o) by (apply Hkeep; assumption).
  assert (Htm : matchesVar id t = true) by (apply matchesVar_true; auto).
  destruct (popInternalVariable_some id o t Hto Htm) as (m & Hlen & Ep).
  destruct (lastMatch_in id o 0 t Hto Htm) as [Hlin Hlm].
  unfold bind at 1. unfold lift at 1. rewrite Ep. cbn [obind]. cbv beta iota.
  unfold bind at 1. unfold get at 1. cbv beta iota.
  (* the coefficient of toSolve *)
  rewrite Forall_forall in HvO.
  pose proof (HvO _ (Hio _ Hlin)) as Hvt. unfold validCoeff in Hvt.
  destruct (zlookup_in_range (coeffs s) (CoeffID (lastMatch id o 0))) as [cS HcS];
    [pose proof (CoeffID_range (lastMatch id o 0)); lia|].
  unfold bind at 1. unfold lift at 1. unfold index. rewrite HcS. cbv beta iota.
  (* the case switch *)
  rewrite Forall_forall in Hs, HmO, HmL, HmR, HvL, HvR.
  assert (HinO : In t (R1C_L r1c ++ R1C_R r1c ++ R1C_O r1c))
    by (apply in_or_app; right; apply in_or_app; now right).
  pose proof (Hs t HinO Hti) as Hsolved. rewrite Htv in Hsolved.
  destruct (HmO t Ht Hti) as (v0 & Hv0 & _). rewrite Htv in Hv0.
  apply zlookup_Some in Hv0.
  assert (Hzo' : zlen (keptTerms id o ++ repeat 0 m) = zlen o - 1).
  { rewrite zlen_app, zlen_repeat. unfold zlen. lia. }
  destruct (dispatch_inO_total l r (keptTerms id o ++ repeat 0 m) cL cR cO cS id s)
    with (b2 := nonEmpty (keptTerms id o ++ repeat 0 m))
         (b3 := nonEmpty l) (b4 := nonEmpty r)
    as (s2 & Ed & Hre).
  - apply Forall_forall. intros x Hx. apply HvL, Hil, Hx.
  - apply Forall_forall. intros x Hx. apply HvR, Hir, Hx.
  - apply Forall_forall. intros x Hx. apply in_app_or in Hx as [Hx|Hx].
    + apply HvO, Hio. exact (keptTerms_incl _ _ _ Hx).
    + apply repeat_spec in Hx. subst x. apply validCoeff_0. lia.
  - apply Forall_forall. intros x Hx. apply HmL, Hil, Hx.
  - apply Forall_forall. intros x Hx. apply HmR, Hir, Hx.
  - apply Forall_forall. intros x Hx. apply in_app_or in Hx as [Hx|Hx].
    + apply HmO, Hio. exact (keptTerms_incl _ _ _ Hx).
    + apply repeat_spec in Hx. subst x. apply mapped_0.
  - exact Hres.
  - rewrite Hzo'. lia.
  - exact Hnb0.
  - rewrite Hzo'. lia.
  - exact Hv0.
  - unfold bind at 1. rewrite Ed. cbv beta iota.
    destruct Hre as (HS & v & Hv' & Hr).
    unfold bind, get, lift, put. rewrite HS, (store_same _ _ _ Hsolved).
    eexists. split; [reflexivity|].
    unfold relowered, NbInt. cbn [set_solvedVariables solvedVariables mCStoCCS ccs].
    split; [reflexivity|]. exists v. auto.
Qed.

(** C4 (as amended).  A SingleOutput constraint whose terms are all
    settled (no internal variable of L, R or O is unsolved) is lowered
    without any error value: the call returns normally or panics.  It takes
    the branch for an unknown in O with the ID [findUnsolvedVariable]
    returned; when no internal term of O has that ID it panics, at the
    latest in [popInternalVariable], and so it does whenever the constraint
    has no internal term at all. *)
Theorem singleOutput_nothing_to_solve (r1c : R1C) (s : sparseR1CS) :
  Forall (settled (solvedVariables s)) (R1C_L r1c ++ R1C_R r1c ++ R1C_O r1c) ->
  (forall e, r1cToPlonkConstraintSingleOutput r1c s <> Err e) /\
  (exists id, findUnsolvedVariable r1c (solvedVariables s) = Ok (-1, id) /\
     ((forall t, In t (R1C_O r1c) -> isInternal t = true -> VariableID t <> id) ->
      exists p, r1cToPlonkConstraintSingleOutput r1c s = Panic p)) /\
  ((forall t, In t (R1C_L r1c ++ R1C_R r1c ++ R1C_O r1c) -> isInternal t = false) ->
   exists p, r1cToPlonkConstraintSingleOutput r1c s = Panic p).
Proof.
  intros Hs. split; [|split].
  - exact (noErr_singleOutput r1c s).
  - exists (lastInternalID (R1C_L r1c ++ R1C_R r1c ++ R1C_O r1c) (-1)).
    split; [exact (findUnsolvedVariable_settled _ _ Hs)|].
    exact (singleOutput_settled_panics r1c s Hs).
  - intros Hno. apply (singleOutput_settled_panics r1c s Hs).
    intros t Ht Hi. rewrite (Hno t) in Hi; [discriminate|].
    apply in_or_app. right. apply in_or_app. now right.
Qed.

Lemma singleOutput_nothing_to_solve_witness :
  let r1c := mkR1C [mkTerm 0 1 Internal] [mkTerm 0 1 Public] [mkTerm 2 1 Secret]
                   SingleOutput in
  let s := mkSparse pool4 (mkSparseR1CS 1 0 3 [] [] []) [0] [true] in
  Forall (settled (solvedVariables s)) (R1C_L r1c ++ R1C_R r1c ++ R1C_O r1c) /\
  findUnsolvedVariable r1c (solvedVariables s) = Ok (-1, 0) /\
  exists p, r1cToPlonkConstraintSingleOutput r1c s = Panic p.
Proof.
  cbv zeta.
  assert (Hs : Forall (settled [true])
                 [mkTerm 0 1 Internal; mkTerm 0 1 Public; mkTerm 2 1 Secret]).
  { repeat constructor; intros H; try discriminate H. }
  split; [exact Hs|]. split; [vm_compute; reflexivity|].
  destruct (singleOutput_nothing_to_solve
              (mkR1C [mkTerm 0 1 Internal] [mkTerm 0 1 Public] [mkTerm 2 1 Secret]
                     SingleOutput)
              (mkSparse pool4 (mkSparseR1CS 1 0 3 [] [] []) [0] [true]) Hs)
    as (_ & (id & _ & Hp) & _).
  apply Hp. intros t [<-|[]] Hi. discriminate Hi.
Defined.

(** C4 (the claim as stated fails).  The SingleOutput constraint
    [(s1) * (1) = (s2)] has no internal variable; lowering it panics with an
    index out of range, and so does the whole pass. *)
Lemma singleOutput_nothing_to_solve_panics :
  let r1c := mkR1C [mkTerm 1 1 Secret] [mkTerm 0 1 Public] [mkTerm 2 1 Secret]
                   SingleOutput in
  let cs := mkConstraintSystem 1 3 0 [r1c] [] pool4 [] in
  findUnsolvedVariable r1c (solvedVariables (newSparseR1CS cs)) = Ok (-1, -1) /\
  r1cToPlonkConstraintSingleOutput r1c (newSparseR1CS cs) = Panic IndexOutOfRange /\
  toSparseR1CS cs BN254 = Panic IndexOutOfRange.
Proof. cbv zeta. vm_compute. repeat split. Qed.

(** X2.  On well-formed input, when the ID [findUnsolvedVariable] left behind
    is that of an internal term of O, the call does not notice that there
    is nothing to solve: it returns normally, the solved bitset is the same
    and the entry of [mCStoCCS] for that variable is overwritten with an
    internal variable allocated by this call. *)
Theorem singleOutput_lowers_solved_variable_again (r1c : R1C) (s : sparseR1CS)
        (t : Term) :
  Forall (settled (solvedVariables s)) (R1C_L r1c ++ R1C_R r1c ++ R1C_O r1c) ->
  wfSingle s r1c ->
  In t (R1C_O r1c) -> isInternal t = true ->
  VariableID t = lastInternalID (R1C_L r1c ++ R1C_R r1c ++ R1C_O r1c) (-1) ->
  exists s' v,
    r1cToPlonkConstraintSingleOutput r1c s = Ok (tt, s') /\
    solvedVariables s' = solvedVariables s /\
    zlookup (mCStoCCS s') (VariableID t) = Some v /\
    NbInternalVariables (ccs s) <= v < NbInternalVariables (ccs s').
Proof.
  intros Hs Hwf Ht Hi Hv.
  destruct (singleOutput_settled_returns r1c s Hs Hwf) as (s' & E & HS & v & Hl & Hr).
  { exists t. auto. }
  exists s', v. rewrite Hv. auto.
Qed.

Lemma singleOutput_lowers_solved_variable_again_witness :
  let s := mkSparse pool4 (mkSparseR1CS 1 0 0 [] [] []) [0] [true] in
  exists s' v,
    r1cToPlonkConstraintSingleOutput r1cSolved s = Ok (tt, s') /\
    solvedVariables s' = solvedVariables s /\
    zlookup (mCStoCCS s') 0 = Some v /\
    NbInternalVariables (ccs s) <= v < NbInternalVariables (ccs s').
Proof.
  cbv zeta.
  apply (singleOutput_lowers_solved_variable_again r1cSolved
           (mkSparse pool4 (mkSparseR1CS 1 0 0 [] [] []) [0] [true])
           (mkTerm 0 1 Internal)).
  - repeat constructor; intros H; try discriminate H.
  - unfold wfSingle. cbv zeta. repeat split.
    + repeat constructor; vm_compute; reflexivity.
    + repeat constructor; intros H; try discriminate H.
      exists 0. split; [reflexivity|lia].
    + vm_compute. discriminate.
    + vm_compute. discriminate.
    + vm_compute. discriminate.
    + vm_compute. discriminate.
  - left. reflexivity.
  - reflexivity.
  - reflexivity.
Defined.

(** ** What the emitted gates are worth *)

(** *** Pools, linear expressions, [popConstantTerm] *)

Lemma zget_poolExt p P i v :
  poolExt p P -> zlookup p i = Some v -> zget P i = v.
Proof.
  intros [e ->] H. unfold zget. now rewrite (zlookup_app_l _ e _ _ H).
Qed.

Lemma poolExt_refl p : poolExt p p.
Proof. exists []. now rewrite app_nil_r. Qed.

Lemma poolExt_trans p1 p2 p3 : poolExt p1 p2 -> poolExt p2 p3 -> poolExt p1 p3.
Proof. intros [e1 ->] [e2 ->]. exists (e1 ++ e2). now rewrite app_assoc. Qed.

Lemma evalLinExp_app P a l1 l2 :
  evalLinExp P a (l1 ++ l2) = evalLinExp P a l1 + evalLinExp P a l2.
Proof.
  unfold evalLinExp. induction l1 as [|t l1 IH]; cbn [app fold_right]; [lia|].
  rewrite IH. lia.
Qed.

Lemma evalLinExp_cons P a t l :
  evalLinExp P a (t :: l) = zget P (CoeffID t) * inputValue a t + evalLinExp P a l.
Proof. reflexivity. Qed.

Lemma isOneWire_value a t :
  isOneWire t = true -> inputValue a t = zget (aPublic a) 0.
Proof.
  unfold isOneWire, inputValue, idOneWire. intros H.
  apply andb_true_iff in H as [Hv Hp]. apply Z.eqb_eq in Hv. rewrite Hv.
  destruct (VariableVisibility t); cbn in Hp; try discriminate. reflexivity.
Qed.

(** What a successful [popConstantTerm] returns: the state is the same, at
    most one term is gone, and the expression is worth what is left plus
    the constant. *)
Lemma popConstantTerm_sem l s r c s' :
  popConstantTerm l s = Ok ((r, c), s') ->
  s' = s /\
  (List.length r = List.length l \/ S (List.length r) = List.length l) /\
  forall P a, poolExt (coeffs s) P -> zget (aPublic a) 0 = 1 ->
              evalLinExp P a l = evalLinExp P a r + c.
Proof.
  unfold popConstantTerm.
  destruct (split_first_oneWire l) as [H|(pre & t & post & -> & Hpre & Ht)].
  - rewrite popConstantTerm_loop_none by assumption. cbn [obind].
    intros E. injection E as <- <- <-. split; [reflexivity|]. split; [now left|].
    intros. lia.
  - rewrite popConstantTerm_loop_first by assumption.
    unfold index. destruct (zlookup (coeffs s) (CoeffID t)) as [c0|] eqn:Ec;
      cbn [obind]; [|discriminate].
    intros E. injection E as <- <- <-. split; [reflexivity|]. split.
    + right. rewrite !length_app. cbn [List.length]. lia.
    + intros P a HP Hone.
      rewrite !evalLinExp_app, evalLinExp_cons.
      rewrite (isOneWire_value a t Ht), Hone.
      rewrite (zget_poolExt _ _ _ _ HP Ec). lia.
Qed.



(** *** Values of the terms the helpers return *)

Lemma visBits_0 : VariableVisibility 0 = Unset.
Proof. reflexivity. Qed.

Lemma setVis_visBits t b :
  0 <= b < 2 ^ 2 ->
  visBits (Z.lor (Z.ldiff t maskVariableVisibility)
                 (Z.shiftl b shiftVariableVisibility)) = b.
Proof.
  intros Hb. unfold visBits. change shiftVariableVisibility with 62.
  rewrite maskVariableVisibility_ones.
  rewrite <- (Z.mod_small b (2 ^ 2)) at 2 by lia.
  rewrite <- Z.shiftr_div_pow2 by lia. rewrite <- !Z.land_ones by lia.
  Z.bitblast.
Qed.

Lemma VariableVisibility_SetVariableVisibility t v :
  v <> Unset -> VariableVisibility (SetVariableVisibility t v) = v.
Proof.
  intros Hv. unfold VariableVisibility. rewrite visBits_eq.
  destruct v; [congruence| | |]; unfold SetVariableVisibility.
  - rewrite (setVis_visBits t variableInternal) by (cbv; intuition discriminate).
    reflexivity.
  - rewrite (setVis_visBits t variableSecret) by (cbv; intuition discriminate).
    reflexivity.
  - rewrite (setVis_visBits t variablePublic) by (cbv; intuition discriminate).
    reflexivity.
Qed.

Lemma Pack_Ok v c vis t :
  Pack v c vis = Ok t ->
  CoeffID t = c /\ VariableID t = v /\ (vis <> Unset -> VariableVisibility t = vis).
Proof.
  unfold Pack. destruct (SetVariableID 0 v) as [t1| |] eqn:E1; try discriminate.
  cbn [obind]. destruct (SetCoeffID t1 c) as [t2| |] eqn:E2; try discriminate.
  cbn [obind]. intros H. injection H as <-.
  destruct (SetVariableVisibility_fields t2 vis) as [-> ->].
  apply SetVariableID_Ok in E1 as (H1 & _). apply SetCoeffID_Ok in E2 as (H2 & H3 & _).
  repeat split; try congruence.
  apply VariableVisibility_SetVariableVisibility.
Qed.

Lemma coeffID_value b s j s' :
  coeffID b s = Ok (j, s') ->
  poolExt (coeffs s) (coeffs s') /\ ccs s' = ccs s /\
  mCStoCCS s' = mCStoCCS s /\ solvedVariables s' = solvedVariables s /\
  forall P, poolExt (coeffs s') P -> zget P j = b.
Proof.
  intros E. destruct (coeffID_spec b s) as (j' & s1 & E1 & _ & Hl & Hp & Hc & Hm & Hs).
  rewrite E in E1. injection E1 as <- <-.
  split.
  { destruct Hp as [->| ->]; [apply poolExt_refl|now exists [b]]. }
  repeat split; auto.
  intros P HP. exact (zget_poolExt _ _ _ _ HP Hl).
Qed.

Lemma newTerm_spec c idCS s t s' :
  newTerm c idCS s = Ok (t, s') ->
  poolExt (coeffs s) (coeffs s') /\
  VariableVisibility t = Internal /\ VariableID t = NbInt s /\
  NbInt s' = NbInt s + 1 /\
  Constraints (ccs s') = Constraints (ccs s) /\
  Assertions (ccs s') = Assertions (ccs s) /\
  solvedVariables s' = solvedVariables s /\
  match idCS with
  | None => mCStoCCS s' = mCStoCCS s
  | Some id => zupdate (mCStoCCS s) id (NbInt s) = Some (mCStoCCS s')
  end /\
  forall P, poolExt (coeffs s') P -> coeffOf P t = c.
Proof.
  unfold newTerm. unfold bind at 1.
  destruct (coeffID c s) as [[j s1]|p|e] eqn:E; try discriminate.
  apply coeffID_value in E as (Hp & Hc & Hm & Hs & Hv).
  unfold bind, get, lift, put, ret.
  destruct (Pack (NbInternalVariables (ccs s1)) j Internal) as [t0|p|e] eqn:Ep;
    try discriminate.
  apply Pack_Ok in Ep as (H1 & H2 & H3). specialize (H3 ltac:(discriminate)).
  unfold NbInt. rewrite Hc in *.
  destruct idCS as [id|].
  - cbn [set_ccs mCStoCCS]. unfold store. rewrite Hm.
    destruct (zupdate (mCStoCCS s) id (NbInternalVariables (ccs s))) as [m|] eqn:Em;
      try discriminate.
    intros H. injection H as <- <-.
    cbn [set_mCStoCCS set_ccs coeffs ccs mCStoCCS solvedVariables
         set_NbInternalVariables NbInternalVariables Constraints Assertions].
    repeat split; auto. intros P HP. unfold coeffOf. rewrite H1. auto.
  - intros H. injection H as <- <-.
    cbn [set_ccs coeffs ccs mCStoCCS solvedVariables
         set_NbInternalVariables NbInternalVariables Constraints Assertions].
    repeat split; auto. intros P HP. unfold coeffOf. rewrite H1. auto.
Qed.

Lemma wire_same a xi t t' :
  VariableID t' = VariableID t -> VariableVisibility t' = VariableVisibility t ->
  wire a xi t' = wire a xi t.
Proof. intros Hv Hs. unfold wire. now rewrite Hv, Hs. Qed.

Lemma negate_value t s t' s' :
  negate t s = Ok (t', s') ->
  poolExt (coeffs s) (coeffs s') /\ ccs s' = ccs s /\
  mCStoCCS s' = mCStoCCS s /\ solvedVariables s' = solvedVariables s /\
  VariableID t' = VariableID t /\
  VariableVisibility t' = VariableVisibility t /\
  (t = 0 -> t' = 0) /\
  forall P, poolExt (coeffs s') P ->
            t <> 0 -> coeffOf P t' = - coeffOf P t.
Proof.
  unfold negate. destruct (isZero t) eqn:Ez.
  - intros H. injection H as <- <-. apply isZero_true in Ez.
    repeat split; auto using poolExt_refl. congruence.
  - unfold bind at 1. unfold get at 1. cbv beta iota.
    unfold bind at 1. unfold lift at 1. unfold index.
    destruct (zlookup (coeffs s) (CoeffID t)) as [c|] eqn:Ec; try discriminate.
    unfold bind at 1.
    destruct (coeffID (- c) s) as [[j s1]|p|e] eqn:E; try discriminate.
    apply coeffID_value in E as (Hp & Hc & Hm & Hs & Hv).
    unfold lift. destruct (SetCoeffID t j) as [t1|p|e] eqn:Et; try discriminate.
    intros H. injection H as <- <-.
    apply SetCoeffID_Ok in Et as (H1 & H2 & H3). apply isZero_false in Ez.
    repeat split; auto; try congruence.
    intros P HP _. unfold coeffOf. rewrite H1, (Hv P HP).
    now rewrite (zget_poolExt _ _ _ _ (poolExt_trans _ _ _ Hp HP) Ec).
Qed.

Lemma reserved_ext p P :
  reserved p -> poolExt p P -> zget P 0 = 0 /\ zget P 1 = 1 /\ zget P 2 = -1.
Proof.
  intros (H0 & H1 & H2) HP.
  repeat split; eapply zget_poolExt; eauto.
Qed.

Lemma multiply_sem (t : Term) (c : Z) (s : sparseR1CS) (t' : Term)
        (s' : sparseR1CS) :
  reserved (coeffs s) ->
  multiply t c s = Ok (t', s') ->
  poolExt (coeffs s) (coeffs s') /\ ccs s' = ccs s /\
  mCStoCCS s' = mCStoCCS s /\ solvedVariables s' = solvedVariables s /\
  VariableID t' = VariableID t /\
  VariableVisibility t' = VariableVisibility t /\
  forall P, poolExt (coeffs s') P -> coeffOf P t' = coeffOf P t * c.
Proof.
  intros Hres.
  assert (Hsame : forall P, poolExt (coeffs s) P ->
            zget P 0 = 0 /\ zget P 1 = 1 /\ zget P 2 = -1)
    by (intros P; now apply reserved_ext).
  assert (Hret : forall k, ret t s = Ok (t', s') ->
            (forall P, poolExt (coeffs s) P -> coeffOf P t = coeffOf P t * k) ->
            poolExt (coeffs s) (coeffs s') /\ ccs s' = ccs s /\
            mCStoCCS s' = mCStoCCS s /\ solvedVariables s' = solvedVariables s /\
            VariableID t' = VariableID t /\
            VariableVisibility t' = VariableVisibility t /\
            forall P, poolExt (coeffs s') P -> coeffOf P t' = coeffOf P t * k).
  { intros k H Hk. injection H as <- <-. repeat split; auto using poolExt_refl. }
  assert (Hset : forall j k, lift (SetCoeffID t j) s = Ok (t', s') ->
            (forall P, poolExt (coeffs s) P -> zget P j = coeffOf P t * k) ->
            poolExt (coeffs s) (coeffs s') /\ ccs s' = ccs s /\
            mCStoCCS s' = mCStoCCS s /\ solvedVariables s' = solvedVariables s /\
            VariableID t' = VariableID t /\
            VariableVisibility t' = VariableVisibility t /\
            forall P, poolExt (coeffs s') P -> coeffOf P t' = coeffOf P t * k).
  { intros j k H Hk. unfold lift in H.
    destruct (SetCoeffID t j) as [t1|p|e] eqn:Et; try discriminate.
    injection H as <- <-. apply SetCoeffID_Ok in Et as (H1 & H2 & H3).
    repeat split; auto using poolExt_refl.
    intros P HP. unfold coeffOf at 1. rewrite H1. auto. }
  assert (Hslow :
    (bind get (fun s0 => bind (lift (index (coeffs s0) (CoeffID t))) (fun x =>
     bind (coeffID (x * c)) (fun cID => lift (SetCoeffID t cID))))) s
    = Ok (t', s') ->
    poolExt (coeffs s) (coeffs s') /\ ccs s' = ccs s /\
    mCStoCCS s' = mCStoCCS s /\ solvedVariables s' = solvedVariables s /\
    VariableID t' = VariableID t /\
    VariableVisibility t' = VariableVisibility t /\
    forall P, poolExt (coeffs s') P -> coeffOf P t' = coeffOf P t * c).
  { unfold bind at 1. unfold get at 1. cbv beta iota.
    unfold bind at 1. unfold lift at 1. unfold index.
    destruct (zlookup (coeffs s) (CoeffID t)) as [x|] eqn:Ex; try discriminate.
    unfold bind at 1.
    destruct (coeffID (x * c) s) as [[j s1]|p|e] eqn:E; try discriminate.
    apply coeffID_value in E as (Hp & Hc & Hm & Hs & Hv).
    unfold lift. destruct (SetCoeffID t j) as [t1|p|e] eqn:Et; try discriminate.
    intros H. injection H as <- <-.
    apply SetCoeffID_Ok in Et as (H1 & H2 & H3).
    repeat split; auto.
    intros P HP. unfold coeffOf. rewrite H1, (Hv P HP).
    now rewrite (zget_poolExt _ _ _ _ (poolExt_trans _ _ _ Hp HP) Ex). }
  unfold multiply.
  destruct (Z.eqb_spec c 0) as [->|_].
  { intros H. apply (Hset CoeffIdZero 0 H). intros P HP.
    destruct (Hsame P HP) as (H0 & _). unfold CoeffIdZero. rewrite H0. lia. }
  destruct (Z.eqb_spec c 1) as [->|_].
  { intros H. apply (Hret 1 H). intros. lia. }
  destruct (Z.eqb_spec c (-1)) as [->|_]; [|exact Hslow].
  destruct (Z.eqb_spec (CoeffID t) CoeffIdZero) as [E0|_].
  { intros H. apply (Hret (-1) H). intros P HP.
    destruct (Hsame P HP) as (H0 & _). unfold coeffOf. rewrite E0.
    unfold CoeffIdZero. rewrite H0. lia. }
  destruct (Z.eqb_spec (CoeffID t) CoeffIdOne) as [E1|_].
  { intros H. apply (Hset CoeffIdMinusOne (-1) H). intros P HP.
    destruct (Hsame P HP) as (_ & H1 & H2). unfold coeffOf. rewrite E1.
    unfold CoeffIdOne, CoeffIdMinusOne. rewrite H1, H2. lia. }
  destruct (Z.eqb_spec (CoeffID t) CoeffIdMinusOne) as [E2|_]; [|exact Hslow].
  intros H. apply (Hset CoeffIdOne (-1) H). intros P HP.
  destruct (Hsame P HP) as (_ & H1 & H2). unfold coeffOf. rewrite E2.
  unfold CoeffIdOne, CoeffIdMinusOne. rewrite H1, H2. lia.
Qed.

Lemma isInternal_true t : isInternal t = true <-> VariableVisibility t = Internal.
Proof.
  unfold isInternal. destruct (VariableVisibility t); cbn; split;
    congruence || discriminate.
Qed.

Lemma getCorrespondingTerm_value t s t' s' :
  getCorrespondingTerm t s = Ok (t', s') ->
  s' = s /\ CoeffID t' = CoeffID t /\
  VariableVisibility t' = VariableVisibility t /\
  (isInternal t = false -> t' = t) /\
  (isInternal t = true ->
   zlookup (mCStoCCS s) (VariableID t) = Some (VariableID t')) /\
  forall a xi, carries (mCStoCCS s) a xi t -> wire a xi t' = inputValue a t.
Proof.
  unfold getCorrespondingTerm. destruct (isInternal t) eqn:Ei.
  - unfold bind, get, lift, index.
    destruct (zlookup (mCStoCCS s) (VariableID t)) as [v|] eqn:Ev; try discriminate.
    destruct (SetVariableID t v) as [t1|p|e] eqn:Et; try discriminate.
    intros H. injection H as <- <-.
    apply SetVariableID_Ok in Et as (H1 & H2 & H3).
    pose proof (proj1 (isInternal_true t) Ei) as Hv.
    repeat split; auto; try discriminate; try congruence.
    intros a xi Hc. unfold wire, inputValue. rewrite H3, H1, Hv.
    now apply Hc.
  - intros H. injection H as <- <-.
    repeat split; auto; try discriminate.
    intros a xi _. unfold wire, inputValue.
    destruct (VariableVisibility t) eqn:Ev; try reflexivity.
    apply isInternal_true in Ev. congruence.
Qed.

Lemma addConstraint_fix_visibility (c : SparseR1C) :
  exists c', addConstraint_fix c = Ok c' /\
    VariableVisibility (L c') = VariableVisibility (L c) /\
    VariableVisibility (R c') = VariableVisibility (R c) /\
    VariableVisibility (M0 c') = VariableVisibility (M0 c) /\
    VariableVisibility (M1 c') = VariableVisibility (M1 c).
Proof.
  destruct c as [l r o m0 m1 k sv]. unfold addConstraint_fix.
  cbn [L R O M0 M1 K Solver withL withR withM0 withM1].
  destruct (SetVariableID_of_VariableID l m0) as (l' & El & Hl1 & Hl2 & Hl3).
  destruct (SetVariableID_of_VariableID r m1) as (r' & Er & Hr1 & Hr2 & Hr3).
  destruct (isZero l) eqn:Zl; [rewrite El|];
    cbn [obind L R O M0 M1 K Solver withL withR withM0 withM1];
    (destruct (isZero r) eqn:Zr; [rewrite Er|]);
    cbn [obind L R O M0 M1 K Solver withL withR withM0 withM1];
    match goal with
    | |- context [SetVariableID m0 (VariableID ?x)] =>
        destruct (SetVariableID_of_VariableID m0 x) as (m0' & Em0 & Hm01 & Hm02 & Hm03)
    end;
    (destruct (isZero m0) eqn:Zm0; [rewrite Em0|]);
    cbn [obind L R O M0 M1 K Solver withL withR withM0 withM1];
    match goal with
    | |- context [SetVariableID m1 (VariableID ?x)] =>
        destruct (SetVariableID_of_VariableID m1 x) as (m1' & Em1 & Hm11 & Hm12 & Hm13)
    end;
    (destruct (isZero m1) eqn:Zm1; [rewrite Em1|]);
    cbn [obind L R O M0 M1 K Solver withL withR withM0 withM1];
    eexists; (split; [reflexivity|]);
    cbn [L R O M0 M1 K Solver withL withR withM0 withM1];
    repeat split; congruence.
Qed.

Lemma wire_Unset a xi t : VariableVisibility t = Unset -> wire a xi t = 0.
Proof. intros H. unfold wire. now rewrite H. Qed.

Lemma addConstraint_value c s u s' :
  addConstraint c s = Ok (u, s') ->
  exists c',
    s' = set_ccs s (set_Constraints (ccs s) (Constraints (ccs s) ++ [c'])) /\
    Solver c' = Solver c /\
    forall P a xi, preGateValue P a xi c' = preGateValue P a xi c.
Proof.
  destruct (addConstraint_fix_spec c)
    as (c' & E & HL & HR & HM0 & HM1 & HLn & HRn & HM0n & HM1n
        & CL & CR & CM0 & CM1 & HO & HK & HS).
  destruct (addConstraint_fix_visibility c) as (c2 & E2 & VL & VR & VM0 & VM1).
  rewrite E in E2. injection E2 as <-.
  unfold addConstraint, bind, lift, get, put. rewrite E.
  intros H. injection H as _ <-. exists c'. split; [reflexivity|]. split; [exact HS|].
  intros P a xi.
  assert (W : forall x x', VariableVisibility x' = VariableVisibility x ->
                           (x <> 0 -> x' = x) -> wire a xi x' = wire a xi x).
  { intros x x' Hv Hn. destruct (Z.eq_dec x 0) as [->|Hx].
    - rewrite !wire_Unset; auto.
    - now rewrite (Hn Hx). }
  unfold preGateValue, termValue, coeffOf.
  rewrite CL, CR, CM0, CM1, HO, HK.
  rewrite (W _ _ VL HLn), (W _ _ VR HRn), (W _ _ VM0 HM0n), (W _ _ VM1 HM1n).
  reflexivity.
Qed.

(** *** Congruence modulo [q] *)

Lemma cong_refl q a : cong q a a.
Proof. unfold cong. rewrite Z.sub_diag. apply Z.divide_0_r. Qed.

Lemma cong_sym q a b : cong q a b -> cong q b a.
Proof.
  unfold cong. intros H. replace (b - a) with (- (a - b)) by lia.
  now apply Z.divide_opp_r.
Qed.

Lemma cong_trans q a b c : cong q a b -> cong q b c -> cong q a c.
Proof.
  unfold cong. intros H1 H2. replace (a - c) with ((a - b) + (b - c)) by lia.
  now apply Z.divide_add_r.
Qed.

Lemma cong_add q a b c d : cong q a b -> cong q c d -> cong q (a + c) (b + d).
Proof.
  unfold cong. intros H1 H2.
  replace (a + c - (b + d)) with ((a - b) + (c - d)) by lia.
  now apply Z.divide_add_r.
Qed.

Lemma cong_mul q a b c d : cong q a b -> cong q c d -> cong q (a * c) (b * d).
Proof.
  unfold cong. intros H1 H2.
  replace (a * c - b * d) with ((a - b) * c + b * (c - d)) by ring.
  apply Z.divide_add_r; [now apply Z.divide_mul_l|now apply Z.divide_mul_r].
Qed.

Lemma cong_opp q a b : cong q a b -> cong q (- a) (- b).
Proof.
  unfold cong. intros H. replace (- a - - b) with (- (a - b)) by lia.
  now apply Z.divide_opp_r.
Qed.

Lemma cong_eq q a b : a = b -> cong q a b.
Proof. intros ->. apply cong_refl. Qed.

Lemma cong_mod q a : cong q a 0 <-> a mod q = 0.
Proof.
  unfold cong. rewrite Z.sub_0_r. destruct (Z.eq_dec q 0) as [->|Hq].
  - rewrite Z.mod_0_r. split.
    + intros [k Hk]. lia.
    + intros ->. apply Z.divide_0_r.
  - symmetry. now apply Z.mod_divide.
Qed.

(** *** [split] *)

Lemma reserved_poolExt p p' : reserved p -> poolExt p p' -> reserved p'.
Proof.
  intros (H0 & H1 & H2) [e ->]. repeat split; now apply zlookup_app_l.
Qed.

Lemma termValue_0 P a xi : termValue P a xi 0 = 0.
Proof. unfold termValue. rewrite wire_Unset by reflexivity. lia. Qed.

Lemma negate_termValue t s t' s' P a xi :
  negate t s = Ok (t', s') -> poolExt (coeffs s') P ->
  termValue P a xi t' = - termValue P a xi t.
Proof.
  intros H HP. apply negate_value in H as (_ & _ & _ & _ & Hv & Hs & Hz & Hc).
  destruct (Z.eq_dec t 0) as [->|Hn].
  - rewrite (Hz eq_refl), termValue_0. reflexivity.
  - unfold termValue. rewrite (Hc P HP Hn), (wire_same a xi _ _ Hv Hs). lia.
Qed.

Lemma multiply_termValue t c s t' s' P a xi :
  reserved (coeffs s) -> multiply t c s = Ok (t', s') -> poolExt (coeffs s') P ->
  termValue P a xi t' = c * termValue P a xi t.
Proof.
  intros Hr H HP. apply (multiply_sem _ _ _ _ _ Hr) in H
    as (_ & _ & _ & _ & Hv & Hs & Hc).
  unfold termValue. rewrite (Hc P HP), (wire_same a xi _ _ Hv Hs). lia.
Qed.

Lemma split_sound le : forall acc s t s',
  reserved (coeffs s) -> split le acc s = Ok (t, s') ->
  exists new,
    Constraints (ccs s') = Constraints (ccs s) ++ new /\
    Assertions (ccs s') = Assertions (ccs s) /\
    mCStoCCS s' = mCStoCCS s /\ solvedVariables s' = solvedVariables s /\
    poolExt (coeffs s) (coeffs s') /\
    forall P a xi q,
      poolExt (coeffs s') P -> Forall (carries (mCStoCCS s) a xi) le ->
      gatesHold q P a xi new ->
      cong q (termValue P a xi t) (termValue P a xi acc + evalLinExp P a le).
Proof.
  induction le as [|t0 le IH]; intros acc s t s' Hres H.
  - injection H as <- <-. exists []. rewrite app_nil_r.
    repeat split; auto using poolExt_refl.
    intros. apply cong_eq. unfold evalLinExp. cbn [fold_right]. lia.
  - cbn [split] in H. destruct (isZero acc) eqn:Ez.
    + unfold bind at 1 in H.
      destruct (getCorrespondingTerm t0 s) as [[r s0]|p|e] eqn:Er; try discriminate.
      apply getCorrespondingTerm_value in Er as (-> & Hc & _ & _ & _ & Hw).
      destruct (IH _ _ _ _ Hres H) as (new & HC & HA & HM & HS & HP & Hval).
      exists new. repeat split; auto.
      intros P a xi q HPP Hcar Hg. inversion Hcar as [|? ? Hc0 Hcar']; subst.
      apply isZero_true in Ez. subst acc. rewrite termValue_0.
      eapply cong_trans; [apply (Hval P a xi q HPP Hcar' Hg)|].
      apply cong_eq. rewrite evalLinExp_cons. unfold termValue, coeffOf.
      rewrite Hc, (Hw a xi Hc0). lia.
    + unfold bind at 1 in H.
      destruct (getCorrespondingTerm t0 s) as [[r s0]|p|e] eqn:Er; try discriminate.
      apply getCorrespondingTerm_value in Er as (-> & Hc & _ & _ & _ & Hw).
      unfold bind at 1 in H.
      destruct (newTerm bOne None s) as [[o s1]|p|e] eqn:Eo; try discriminate.
      apply newTerm_spec in Eo as (Hp1 & _ & _ & _ & HC1 & HA1 & HS1 & HM1 & Hco).
      unfold bind at 1 in H.
      destruct (addConstraint _ s1) as [[u s2]|p|e] eqn:Ea; try discriminate.
      apply addConstraint_value in Ea as (g & -> & _ & Hg).
      unfold bind at 1 in H.
      destruct (negate o _) as [[no s3]|p|e] eqn:En; try discriminate.
      pose proof (negate_value _ _ _ _ En) as (Hp3 & Hc3 & HM3 & HS3 & _).
      cbn [set_ccs coeffs ccs mCStoCCS solvedVariables] in Hp3, Hc3, HM3, HS3.
      assert (Hres3 : reserved (coeffs s3))
        by (eapply reserved_poolExt; [exact Hres|];
            eapply poolExt_trans; eassumption).
      destruct (IH _ _ _ _ Hres3 H) as (new & HC & HA & HM & HS & HP & Hval).
      exists (g :: new). rewrite HC, HA, HM, HS, Hc3, HM3, HS3.
      cbn [set_Constraints Constraints Assertions].
      rewrite HC1, HA1, HM1, HS1, <- app_assoc. cbn [app].
      repeat split; auto.
      { eapply poolExt_trans; [|exact HP]. eapply poolExt_trans; eassumption. }
      intros P a xi q HPP Hcar Hgs.
      inversion Hcar as [|? ? Hc0 Hcar']; subst.
      inversion Hgs as [|? ? Hg0 Hgs']; subst.
      assert (HP3 : poolExt (coeffs s3) P) by (eapply poolExt_trans; eassumption).
      assert (HP1 : poolExt (coeffs s1) P) by (eapply poolExt_trans; eassumption).
      assert (Hcar3 : Forall (carries (mCStoCCS s3) a xi) le)
        by (rewrite HM3, HM1; exact Hcar').
      specialize (Hval P a xi q HPP Hcar3 Hgs').
      rewrite (negate_termValue _ _ _ _ P a xi En HP3) in Hval.
      rewrite Hg in Hg0. unfold preGateValue in Hg0.
      cbn [L R O M0 M1 K withL withR withO gate0] in Hg0.
      destruct (reserved_ext _ _ Hres
                  (poolExt_trans _ _ _ Hp1 HP1)) as (HP0 & _).
      rewrite HP0, (wire_Unset a xi 0) in Hg0 by reflexivity.
      rewrite evalLinExp_cons.
      assert (Hr : termValue P a xi r = zget P (CoeffID t0) * inputValue a t0).
      { unfold termValue, coeffOf. now rewrite Hc, (Hw a xi Hc0). }
      rewrite Hr in Hg0. unfold cong in *.
      match goal with
      | |- (q | ?G) =>
          match type of Hval with (q | ?A) =>
          match type of Hg0 with (q | ?B) =>
            replace G with (A - B) by ring
          end end
      end.
      now apply Z.divide_sub_r.
Qed.

(** *** The helpers, in the form the case analyses use *)

Lemma popConstantTerm_ev l s r c s' :
  popConstantTerm l s = Ok ((r, c), s') ->
  s' = s /\ incl r l /\
  forall P a, poolExt (coeffs s) P -> zget (aPublic a) 0 = 1 ->
              evalLinExp P a l = evalLinExp P a r + c.
Proof.
  intros E. destruct (popConstantTerm_sem _ _ _ _ _ E) as (-> & _ & Hv). split; [reflexivity|]. split; [|exact Hv].
  unfold popConstantTerm in E.
  destruct (split_first_oneWire l) as [Hn|(pre & t & post & -> & Hpre & Ht)].
  - rewrite popConstantTerm_loop_none in E by assumption. cbn [obind] in E.
    injection E as <- _. apply incl_refl.
  - rewrite popConstantTerm_loop_first in E by assumption.
    destruct (index (coeffs s) (CoeffID t)); cbn [obind] in E; try discriminate.
    injection E as <- _. intros x Hx. apply in_app_or in Hx as [Hx|Hx].
    + apply in_or_app. now left.
    + apply in_or_app. right. now right.
Qed.

Lemma split_ev le s t s' :
  reserved (coeffs s) -> split le 0 s = Ok (t, s') ->
  exists new,
    (Constraints (ccs s') = Constraints (ccs s) ++ new /\
     Assertions (ccs s') = Assertions (ccs s) /\
     mCStoCCS s' = mCStoCCS s /\ solvedVariables s' = solvedVariables s /\
     poolExt (coeffs s) (coeffs s')) /\
    forall P a xi q,
      poolExt (coeffs s') P -> Forall (carries (mCStoCCS s) a xi) le ->
      gatesHold q P a xi new ->
      cong q (termValue P a xi t) (evalLinExp P a le).
Proof.
  intros Hr E. destruct (split_sound le 0 s t s' Hr E)
    as (new & HC & HA & HM & HS & HP & Hv).
  exists new. split; [auto|]. intros P a xi q H1 H2 H3.
  specialize (Hv P a xi q H1 H2 H3). now rewrite termValue_0 in Hv.
Qed.

Lemma multiply_ev t c s t' s' :
  reserved (coeffs s) -> multiply t c s = Ok (t', s') ->
  (Constraints (ccs s') = Constraints (ccs s) /\
   Assertions (ccs s') = Assertions (ccs s) /\
   mCStoCCS s' = mCStoCCS s /\ solvedVariables s' = solvedVariables s /\
   poolExt (coeffs s) (coeffs s')) /\
  forall P a xi, poolExt (coeffs s') P ->
                 termValue P a xi t' = c * termValue P a xi t.
Proof.
  intros Hr E. pose proof (multiply_sem _ _ _ _ _ Hr E) as (HP & HC & HM & HS & _).
  split; [rewrite HC; auto|].
  intros P a xi H. eapply multiply_termValue; eauto.
Qed.

Lemma negate_ev t s t' s' :
  negate t s = Ok (t', s') ->
  (Constraints (ccs s') = Constraints (ccs s) /\
   Assertions (ccs s') = Assertions (ccs s) /\
   mCStoCCS s' = mCStoCCS s /\ solvedVariables s' = solvedVariables s /\
   poolExt (coeffs s) (coeffs s')) /\
  forall P a xi, poolExt (coeffs s') P ->
                 termValue P a xi t' = - termValue P a xi t.
Proof.
  intros E. pose proof (negate_value _ _ _ _ E) as (HP & HC & HM & HS & _).
  split; [rewrite HC; auto|].
  intros P a xi H. eapply negate_termValue; eauto.
Qed.

Lemma coeffID_ev b s j s' :
  coeffID b s = Ok (j, s') ->
  (Constraints (ccs s') = Constraints (ccs s) /\
   Assertions (ccs s') = Assertions (ccs s) /\
   mCStoCCS s' = mCStoCCS s /\ solvedVariables s' = solvedVariables s /\
   poolExt (coeffs s) (coeffs s')) /\
  forall P, poolExt (coeffs s') P -> zget P j = b.
Proof.
  intros E. apply coeffID_value in E as (HP & HC & HM & HS & Hv).
  split; [rewrite HC; auto|exact Hv].
Qed.

Lemma preGateValue_terms P a xi g :
  preGateValue P a xi g
  = termValue P a xi (L g) + termValue P a xi (R g)
    + termValue P a xi (M0 g) * termValue P a xi (M1 g)
    + termValue P a xi (O g) + zget P (K g).
Proof. unfold preGateValue, termValue. ring. Qed.

Lemma carries_incl m a xi (l r : list Term) :
  incl r l -> Forall (carries m a xi) l -> Forall (carries m a xi) r.
Proof.
  intros Hi Hl. apply Forall_forall. intros t Ht.
  rewrite Forall_forall in Hl. auto.
Qed.

(** *** [splitR1C] *)

Lemma zlen_0_nil {A} (l : list A) : (zlen l =? 0) = true -> l = [].
Proof.
  intros H. apply Z.eqb_eq in H. destruct l; [reflexivity|].
  unfold zlen in H. cbn [List.length] in H. lia.
Qed.

Lemma evalLinExp_nil P a : evalLinExp P a [] = 0.
Proof. reflexivity. Qed.

Lemma recordAssertion_Ok c s u s' :
  recordAssertion c s = Ok (u, s') ->
  s' = set_ccs s (set_Assertions (ccs s) (Assertions (ccs s) ++ [c])).
Proof. unfold recordAssertion, bind, get, put. intros H. now injection H as _ <-. Qed.

Ltac saturate_reserved :=
  repeat match goal with
         | Hr : reserved (coeffs ?a), Hp : poolExt (coeffs ?a) (coeffs ?b) |- _ =>
             lazymatch goal with
             | _ : reserved (coeffs b) |- _ => fail
             | _ => pose proof (reserved_poolExt _ _ Hr Hp)
             end
         end.

Ltac use_ev E :=
  lazymatch type of E with
  | split _ 0 _ = Ok _ =>
      apply split_ev in E; [destruct E as (? & (? & ? & ? & ? & ?) & ?)|assumption]
  | multiply _ _ _ = Ok _ =>
      apply multiply_ev in E; [destruct E as ((? & ? & ? & ? & ?) & ?)|assumption]
  | negate _ _ = Ok _ =>
      apply negate_ev in E; destruct E as ((? & ? & ? & ? & ?) & ?)
  | coeffID _ _ = Ok _ =>
      apply coeffID_ev in E; destruct E as ((? & ? & ? & ? & ?) & ?)
  end; saturate_reserved.

Ltac run1 H :=
  unfold bind at 1 in H;
  lazymatch type of H with
  | match ?m ?s with _ => _ end = _ =>
      let E := fresh "E" in
      destruct (m s) as [[? ?]|?|?] eqn:E; [|discriminate H|discriminate H];
      use_ev E
  end.

Ltac saturate_pool :=
  repeat match goal with
         | H1 : poolExt (coeffs ?a) (coeffs ?b), H2 : poolExt (coeffs ?b) ?P |- _ =>
             lazymatch goal with
             | _ : poolExt (coeffs a) P |- _ => fail
             | _ => pose proof (poolExt_trans _ _ _ H1 H2)
             end
         end.

Ltac collapse_maps :=
  repeat match goal with
         | H : mCStoCCS ?a = mCStoCCS ?b |- _ => try rewrite H in *; clear H
         end.

Ltac solve_cong :=
  repeat first [ eassumption | apply cong_add | apply cong_mul | apply cong_opp
               | apply cong_refl ].

Ltac specialize_facts P a xi q H1 :=
  repeat match goal with
         | F : forall P0 a0, poolExt (coeffs ?x) P0 -> zget (aPublic a0) 0 = 1 -> _ |- _ =>
             specialize (F P a ltac:(assumption) H1)
         | F : forall P0 a0 xi0, poolExt (coeffs ?x) P0 -> termValue _ _ _ _ = _ |- _ =>
             specialize (F P a xi ltac:(assumption))
         | F : forall P0, poolExt (coeffs ?x) P0 -> zget P0 _ = _ |- _ =>
             specialize (F P ltac:(assumption))
         | F : forall P0 a0 xi0 q0, poolExt (coeffs ?x) P0 ->
                 Forall (carries _ a0 xi0) ?le -> _ |- _ =>
             specialize (F P a xi q ltac:(assumption)
                           ltac:(eapply carries_incl; [|eassumption]; assumption)
                           ltac:(assumption))
         end.

Ltac rewrite_facts :=
  repeat match goal with
         | F : termValue _ _ _ _ = _ |- _ => try rewrite F; clear F
         | F : zget _ _ = _ - _ |- _ => try rewrite F; clear F
         | F : evalLinExp _ _ _ = _ + _ |- _ => try rewrite F; clear F
         end.

Ltac split_gates Hg :=
  unfold gatesHold in Hg;
  repeat match type of Hg with
         | Forall _ (_ ++ _) =>
             let H' := fresh "Hg" in
             apply Forall_app in Hg; destruct Hg as [H' Hg]; fold (gatesHold) in H'
         end.

Ltac chain_lists :=
  cbn [set_ccs ccs set_Assertions set_Constraints Constraints Assertions];
  repeat match goal with
         | H : Constraints (ccs _) = _ |- _ => rewrite H; clear H
         | H : Assertions (ccs _) = _ |- _ => rewrite H; clear H
         end;
  rewrite <- ?app_assoc.

Lemma splitR1C_sound_aux r1c s s' :
  reserved (coeffs s) -> splitR1C r1c s = Ok (tt, s') ->
  exists helpers g,
    poolExt (coeffs s) (coeffs s') /\
    mCStoCCS s' = mCStoCCS s /\ solvedVariables s' = solvedVariables s /\
    ((Constraints (ccs s') = Constraints (ccs s) ++ helpers /\
      Assertions (ccs s') = Assertions (ccs s) ++ [g]) \/
     (Constraints (ccs s') = Constraints (ccs s) ++ helpers ++ [g] /\
      Assertions (ccs s') = Assertions (ccs s))) /\
    forall P a xi q,
      poolExt (coeffs s') P -> zget (aPublic a) 0 = 1 ->
      Forall (carries (mCStoCCS s) a xi) (R1C_L r1c ++ R1C_R r1c ++ R1C_O r1c) ->
      gatesHold q P a xi helpers ->
      cong q (preGateValue P a xi g)
             (evalLinExp P a (R1C_L r1c) * evalLinExp P a (R1C_R r1c)
              - evalLinExp P a (R1C_O r1c)).
Proof.
  intros Hres H. unfold splitR1C in H.
  unfold bind at 1 in H.
  destruct (popConstantTerm (R1C_L r1c) s) as [[[l cL] s1]|?|?] eqn:El; try discriminate.
  apply popConstantTerm_ev in El as (-> & Hil & HvL).
  unfold bind at 1 in H.
  destruct (popConstantTerm (R1C_R r1c) s) as [[[r cR] s1]|?|?] eqn:Er; try discriminate.
  apply popConstantTerm_ev in Er as (-> & Hir & HvR).
  unfold bind at 1 in H.
  destruct (popConstantTerm (R1C_O r1c) s) as [[[o cO] s1]|?|?] eqn:Eo; try discriminate.
  apply popConstantTerm_ev in Eo as (-> & Hio & HvO).
  cbv zeta in H.
  assert (HIl : incl l (R1C_L r1c ++ R1C_R r1c ++ R1C_O r1c)).
  { intros x Hx. apply in_or_app. left. auto. }
  assert (HIr : incl r (R1C_L r1c ++ R1C_R r1c ++ R1C_O r1c)).
  { intros x Hx. apply in_or_app. right. apply in_or_app. left. auto. }
  assert (HIo : incl o (R1C_L r1c ++ R1C_R r1c ++ R1C_O r1c)).
  { intros x Hx. apply in_or_app. right. apply in_or_app. right. auto. }
  clear Hil Hir Hio.
  destruct (zlen o =? 0) eqn:Eo0; destruct (zlen l =? 0) eqn:El0;
    destruct (zlen r =? 0) eqn:Er0.
  all: try (apply zlen_0_nil in Eo0; subst o).
  all: try (apply zlen_0_nil in El0; subst l).
  all: try (apply zlen_0_nil in Er0; subst r).
  all: repeat run1 H.
  all: try (apply recordAssertion_Ok in H; subst s').
  8: { apply addConstraint_value in H as (g & -> & _ & Hval).
       match goal with
       | A : Constraints (ccs ?s3) = Constraints (ccs ?s2) ++ ?n3,
         B : Constraints (ccs ?s2) = Constraints (ccs ?s1) ++ ?n2,
         C : Constraints (ccs ?s1) = Constraints (ccs s) ++ ?n1 |- _ =>
           exists (n1 ++ n2 ++ n3), g
       end.
       split; [cbn [set_ccs coeffs]; saturate_pool; assumption|].
       split; [cbn [set_ccs mCStoCCS]; congruence|].
       split; [cbn [set_ccs solvedVariables]; congruence|].
       split.
       { right. split; chain_lists; reflexivity. }
       intros P a xi q HPfin Hone Hcar Hgates. cbn [set_ccs coeffs] in HPfin.
       saturate_pool. collapse_maps. split_gates Hgates.
       specialize_facts P a xi q Hone.
       rewrite Hval, preGateValue_terms. cbn [L R O M0 M1 K].
       rewrite ?termValue_0, ?evalLinExp_nil in *. rewrite_facts.
       eapply cong_trans; [solve_cong|apply cong_eq; ring]. }
  all: eexists; eexists.
  all: split; [cbn [set_ccs coeffs]; saturate_pool; assumption|].
  all: split; [cbn [set_ccs mCStoCCS]; congruence|].
  all: split; [cbn [set_ccs solvedVariables]; congruence|].
  all: split;
    [left; split; chain_lists; first [reflexivity|symmetry; apply app_nil_r]|].
  all: intros P a xi q HPfin Hone Hcar Hgates; cbn [set_ccs coeffs] in HPfin.
  all: saturate_pool; collapse_maps; split_gates Hgates.
  all: specialize_facts P a xi q Hone.
  all: rewrite preGateValue_terms; cbn [L R O M0 M1 K].
  all: rewrite ?termValue_0, ?evalLinExp_nil in *; rewrite_facts.
  all: (eapply cong_trans; [solve_cong|apply cong_eq; ring]).
Qed.

(** *** No error value from the conversion loops *)

Lemma noError_findBit pool binDec acc : noError (findBit pool binDec acc).
Proof.
  induction binDec as [|t rest IH]; cbn [findBit]; [apply noError_Ok|].
  apply noError_obind; [apply noError_index|intros coef].
  destruct (coef =? acc); [apply noError_Ok|].
  apply noError_obind; [exact IH|intros [[t' rest']|]; apply noError_Ok].
Qed.

Lemma noErr_binaryLoop n : forall binDec acc q, noErr (binaryLoop n binDec acc q).
Proof.
  induction n as [|n IH]; intros binDec acc q; cbn [binaryLoop]; [apply noErr_ret|].
  repeat first
    [ apply IH | apply noErr_newTerm | apply noErr_negate | apply noErr_multiply
    | apply noErr_lift; apply noError_findBit
    | noErr_prim
    | apply noErr_bind; [|intros ?]
    | match goal with
      | |- noErr (match ?x with Some _ => _ | None => _ end) => destruct x
      | |- noErr (match ?x with pair _ _ => _ end) => destruct x
      end ].
Qed.

Lemma noErr_binaryReduceO r1c : noErr (binaryReduceO r1c).
Proof.
  unfold binaryReduceO.
  repeat first
    [ apply noErr_split | apply noErr_newTerm | apply noErr_negate
    | noErr_prim
    | apply noErr_bind; [|intros ?]
    | match goal with
      | |- noErr (match ?x with pair _ _ => _ end) => destruct x
      | |- noErr (if ?b then _ else _) => destruct b
      end ].
Qed.

Lemma noErr_binary r1c : noErr (r1cToPlonkConstraintBinary r1c).
Proof.
  unfold r1cToPlonkConstraintBinary.
  apply noErr_bind; [apply noErr_binaryReduceO|intros ot].
  apply noErr_bind; [apply noErr_binaryLoop|intros ?]. apply noErr_ret.
Qed.

Lemma noErr_recordAssertion c : noErr (recordAssertion c).
Proof. intros s e. discriminate. Qed.

Lemma noErr_splitR1C r1c : noErr (splitR1C r1c).
Proof.
  unfold splitR1C.
  repeat first
    [ apply noErr_split | apply noErr_negate | apply noErr_multiply
    | apply noErr_recordAssertion
    | noErr_prim
    | apply noErr_bind; [|intros ?]
    | match goal with
      | |- noErr (match ?x with pair _ _ => _ end) => destruct x
      | |- noErr (if ?b then _ else _) => destruct b
      end ].
Qed.

Lemma noErr_r1cToSparseR1C r1c : noErr (r1cToSparseR1C r1c).
Proof.
  unfold r1cToSparseR1C. destruct (R1C_Solver r1c);
    [apply noErr_singleOutput|apply noErr_binary].
Qed.

Lemma noErr_forEach {A} (f : A -> M unit) l :
  (forall a, noErr (f a)) -> noErr (forEach f l).
Proof.
  intros Hf. induction l as [|a l IH]; cbn [forEach]; [apply noErr_ret|].
  apply noErr_bind; [apply Hf|intros _; exact IH].
Qed.

Lemma noError_offsetLogTerm nbPub nbSec m t : noError (offsetLogTerm nbPub nbSec m t).
Proof.
  unfold offsetLogTerm, Unpack. destruct (VariableVisibility t);
    try (intros e; discriminate).
  apply noError_obind; [apply noError_index|intros v; apply noError_Ok].
Qed.

Lemma noError_mapOutcome {A B} (f : A -> outcome B) l :
  (forall a, noError (f a)) -> noError (mapOutcome f l).
Proof.
  intros Hf. induction l as [|a l IH]; cbn [mapOutcome]; [apply noError_Ok|].
  apply noError_obind; [apply Hf|intros b].
  apply noError_obind; [exact IH|intros r; apply noError_Ok].
Qed.

Lemma noError_offsetLog nbPub nbSec m e : noError (offsetLog nbPub nbSec m e).
Proof.
  unfold offsetLog. apply noError_obind; [|intros r; apply noError_Ok].
  apply noError_mapOutcome. intros t. apply noError_offsetLogTerm.
Qed.

Lemma lowerAll_cases cs :
  (exists res, lowerAll cs = Ok res) \/ (exists p, lowerAll cs = Panic p).
Proof.
  unfold lowerAll.
  pose proof (noErr_bind (forEach r1cToSparseR1C (constraints cs))
                (fun _ => forEach splitR1C (assertions cs))
                (noErr_forEach _ _ noErr_r1cToSparseR1C)
                (fun _ => noErr_forEach _ _ noErr_splitR1C) (newSparseR1CS cs)) as H.
  destruct ((forEach r1cToSparseR1C (constraints cs) ;;;
             forEach splitR1C (assertions cs)) (newSparseR1CS cs))
    as [[u res]|p|e]; [left; eauto|right; eauto|destruct (H e eq_refl)].
Qed.

(** X9.  The two conversion loops of [toSparseR1CS] surface no error value:
    they run to their end or panic.  An error of the pass comes from the
    renumbering of a gate of the constraints or of the assertions (a term
    still Unset); the renumbering of the logs panics instead. *)
Theorem errors_come_from_renumbering (cs : ConstraintSystem) :
  ((exists res, lowerAll cs = Ok res) \/ (exists p, lowerAll cs = Panic p)) /\
  (forall e, convert cs = Err e ->
     exists res, lowerAll cs = Ok res /\
       (mapOutcome (offsetIDs (NbPublicVariables (ccs res)) (NbSecretVariables (ccs res)))
                   (Constraints (ccs res)) = Err e \/
        mapOutcome (offsetIDs (NbPublicVariables (ccs res)) (NbSecretVariables (ccs res)))
                   (Assertions (ccs res)) = Err e)).
Proof.
  split; [apply lowerAll_cases|].
  intros e H. unfold convert in H.
  destruct (lowerAll_cases cs) as [[res E]|[p E]]; rewrite E in H; cbn [obind] in H;
    [|discriminate].
  exists res. split; [exact E|]. unfold renumber in H.
  destruct (mapOutcome _ (Constraints (ccs res))) as [cs'|p|e1]; cbn [obind] in H;
    [|discriminate|left; congruence].
  destruct (mapOutcome _ (Assertions (ccs res))) as [as'|p|e1]; cbn [obind] in H;
    [|discriminate|right; congruence].
  exfalso.
  pose proof (noError_mapOutcome
                (offsetLog (NbPublicVariables (ccs res)) (NbSecretVariables (ccs res))
                           (mCStoCCS res)) (logs cs)
                (noError_offsetLog _ _ _)) as Hl.
  destruct (mapOutcome _ (logs cs)) as [ls'|p|e1]; cbn [obind] in H;
    [discriminate|discriminate|destruct (Hl e1 eq_refl)].
Qed.

(** *** Statements *)

(** X3.  [popConstantTerm] on an expression without ONE_WIRE term returns
    the expression itself with the constant 0.  Whenever it returns, the
    state is the same, the expression lost at most one term, and for every
    pool that extends the current one and every assignment that gives the
    ONE_WIRE the value 1 the expression is worth what is left of it plus
    the constant returned. *)
Theorem popConstantTerm_value (l : LinearExpression) (s : sparseR1CS) :
  (Forall (fun t => isOneWire t = false) l ->
   popConstantTerm l s = Ok ((l, 0), s)) /\
  (forall r c s',
      popConstantTerm l s = Ok ((r, c), s') ->
      s' = s /\
      (List.length r = List.length l \/ S (List.length r) = List.length l) /\
      forall P a, poolExt (coeffs s) P -> zget (aPublic a) 0 = 1 ->
                  evalLinExp P a l = evalLinExp P a r + c).
Proof.
  split.
  - intros H. unfold popConstantTerm. now rewrite popConstantTerm_loop_none.
  - intros r c s'. apply popConstantTerm_sem.
Qed.

(** X4.  [popInternalVariable] allocates a slice one shorter than its
    argument: on the empty expression it panics on the negative length; on
    a non-empty expression in which no term is the internal variable [id]
    the copying loop overruns the slice; when [m + 1] terms are that
    variable it returns the other terms in order, followed by [m] zero
    terms, together with the last term that was the variable. *)
Theorem popInternalVariable_spec (id : Z) (l : LinearExpression) :
  (l = [] -> popInternalVariable l id = Panic NegativeLen) /\
  (l <> [] /\ List.length (keptTerms id l) = List.length l ->
   popInternalVariable l id = Panic IndexOutOfRange) /\
  (forall m, (S m + List.length (keptTerms id l))%nat = List.length l ->
   popInternalVariable l id
   = Ok (keptTerms id l ++ repeat 0 m, lastMatch id l 0)).
Proof.
  split; [|split].
  - intros ->. reflexivity.
  - intros [Hne Hk]. unfold popInternalVariable.
    destruct l as [|v l]; [congruence|].
    destruct (Z.ltb_spec (zlen (v :: l) - 1) 0) as [H|_];
      [unfold zlen in H; cbn [List.length] in H; lia|].
    pose proof (popInternalVariable_loop_spec id (v :: l) []
                  (List.length (v :: l) - 1) 0) as Hs.
    refine (eq_trans Hs _). cbn [app].
    replace (List.length (keptTerms id (v :: l)) <=? List.length (v :: l) - 1)%nat
      with false; [reflexivity|].
    symmetry. apply Nat.leb_gt. rewrite Hk. cbn [List.length]. lia.
  - intros m Hm. unfold popInternalVariable.
    destruct (Z.ltb_spec (zlen l - 1) 0) as [H|_]; [unfold zlen in H; lia|].
    pose proof (popInternalVariable_loop_spec id l [] (List.length l - 1) 0) as Hs.
    refine (eq_trans Hs _). cbn [app].
    replace (List.length (keptTerms id l) <=? List.length l - 1)%nat with true
      by (symmetry; apply Nat.leb_le; lia).
    repeat f_equal. lia.
Qed.

(** X5.  [multiply t c], on a pool whose first three entries are 0, 1 and
    -1: the variable and its visibility are kept, the pool is only
    extended, nothing else of the state changes, and in every later pool
    the coefficient of the result is the coefficient of [t] times [c].  The
    shortcuts for [c] = 0, 1, -1 agree with the general path. *)
Theorem multiply_value (t : Term) (c : Z) (s : sparseR1CS) (t' : Term)
        (s' : sparseR1CS) :
  reserved (coeffs s) ->
  multiply t c s = Ok (t', s') ->
  poolExt (coeffs s) (coeffs s') /\ ccs s' = ccs s /\
  mCStoCCS s' = mCStoCCS s /\ solvedVariables s' = solvedVariables s /\
  VariableID t' = VariableID t /\
  VariableVisibility t' = VariableVisibility t /\
  forall P, poolExt (coeffs s') P -> coeffOf P t' = coeffOf P t * c.
Proof. apply multiply_sem. Qed.

Lemma multiply_value_witness :
  let s := newSparseR1CS (mkConstraintSystem 1 2 0 [] [] pool4 []) in
  exists t' s',
    multiply (mkTerm 1 3 Secret) 3 s = Ok (t', s') /\
    coeffs s' = [0; 1; -1; 2; 6] /\ coeffOf (coeffs s') t' = 6.
Proof.
  cbv zeta.
  edestruct (multiply_value (mkTerm 1 3 Secret) 3
               (newSparseR1CS (mkConstraintSystem 1 2 0 [] [] pool4 [])))
    as (_ & _ & _ & _ & _ & _ & Hc);
    [vm_compute; auto|vm_compute; reflexivity|].
  eexists. eexists. split; [vm_compute; reflexivity|]. split; [reflexivity|].
  refine (eq_trans (Hc _ (poolExt_refl _)) _). vm_compute. reflexivity.
Defined.

(** X6.  [split le 0] only appends gates to the constraints and extends
    the pool.  For every later pool, every assignment and every wire vector
    that carries the internal variables of [le] already mapped, if the
    gates it appended hold modulo [q] then the term it returns is worth the
    linear expression [le] modulo [q]. *)
Theorem split_value (le : LinearExpression) (s : sparseR1CS) (t : Term)
        (s' : sparseR1CS) :
  reserved (coeffs s) -> split le 0 s = Ok (t, s') ->
  exists new,
    Constraints (ccs s') = Constraints (ccs s) ++ new /\
    Assertions (ccs s') = Assertions (ccs s) /\
    mCStoCCS s' = mCStoCCS s /\ solvedVariables s' = solvedVariables s /\
    poolExt (coeffs s) (coeffs s') /\
    forall P a xi q,
      poolExt (coeffs s') P -> Forall (carries (mCStoCCS s) a xi) le ->
      gatesHold q P a xi new ->
      cong q (termValue P a xi t) (evalLinExp P a le).
Proof.
  intros Hr E. destruct (split_ev le s t s' Hr E) as (new & (H1 & H2 & H3 & H4 & H5) & H6).
  exists new. auto 10.
Qed.

Lemma split_value_witness :
  let s := newSparseR1CS (mkConstraintSystem 1 2 0 [] [] pool4 []) in
  let le := [mkTerm 0 3 Secret; mkTerm 1 1 Secret] in
  exists t s' new,
    split le 0 s = Ok (t, s') /\
    Constraints (ccs s') = Constraints (ccs s) ++ new /\
    forall P a xi q,
      poolExt (coeffs s') P -> Forall (carries (mCStoCCS s) a xi) le ->
      gatesHold q P a xi new ->
      cong q (termValue P a xi t) (evalLinExp P a le).
Proof.
  cbv zeta.
  edestruct (split_value [mkTerm 0 3 Secret; mkTerm 1 1 Secret]
               (newSparseR1CS (mkConstraintSystem 1 2 0 [] [] pool4 [])))
    as (new & H1 & _ & _ & _ & _ & H6);
    [vm_compute; auto|vm_compute; reflexivity|].
  eexists. eexists. exists new. split; [vm_compute; reflexivity|].
  split; [exact H1|exact H6].
Defined.

(** X7.  [splitR1C], on a pool whose first three entries are 0, 1 and -1,
    appends helper gates to the constraints and then one last gate, to the
    assertions (or, in the case where L, R and O are all non-empty, to the
    constraints); the map and the solved bitset are the same.  For every
    later pool, every assignment that gives the ONE_WIRE the value 1 and
    every wire vector that carries the mapped internal variables of the
    R1C, if the helper gates hold modulo [q] then the last gate is worth
    [<L,a> * <R,a> - <O,a>] modulo [q]. *)
Theorem splitR1C_sound (r1c : R1C) (s s' : sparseR1CS) :
  reserved (coeffs s) -> splitR1C r1c s = Ok (tt, s') ->
  exists helpers g,
    poolExt (coeffs s) (coeffs s') /\
    mCStoCCS s' = mCStoCCS s /\ solvedVariables s' = solvedVariables s /\
    ((Constraints (ccs s') = Constraints (ccs s) ++ helpers /\
      Assertions (ccs s') = Assertions (ccs s) ++ [g]) \/
     (Constraints (ccs s') = Constraints (ccs s) ++ helpers ++ [g] /\
      Assertions (ccs s') = Assertions (ccs s))) /\
    forall P a xi q,
      poolExt (coeffs s') P -> zget (aPublic a) 0 = 1 ->
      Forall (carries (mCStoCCS s) a xi) (R1C_L r1c ++ R1C_R r1c ++ R1C_O r1c) ->
      gatesHold q P a xi helpers ->
      cong q (preGateValue P a xi g)
             (evalLinExp P a (R1C_L r1c) * evalLinExp P a (R1C_R r1c)
              - evalLinExp P a (R1C_O r1c)).
Proof. apply splitR1C_sound_aux. Qed.

Lemma splitR1C_sound_witness :
  let r1c := mkR1C [mkTerm 0 3 Secret; mkTerm 0 1 Public]
                   [mkTerm 1 1 Secret; mkTerm 2 1 Secret] [mkTerm 0 3 Public]
                   SingleOutput in
  let s := newSparseR1CS (mkConstraintSystem 1 3 0 [] [r1c] pool4 []) in
  exists s' helpers g,
    splitR1C r1c s = Ok (tt, s') /\
    Constraints (ccs s') = helpers /\ Assertions (ccs s') = [g] /\
    forall P a xi q,
      poolExt (coeffs s') P -> zget (aPublic a) 0 = 1 ->
      Forall (carries (mCStoCCS s) a xi) (R1C_L r1c ++ R1C_R r1c ++ R1C_O r1c) ->
      gatesHold q P a xi helpers ->
      cong q (preGateValue P a xi g)
             (evalLinExp P a (R1C_L r1c) * evalLinExp P a (R1C_R r1c)
              - evalLinExp P a (R1C_O r1c)).
Proof.
  cbv zeta.
  edestruct (splitR1C_sound
               (mkR1C [mkTerm 0 3 Secret; mkTerm 0 1 Public]
                      [mkTerm 1 1 Secret; mkTerm 2 1 Secret] [mkTerm 0 3 Public]
                      SingleOutput)
               (newSparseR1CS
                  (mkConstraintSystem 1 3 0 []
                     [mkR1C [mkTerm 0 3 Secret; mkTerm 0 1 Public]
                            [mkTerm 1 1 Secret; mkTerm 2 1 Secret]
                            [mkTerm 0 3 Public] SingleOutput] pool4 [])))
    as (helpers & g & _ & _ & _ & [[HC HA]|[HC HA]] & Hv);
    [vm_compute; auto|vm_compute; reflexivity| |].
  - eexists. exists helpers, g. split; [vm_compute; reflexivity|].
    split; [exact HC|]. split; [exact HA|exact Hv].
  - exfalso. vm_compute in HA. discriminate HA.
Defined.


(** ** Witness serialization *)

Import witness.

Lemma bigEndianPut_length n v : List.length (bigEndianPut n v) = n.
Proof. induction n as [|n IH]; cbn [bigEndianPut List.length]; congruence. Qed.

Lemma lor_shiftl_byte acc (b : byte) :
  Z.lor (Z.shiftl acc 8) (byte.unsigned b) = acc * 2 ^ 8 + byte.unsigned b.
Proof.
  rewrite <- Z.shiftl_mul_pow2 by lia.
  apply Z.or_to_plus.
  rewrite <- (byte.wrap_unsigned b). unfold byte.wrap.
  Z.bitblast. rewrite (Z.testbit_neg_r acc l) by lia. reflexivity.
Qed.

Lemma bigEndianValue_from n v : forall acc,
  0 <= v ->
  fold_left (fun acc b => Z.lor (Z.shiftl acc 8) (byte.unsigned b))
            (bigEndianPut n v) acc
  = acc * 2 ^ (8 * Z.of_nat n) + v mod 2 ^ (8 * Z.of_nat n).
Proof.
  induction n as [|n IH]; intros acc Hv.
  - cbn [bigEndianPut fold_left]. change (8 * Z.of_nat 0) with 0.
    rewrite Z.pow_0_r, Z.mod_1_r. lia.
  - cbn [bigEndianPut fold_left]. rewrite IH by assumption.
    rewrite lor_shiftl_byte, byte.unsigned_of_Z. unfold byte.wrap.
    rewrite Z.shiftr_div_pow2 by lia.
    replace (8 * Z.of_nat (S n)) with (8 * Z.of_nat n + 8) by lia.
    rewrite Z.pow_add_r by lia.
    rewrite (Z.rem_mul_r v (2 ^ (8 * Z.of_nat n)) (2 ^ 8)) by lia.
    ring.
Qed.

Lemma bigEndianValue_put n v :
  0 <= v < 2 ^ (8 * Z.of_nat n) -> bigEndianValue (bigEndianPut n v) = v.
Proof.
  intros Hv. unfold bigEndianValue. rewrite bigEndianValue_from by lia.
  rewrite Z.mod_small by lia. lia.
Qed.

Lemma firstn_app_exact {A} (a X : list A) n :
  List.length a = n -> firstn n (a ++ X) = a.
Proof.
  intros <-. rewrite firstn_app, Nat.sub_diag, firstn_all, firstn_O.
  apply app_nil_r.
Qed.

Lemma skipn_app_exact {A} (a X : list A) n :
  List.length a = n -> skipn n (a ++ X) = X.
Proof.
  intros <-. now rewrite skipn_app, Nat.sub_diag, skipn_all, skipn_O.
Qed.

Section FieldFacts.

Variables (Limbs : nat) (q : Z).
Hypothesis q_fits : q <= 2 ^ (8 * Z.of_nat (frBytes Limbs)).

Lemma elementBytes_length e : List.length (elementBytes Limbs e) = frBytes Limbs.
Proof. apply bigEndianPut_length. Qed.

Lemma elementSetBytes_elementBytes e :
  canonical q e -> elementSetBytes q (elementBytes Limbs e) = e.
Proof.
  intros He. unfold canonical in He. unfold elementSetBytes, elementBytes.
  rewrite bigEndianValue_put by lia. apply Z.mod_small. lia.
Qed.

Lemma encoding_length w :
  zlen (encoding Limbs w) = zlen w * Z.of_nat (frBytes Limbs).
Proof.
  unfold zlen, encoding. induction w as [|e w IH]; cbn [flat_map List.length].
  - reflexivity.
  - rewrite length_app, elementBytes_length. lia.
Qed.

Lemma Write_room w p :
  (List.length p <= room w)%nat ->
  Write w p = (mkWriter (sink w ++ p) (room w - List.length p), (zlen p, None)).
Proof. intros H. unfold Write. apply Nat.leb_le in H. now rewrite H. Qed.

Lemma encodeAll_room els : forall w n,
  (List.length (encoding Limbs els) <= room w)%nat ->
  encodeAll Limbs w n els
  = (mkWriter (sink w ++ encoding Limbs els)
               (room w - List.length (encoding Limbs els)),
     (n + zlen (encoding Limbs els) + 4, None)).
Proof.
  induction els as [|e els IH]; intros w n Hr; cbn [encodeAll encoding flat_map].
  - rewrite app_nil_r. cbn [List.length]. rewrite Nat.sub_0_r.
    destruct w. unfold zlen. cbn [List.length]. repeat f_equal. lia.
  - cbn [encoding flat_map] in Hr. rewrite length_app in Hr.
    rewrite Write_room by lia.
    rewrite IH by (cbn [room]; unfold encoding; lia).
    cbn [sink room]. unfold zlen, encoding.
    rewrite !length_app, <- app_assoc.
    f_equal; [f_equal; lia|f_equal; lia].
Qed.

Lemma ReadFull_enough (r : reader) n :
  (n <= List.length r)%nat -> ReadFull r n = (firstn n r, skipn n r, None).
Proof. intros H. unfold ReadFull. apply Nat.leb_le in H. now rewrite H. Qed.

Lemma decodeAll_encoding els : forall old rest lim n done,
  Forall (canonical q) els ->
  List.length old = List.length els ->
  zlen (encoding Limbs els) <= lim ->
  decodeAll Limbs q (encoding Limbs els ++ rest) lim n done old
  = (done ++ els, rest, (n + zlen (encoding Limbs els) + 4, None)).
Proof.
  induction els as [|e els IH]; intros old rest lim n done Hc Hl Hlim.
  - destruct old; [|discriminate]. cbn [decodeAll encoding flat_map app].
    rewrite app_nil_r. unfold zlen. cbn [List.length]. repeat f_equal. lia.
  - destruct old as [|o old]; [discriminate|].
    inversion Hc as [|? ? He Hc']; subst.
    cbn [decodeAll encoding flat_map]. fold (encoding Limbs els).
    rewrite <- app_assoc.
    assert (Hb : (frBytes Limbs <= Z.to_nat lim)%nat).
    { cbn [encoding flat_map] in Hlim. unfold zlen in Hlim.
      rewrite length_app, elementBytes_length in Hlim. lia. }
    assert (Hf : forall X, firstn (frBytes Limbs) (elementBytes Limbs e ++ X)
                           = elementBytes Limbs e)
      by (intros X; apply firstn_app_exact, elementBytes_length).
    assert (Hs : forall X, skipn (frBytes Limbs) (elementBytes Limbs e ++ X) = X)
      by (intros X; apply skipn_app_exact, elementBytes_length).
    rewrite ReadFull_enough
      by (rewrite length_firstn, length_app, elementBytes_length; lia).
    rewrite firstn_firstn, Nat.min_l by lia.
    rewrite !Hf, elementBytes_length, Hs.
    rewrite elementSetBytes_elementBytes by assumption.
    rewrite IH; auto.
    + rewrite <- app_assoc. cbn [app]. unfold zlen, encoding.
      cbn [flat_map]. rewrite !length_app.
      f_equal. f_equal. lia.
    + cbn [encoding flat_map] in Hlim. unfold zlen, encoding in *.
      rewrite length_app in Hlim. lia.
Qed.

End FieldFacts.

Section RoundTrip.

Variables (Limbs : nat) (q : Z).
Hypothesis q_fits : q <= 2 ^ (8 * Z.of_nat (frBytes Limbs)).

(** C9.  For a witness [w] of fewer than 2^32 canonical elements and a
    writer with room for it, [WriteTo] emits the 4-byte big-endian prefix
    whose value is [len(w)], followed by the encodings of the [len(w)]
    elements, and reports [len(w) * fr.Bytes + 4] bytes and no error;
    [LimitReadFrom] applied to these bytes (whatever follows them and
    whatever the receiver held) with [expectedSize = len(w)] yields [w]
    again, leaves what follows unread and reports the same count.  Whenever
    the four bytes read differ in value from [expectedSize],
    [LimitReadFrom] fails with the error [invalid witness size], reports 4
    bytes, and has consumed those four bytes only, the receiver being left
    as it was. *)
Theorem witness_serialization (w w0 : Witness) (wr : writer) (rest r : reader)
        (expectedSize : Z) :
  (zlen w < 2 ^ 32 /\ Forall (canonical q) w /\
   (4 + List.length (encoding Limbs w) <= room wr)%nat ->
   let out := bigEndianPut 4 (zlen w) ++ encoding Limbs w in
   bigEndianValue (bigEndianPut 4 (zlen w)) = zlen w /\
   WriteTo Limbs w wr
   = (mkWriter (sink wr ++ out) (room wr - List.length out),
      (zlen w * Z.of_nat (frBytes Limbs) + 4, None)) /\
   LimitReadFrom Limbs q w0 (out ++ rest) (zlen w)
   = (w, rest, (zlen w * Z.of_nat (frBytes Limbs) + 4, None))) /\
  ((4 <= List.length r)%nat /\ bigEndianValue (firstn 4 r) <> expectedSize ->
   LimitReadFrom Limbs q w0 r expectedSize
   = (w0, skipn 4 r, (4, Some (errorsNew "invalid witness size")))).
Proof.
  split.
  - intros (Hlen & Hcan & Hroom). cbv zeta.
    pose proof (zlen_nonneg w) as Hnn.
    assert (Hpre : bigEndianValue (bigEndianPut 4 (zlen w)) = zlen w).
    { apply bigEndianValue_put. change (8 * Z.of_nat 4) with 32. lia. }
    split; [exact Hpre|]. split.
    + unfold WriteTo. rewrite Z.mod_small by lia.
      rewrite Write_room by (rewrite bigEndianPut_length; lia).
      rewrite encodeAll_room
        by (cbn [room]; rewrite bigEndianPut_length; lia).
      cbn [sink room]. rewrite <- app_assoc, length_app, bigEndianPut_length.
      rewrite encoding_length.
      replace (room wr - 4 - List.length (encoding Limbs w))%nat
        with (room wr - (4 + List.length (encoding Limbs w)))%nat by lia.
      reflexivity.
    + unfold LimitReadFrom.
      rewrite ReadFull_enough
        by (rewrite !length_app, bigEndianPut_length; lia).
      rewrite <- app_assoc.
      rewrite firstn_app_exact, skipn_app_exact by apply bigEndianPut_length.
      rewrite Hpre, Z.eqb_refl. cbn [negb].
      rewrite (decodeAll_encoding Limbs q q_fits); auto.
      * cbn [app]. now rewrite encoding_length.
      * destruct (zlen w0 =? zlen w) eqn:E; cbn [negb].
        -- apply Z.eqb_eq in E. unfold zlen in E. lia.
        -- rewrite repeat_length. unfold zlen. lia.
      * rewrite encoding_length. unfold frBytes. lia.
  - intros (Hr & Hne). unfold LimitReadFrom.
    rewrite ReadFull_enough by assumption.
    apply Z.eqb_neq in Hne. rewrite Hne. reflexivity.
Qed.

End RoundTrip.

Lemma witness_serialization_witness :
  let w := [5; 250; 0] in
  let out := bigEndianPut 4 3 ++ encoding 1 w in
  (bigEndianValue (bigEndianPut 4 3) = 3 /\
   WriteTo 1 w (mkWriter [] 100)
   = (mkWriter ([] ++ out) (100 - List.length out), (3 * Z.of_nat (frBytes 1) + 4, None)) /\
   LimitReadFrom 1 251 [] (out ++ []) 3
   = (w, [], (3 * Z.of_nat (frBytes 1) + 4, None))) /\
  LimitReadFrom 1 251 [] (bigEndianPut 4 7) 3
  = ([], skipn 4 (bigEndianPut 4 7), (4, Some (errorsNew "invalid witness size"))).
Proof.
  cbv zeta.
  pose proof (witness_serialization 1 251 ltac:(vm_compute; discriminate)
                [5; 250; 0] [] (mkWriter [] 100) [] (bigEndianPut 4 7) 3) as [H1 H2].
  split.
  - apply H1. split; [vm_compute; reflexivity|]. split.
    + repeat constructor; unfold canonical; lia.
    + vm_compute. lia.
  - apply H2. split; [vm_compute; lia|vm_compute; discriminate].
Defined.
